(** * Snapshot testing for the agent runtime: normalizer, hook base, orchestrator

  A shallow embedding of three source files of the agent-snapshot package:

  - [utils/snapshot-normalizer.ts]  (module [Normalizer]),
  - the hook base class             (module [HookBase]),
  - [agent-snapshot.ts]             (module [Snapshot]).

  JavaScript values live in a heap of objects addressed by locations, so
  that shared and cyclic object graphs can be expressed; the normalizer's
  [seenObjects] set is threaded explicitly.  Recursion that the source does
  not bound is bounded by fuel, and running out of fuel is a distinct
  outcome ([None]). *)

From stdpp Require Import gmap strings list pretty.
From Stdlib Require Import ZArith Ascii String Sorting.Sorted Permutation.

Open Scope string_scope.
Set Warnings "-register-all,-clear-no-such-hyp".

(** ** Strings: the fragment of JavaScript string and RegExp behaviour used *)

Module Str.

(** ASCII case folding, the canonicalisation a non-unicode [/i] regular
    expression applies to the ASCII letters of the patterns used here. *)
Definition lower_ascii (c : ascii) : ascii :=
  let n := nat_of_ascii c in
  if (65 <=? n)%nat && (n <=? 90)%nat then ascii_of_nat (n + 32) else c.

Fixpoint lower (s : string) : string :=
  match s with
  | EmptyString => EmptyString
  | String c s' => String (lower_ascii c) (lower s')
  end.

(** [s.startsWith(p)]. *)
Definition startsWith (p s : string) : bool := String.prefix p s.

(** [lit] occurs somewhere in [s]. *)
Fixpoint contains (lit s : string) : bool :=
  String.prefix lit s ||
  match s with
  | EmptyString => false
  | String _ s' => contains lit s'
  end.

(** [lit] is a suffix of [s]. *)
Fixpoint endsWith (lit s : string) : bool :=
  String.eqb lit s ||
  match s with
  | EmptyString => false
  | String _ s' => endsWith lit s'
  end.

(** [/lit/i.test(s)] for a literal without metacharacters. *)
Definition test_contains_i (lit s : string) : bool :=
  contains (lower lit) (lower s).

(** [/lit$/i.test(s)] for a literal without metacharacters. *)
Definition test_ends_i (lit s : string) : bool :=
  endsWith (lower lit) (lower s).

End Str.

(** ** The normalizer ([utils/snapshot-normalizer.ts]) *)

Module Normalizer.

Definition loc := nat.

(** A JavaScript value as the normalizer sees it: a primitive, or a
    reference to an object of the heap.  Numbers are only ever copied. *)
Inductive Value : Type :=
| VUndefined
| VNull
| VBool (b : bool)
| VNum (n : Z)
| VStr (s : string)
| VRef (l : loc).

(** A heap object: an array, or an object given by its [Object.entries]
    (own enumerable string-keyed properties, in enumeration order). *)
Inductive HeapObj : Type :=
| HArray (items : list Value)
| HObject (entries : list (string * Value)).

(** The object graph.  A location without a binding stands for an object
    with no own enumerable property ([Object.entries] gives []). *)
Abbreviation Heap := (gmap loc HeapObj).

(** The result of [normalize]: arrays and objects are freshly built by
    the call, so they are described by their structure; a leaf is a value
    copied verbatim (a primitive, a replacement, a custom normalizer's
    result). *)
Inductive Out : Type :=
| OVal (v : Value)
| OArr (items : list Out)
| OObj (entries : list (string * Out)).

(** [pattern: string | RegExp]; a regular expression (without the [g] or
    [y] flag, whose [test] is stateless) is given by its [test]. *)
Inductive Pattern : Type :=
| PatString (s : string)
| PatRegExp (test : string -> bool).

Record FieldRule : Type := mkRule {
  pattern : Pattern;
  replacement : Value;          (* omitted: [VUndefined] *)
  deep : bool
}.

Record CustomNormalizer : Type := mkCustom {
  cpattern : Pattern;
  normalizer : Value -> string -> Value
}.

(** [AgentNormalizerConfig]; an absent list is [None]. *)
Record AgentNormalizerConfig : Type := mkUserConfig {
  u_fieldsToNormalize : option (list FieldRule);
  u_fieldsToIgnore : option (list Pattern);
  u_customNormalizers : option (list CustomNormalizer)
}.

(** [Required<AgentNormalizerConfig>]. *)
Record Config : Type := mkConfig {
  fieldsToNormalize : list FieldRule;
  fieldsToIgnore : list Pattern;
  customNormalizers : list CustomNormalizer
}.

Definition DEFAULT_CONFIG : Config := {|
  fieldsToNormalize := [
    mkRule (PatRegExp (Str.test_ends_i "id")) (VStr "<<ID>>") true;
    mkRule (PatRegExp (Str.test_contains_i "timestamp")) (VStr "<<TIMESTAMP>>") true;
    mkRule (PatRegExp (Str.test_contains_i "created")) (VStr "<<TIMESTAMP>>") true;
    mkRule (PatRegExp (Str.test_contains_i "startTime")) (VStr "<<TIMESTAMP>>") true;
    mkRule (PatRegExp (Str.test_contains_i "elapsedMs")) (VStr "<<ELAPSED_MS>>") true;
    mkRule (PatRegExp (Str.test_contains_i "ttftMs")) (VStr "<<TTFT_MS>>") true;
    mkRule (PatRegExp (Str.test_contains_i "ttltMs")) (VStr "<<TTLT_MS>>") true;
    mkRule (PatRegExp (Str.test_contains_i "executionTime")) (VStr "<<EXECUTION_TIME>>") true;
    mkRule (PatRegExp (Str.test_contains_i "toolCallId")) (VStr "<<TOOL_CALL_ID>>") true;
    mkRule (PatRegExp (Str.test_contains_i "sessionId")) (VStr "<<SESSION_ID>>") true;
    mkRule (PatRegExp (Str.test_contains_i "messageId")) (VStr "<<MESSAGE_ID>>") true;
    mkRule (PatRegExp (Str.test_contains_i "image_url")) (VStr "<<IMAGE_URL>>") true
  ];
  fieldsToIgnore := [];
  customNormalizers := []
|}.

(** The constructor: defaults first, then what the caller supplies. *)
Definition new_normalizer (config : option AgentNormalizerConfig) : Config := {|
  fieldsToNormalize :=
    fieldsToNormalize DEFAULT_CONFIG ++
    default [] (config ≫= u_fieldsToNormalize);
  fieldsToIgnore :=
    fieldsToIgnore DEFAULT_CONFIG ++
    default [] (config ≫= u_fieldsToIgnore);
  customNormalizers :=
    customNormalizers DEFAULT_CONFIG ++
    default [] (config ≫= u_customNormalizers)
|}.

Definition matchesPattern (p : Pattern) (key path : string) : bool :=
  match p with
  | PatRegExp test => test key || test path
  | PatString s => String.eqb key s || String.eqb path s
  end.

(** [fieldsToIgnore.some(...)]. *)
Definition shouldIgnoreField (cfg : Config) (key path : string) : bool :=
  existsb (fun p => matchesPattern p key path) (fieldsToIgnore cfg).

(** The second loop of [normalizeField]. *)
Fixpoint firstRule (rules : list FieldRule) (key path : string) : Value :=
  match rules with
  | [] => VUndefined
  | r :: rest =>
      if matchesPattern (pattern r) key path then replacement r
      else firstRule rest key path
  end.

(** The first loop of [normalizeField], falling through to the second. *)
Fixpoint firstCustom (cs : list CustomNormalizer) (rules : list FieldRule)
    (key : string) (value : Value) (path : string) : Value :=
  match cs with
  | [] => firstRule rules key path
  | c :: rest =>
      if matchesPattern (cpattern c) key path then normalizer c value path
      else firstCustom rest rules key value path
  end.

Definition normalizeField (cfg : Config) (key : string) (value : Value)
    (path : string) : Value :=
  firstCustom (customNormalizers cfg) (fieldsToNormalize cfg) key value path.

Definition is_undefined (v : Value) : bool :=
  match v with VUndefined => true | _ => false end.

(** [result[key] = v] on the object under construction: an existing
    property keeps its place, a new one goes last; the key ["__proto__"]
    reaches the inherited setter and creates no own property. *)
Fixpoint upsert (result : list (string * Out)) (key : string) (v : Out)
    : list (string * Out) :=
  match result with
  | [] => [(key, v)]
  | (k, w) :: rest =>
      if String.eqb k key then (k, v) :: rest else (k, w) :: upsert rest key v
  end.

Definition set_prop (result : list (string * Out)) (key : string) (v : Out)
    : list (string * Out) :=
  if String.eqb key "__proto__" then result else upsert result key v.

(** What a recursive call of [normalize] is to its callers: from a value,
    a path and the current [seenObjects] to a result and the set
    afterwards, or [None] when the fuel is exhausted. *)
Abbreviation Rec := (Value -> string -> gset loc -> option (Out * gset loc)).

(** [`${path}[${index}]`]. *)
Definition indexPath (path : string) (index : nat) : string :=
  path +:+ "[" +:+ pretty index +:+ "]".

(** [obj.map((item, index) => this.normalize(item, `${path}[${index}]`))]. *)
Fixpoint normalize_items (rec : Rec) (path : string) (index : nat)
    (items : list Value) (seen : gset loc) : option (list Out * gset loc) :=
  match items with
  | [] => Some ([], seen)
  | item :: rest =>
      match rec item (indexPath path index) seen with
      | None => None
      | Some (o, seen1) =>
          match normalize_items rec path (S index) rest seen1 with
          | None => None
          | Some (os, seen2) => Some (o :: os, seen2)
          end
      end
  end.

Definition currentPath (path key : string) : string :=
  if String.eqb path "" then key else path +:+ "." +:+ key.

(** [for (const [key, value] of Object.entries(obj)) { ... }]. *)
Fixpoint normalize_entries (rec : Rec) (cfg : Config) (path : string)
    (entries : list (string * Value)) (seen : gset loc)
    (result : list (string * Out)) : option (list (string * Out) * gset loc) :=
  match entries with
  | [] => Some (result, seen)
  | (key, value) :: rest =>
      let cp := currentPath path key in
      if shouldIgnoreField cfg key cp then
        normalize_entries rec cfg path rest seen result
      else
        let normalized := normalizeField cfg key value cp in
        if is_undefined normalized then
          match rec value cp seen with
          | None => None
          | Some (o, seen1) =>
              normalize_entries rec cfg path rest seen1 (set_prop result key o)
          end
        else
          normalize_entries rec cfg path rest seen
            (set_prop result key (OVal normalized))
  end.

Definition circular : Value := VStr "[Circular]".

(** [if (path === '') { this.seenObjects = new WeakSet(); }]. *)
Definition resetOnTopLevel (path : string) (seen : gset loc) : gset loc :=
  if String.eqb path "" then ∅ else seen.

(** [normalize(obj, path)], with [this.seenObjects] passed in and out. *)
Fixpoint normalize_aux (fuel : nat) (h : Heap) (cfg : Config)
    (obj : Value) (path : string) (seen : gset loc)
    : option (Out * gset loc) :=
  match fuel with
  | O => None
  | S fuel' =>
      (* Reset circular reference tracking on top-level calls *)
      let seen := resetOnTopLevel path seen in
      match obj with
      | VRef l =>
          (* Handle circular references *)
          if bool_decide (l ∈ seen) then Some (OVal circular, seen)
          else
            let seen := {[l]} ∪ seen in
            match h !! l with
            | Some (HArray items) =>
                match normalize_items (normalize_aux fuel' h cfg) path 0
                        items seen with
                | None => None
                | Some (os, seen') => Some (OArr os, seen')
                end
            | Some (HObject entries) =>
                match normalize_entries (normalize_aux fuel' h cfg) cfg path
                        entries seen [] with
                | None => None
                | Some (es, seen') => Some (OObj es, seen')
                end
            | None => Some (OObj [], seen)
            end
      | _ => Some (OVal obj, seen)   (* null, undefined, primitives *)
      end
  end.

(** A top-level call [normalize(obj)] on an instance whose [seenObjects]
    is [seen]: the default [path = ''] applies. *)
Definition normalize (fuel : nat) (h : Heap) (cfg : Config) (obj : Value)
    (seen : gset loc) : option (Out * gset loc) :=
  normalize_aux fuel h cfg obj "" seen.

(** The entry of a list that a first-match loop stops at. *)
Definition firstMatchingCustom (cs : list CustomNormalizer) (key path : string)
    : option CustomNormalizer :=
  List.find (fun c => matchesPattern (cpattern c) key path) cs.

Definition firstMatchingRule (rules : list FieldRule) (key path : string)
    : option FieldRule :=
  List.find (fun r => matchesPattern (pattern r) key path) rules.

(** Some custom normalizer or rule matches the field, and the first one to
    match gives [undefined]: the custom normalizer returns it, or the rule
    has no [replacement]. *)
Definition first_match_gives_undefined (cfg : Config) (key : string)
    (value : Value) (path : string) : Prop :=
  match firstMatchingCustom (customNormalizers cfg) key path with
  | Some c => normalizer c value path = VUndefined
  | None =>
      match firstMatchingRule (fieldsToNormalize cfg) key path with
      | Some r => replacement r = VUndefined
      | None => False
      end
  end.

(** *** Object graphs without cycles, and results put back in the heap *)

(** No chain of references that starts at [v] goes through more than [n]
    objects. *)
Fixpoint depth_within (h : Heap) (n : nat) (v : Value) : Prop :=
  match v with
  | VRef l =>
      match n with
      | O => False
      | S n' =>
          match h !! l with
          | Some (HArray items) => Forall (depth_within h n') items
          | Some (HObject entries) =>
              Forall (fun kv => depth_within h n' (snd kv)) entries
          | None => True
          end
      end
  | _ => True
  end.

(** An acyclic value: the chains of references that start at it are
    bounded.  (Objects may still be shared.) *)
Definition acyclic (h : Heap) (v : Value) : Prop := exists n, depth_within h n v.

Definition is_ref (v : Value) : bool :=
  match v with VRef _ => true | _ => false end.

(** The number of nested arrays and objects of a result. *)
Fixpoint height (o : Out) : nat :=
  match o with
  | OVal _ => 0
  | OArr items => S (list_max (List.map height items))
  | OObj entries => S (list_max (List.map (fun kv => height (snd kv)) entries))
  end.

(** The result of a call is a JavaScript value again: [store o h] builds
    it in the heap, one new object for each array and object of [o], and
    returns the value that denotes it. *)
Fixpoint store_items (st : Out -> Heap -> Value * Heap) (items : list Out)
    (h : Heap) : list Value * Heap :=
  match items with
  | [] => ([], h)
  | o :: rest =>
      let '(v, h1) := st o h in
      let '(vs, h2) := store_items st rest h1 in
      (v :: vs, h2)
  end.

Fixpoint store_entries (st : Out -> Heap -> Value * Heap)
    (entries : list (string * Out)) (h : Heap) : list (string * Value) * Heap :=
  match entries with
  | [] => ([], h)
  | (k, o) :: rest =>
      let '(v, h1) := st o h in
      let '(vs, h2) := store_entries st rest h1 in
      ((k, v) :: vs, h2)
  end.

Fixpoint store (o : Out) (h : Heap) : Value * Heap :=
  match o with
  | OVal v => (v, h)
  | OArr items =>
      let '(vs, h1) := store_items store items h in
      let l := fresh (dom h1) in
      (VRef l, <[l := HArray vs]> h1)
  | OObj entries =>
      let '(vs, h1) := store_entries store entries h in
      let l := fresh (dom h1) in
      (VRef l, <[l := HObject vs]> h1)
  end.

(** [stored_at h o v L]: in [h] the value [v] denotes the result [o], built
    from the objects at the locations [L], each used once. *)
Fixpoint stored_items (P : Out -> Value -> gset loc -> Prop)
    (outs : list Out) (items : list Value) (L : gset loc) : Prop :=
  match outs, items with
  | [], [] => L = ∅
  | o :: outs', v :: items' =>
      exists L1 L2, P o v L1 /\ stored_items P outs' items' L2
                    /\ L1 ## L2 /\ L = (L1 ∪ L2)
  | _, _ => False
  end.

Fixpoint stored_entries (P : Out -> Value -> gset loc -> Prop)
    (outs : list (string * Out)) (entries : list (string * Value))
    (L : gset loc) : Prop :=
  match outs, entries with
  | [], [] => L = ∅
  | (k, o) :: outs', (k', v) :: entries' =>
      k = k' /\
      exists L1 L2, P o v L1 /\ stored_entries P outs' entries' L2
                    /\ L1 ## L2 /\ L = (L1 ∪ L2)
  | _, _ => False
  end.

Fixpoint stored_at (h : Heap) (o : Out) (v : Value) (L : gset loc) : Prop :=
  match o with
  | OVal w => v = w /\ L = ∅
  | OArr outs =>
      exists l items L',
        v = VRef l /\ h !! l = Some (HArray items) /\ (l ∉ L') /\ L = ({[l]} ∪ L')
        /\ stored_items (stored_at h) outs items L'
  | OObj outs =>
      exists l entries L',
        v = VRef l /\ h !! l = Some (HObject entries) /\ (l ∉ L') /\ L = ({[l]} ∪ L')
        /\ stored_entries (stored_at h) outs entries L'
  end.

(** [normal_at path o]: under the default configuration, [o] is what a
    call at [path] leaves behind: a field that a default rule matches holds
    the rule's replacement, the other fields and the items are normal at
    their own paths, and the leaves are primitives. *)
Definition defaultRule (key path : string) : Value :=
  firstRule (fieldsToNormalize DEFAULT_CONFIG) key path.

Fixpoint normal_items (P : string -> Out -> Prop) (path : string) (index : nat)
    (outs : list Out) : Prop :=
  match outs with
  | [] => True
  | o :: rest => P (indexPath path index) o /\ normal_items P path (S index) rest
  end.

Definition normal_field (P : string -> Out -> Prop) (path key : string)
    (o : Out) : Prop :=
  if is_undefined (defaultRule key (currentPath path key))
  then P (currentPath path key) o
  else o = OVal (defaultRule key (currentPath path key)).

Fixpoint normal_entries (P : string -> Out -> Prop) (path : string)
    (outs : list (string * Out)) : Prop :=
  match outs with
  | [] => True
  | (k, o) :: rest => normal_field P path k o /\ normal_entries P path rest
  end.

Fixpoint normal_at (path : string) (o : Out) : Prop :=
  match o with
  | OVal v => is_ref v = false
  | OArr outs => normal_items normal_at path 0 outs
  | OObj outs =>
      NoDup (fst <$> outs) /\ ("__proto__" ∉ fst <$> outs)
      /\ normal_entries normal_at path outs
  end.

(** What [store] guarantees: the result is built from new objects, each
    used once, and the objects of the heap stay as they are. *)
Definition store_ok (o : Out) : Prop :=
  forall h : Heap,
    exists L, stored_at (snd (store o h)) o (fst (store o h)) L
              /\ L ## dom h /\ L ⊆ dom (snd (store o h)) /\ h ⊆ snd (store o h).

(** What a call does on a stored result that is normal at [path]: it
    returns the result itself. *)
Definition second_call_ok (h : Heap) (o : Out) : Prop :=
  forall fuel v L path seen,
    (height o < fuel)%nat ->
    stored_at h o v L ->
    normal_at path o ->
    resetOnTopLevel path seen ## L ->
    exists seen',
      normalize_aux fuel h DEFAULT_CONFIG v path seen = Some (o, seen')
      /\ seen' ⊆ resetOnTopLevel path seen ∪ L.

(** The top-level value is not an object with a property named by the
    empty string. *)
Definition no_empty_key (h : Heap) (v : Value) : Prop :=
  match v with
  | VRef l =>
      match h !! l with
      | Some (HObject entries) => "" ∉ fst <$> entries
      | _ => True
      end
  | _ => True
  end.

(** [rec] returns on every call away from the top level, and only adds to
    [seenObjects], as long as at most [m] objects of the heap are unseen. *)
Definition returns_within (h : Heap) (m : nat)
    (rec : Value -> string -> gset loc -> option (Out * gset loc)) : Prop :=
  forall v p (s : gset loc),
    p <> "" -> (size (dom h ∖ s) <= m)%nat ->
    exists o s', rec v p s = Some (o, s') /\ s ⊆ s'.

End Normalizer.

(** ** What the modules share: thrown values, the logger, the runtime *)

Module Runtime.

(** An [Error] object, by its [name] (["Error"], ["TypeError"], ...) and
    its [message]. *)
Record Error : Type := mkErrorObject { error_name : string; message : string }.

(** [new Error(msg)]. *)
Definition mkError (msg : string) : Error :=
  {| error_name := "Error"; message := msg |}.

(** [Error.prototype.toString], which a template literal calls. *)
Definition Error_toString (e : Error) : string :=
  if String.eqb (error_name e) "" then message e
  else if String.eqb (message e) "" then error_name e
  else error_name e +:+ ": " +:+ message e.

(** What a [throw] can carry: an [Error], or any other value, kept as the
    string [String(value)] gives. *)
Inductive Thrown : Type :=
| ThrownError (e : Error)
| ThrownValue (str : string).

(** How a call ends.  [E] is the type of what it can throw. *)
Inductive Completion (E T : Type) : Type :=
| Normal (r : T)
| Throw (e : E).
Arguments Normal {E T} r.
Arguments Throw {E T} e.

Inductive Level : Type := LInfo | LWarn | LError | LDebug | LSuccess.

Definition LogEntry : Type := Level * string.

(** The nine extension points of the runtime. *)
Inductive HookName : Type :=
| OnLLMRequest | OnLLMResponse | OnLLMStreamingResponse
| OnAgentLoopEnd | OnEachAgentLoopStart
| OnBeforeToolCall | OnAfterToolCall | OnToolCallError
| OnProcessToolCalls.

(** A function held in an extension point: one of the runtime's own
    (told apart by [fn]), or the wrapper a hook installs there, a closure
    over the hook object [owner] that installed it. *)
Inductive Callback : Type :=
| Native (fn : nat)
| Instrumented (owner : nat) (point : HookName).

(** The callbacks of an agent; [None] is [undefined]. *)
Record Hooks : Type := mkHooks {
  onLLMRequest : option Callback;
  onLLMResponse : option Callback;
  onLLMStreamingResponse : option Callback;
  onAgentLoopEnd : option Callback;
  onEachAgentLoopStart : option Callback;
  onBeforeToolCall : option Callback;
  onAfterToolCall : option Callback;
  onToolCallError : option Callback;
  onProcessToolCalls : option Callback
}.

(** The part of the [Agent] object this package reads or writes. *)
Record Agent : Type := mkAgent {
  callbacks : Hooks;
  customLLMClient : option nat;
  isReplay : bool
}.

(** An entry of the snapshot directory, with what [statSync] says. *)
Record DirEntry : Type := mkEntry { name : string; isDirectory : bool }.

(** The world outside the objects of this package: the agent, the
    snapshot directory ([None]: the path does not exist; when it exists it
    is a directory, as [ensureSnapshotDirectory] creates it), the
    lines logged so far, and the number of hook objects created so far,
    which is the identity the next one gets. *)
Record World : Type := mkWorld {
  agent : Agent;
  dir : option (list DirEntry);
  log : list LogEntry;
  hooksCreated : nat
}.

Definition logger (lv : Level) (msg : string) (w : World) : World :=
  {| agent := agent w; dir := dir w; log := log w ++ [(lv, msg)];
     hooksCreated := hooksCreated w |}.

Definition set_agent (a : Agent) (w : World) : World :=
  {| agent := a; dir := dir w; log := log w; hooksCreated := hooksCreated w |}.

(** The allocation of a hook object. *)
Definition count_hook (w : World) : World :=
  {| agent := agent w; dir := dir w; log := log w;
     hooksCreated := S (hooksCreated w) |}.

(** [if (!fs.existsSync(p)) fs.mkdirSync(p, { recursive: true })]. *)
Definition ensureSnapshotDirectory (w : World) : World :=
  match dir w with
  | Some _ => w
  | None => {| agent := agent w; dir := Some []; log := log w;
               hooksCreated := hooksCreated w |}
  end.

End Runtime.

(** ** The hook base class *)

Module HookBase.
Import Runtime.

Record HookOptions : Type := mkHookOptions {
  o_snapshotPath : string;
  o_snapshotName : string
}.

(** The fields of an [AgentHookBase] instance ([agent] is in the world),
    and the identity of the object: what [this] is in the closures that
    [hookAgent] installs. *)
Record Hook : Type := mkHook {
  identity : nat;
  snapshotPath : string;
  snapshotName : string;
  lastError : option Error;            (* [None]: [null] *)
  isHooked : bool;
  originalHooks : option Hooks         (* [None]: [{}] *)
}.

(** A hook instance together with the world it acts on. *)
Record Ctx : Type := mkCtx { this : Hook; world : World }.

Definition set_this (t : Hook) (c : Ctx) : Ctx :=
  {| this := t; world := world c |}.
Definition set_world (w : World) (c : Ctx) : Ctx :=
  {| this := this c; world := w |}.
Definition ctx_log (lv : Level) (msg : string) (c : Ctx) : Ctx :=
  set_world (logger lv msg (world c)) c.

(** The constructor of the base class (a subclass is taken to add nothing
    that the orchestrator reads). *)
Definition new_hook (options : HookOptions) (w : World) : Ctx :=
  {| this := {| identity := hooksCreated w;
                snapshotPath := o_snapshotPath options;
                snapshotName := o_snapshotName options;
                lastError := None;
                isHooked := false;
                originalHooks := None |};
     world := ensureSnapshotDirectory (count_hook w) |}.

(** The wrappers that [hookAgent] installs for the hook object [owner]. *)
Definition instrumented (owner : nat) : Hooks := {|
  onLLMRequest := Some (Instrumented owner OnLLMRequest);
  onLLMResponse := Some (Instrumented owner OnLLMResponse);
  onLLMStreamingResponse := Some (Instrumented owner OnLLMStreamingResponse);
  onAgentLoopEnd := Some (Instrumented owner OnAgentLoopEnd);
  onEachAgentLoopStart := Some (Instrumented owner OnEachAgentLoopStart);
  onBeforeToolCall := Some (Instrumented owner OnBeforeToolCall);
  onAfterToolCall := Some (Instrumented owner OnAfterToolCall);
  onToolCallError := Some (Instrumented owner OnToolCallError);
  onProcessToolCalls := Some (Instrumented owner OnProcessToolCalls)
|}.

Definition set_callbacks (hs : Hooks) (a : Agent) : Agent :=
  {| callbacks := hs; customLLMClient := customLLMClient a;
     isReplay := isReplay a |}.

Definition hookAgent (c : Ctx) : Ctx :=
  if isHooked (this c) then
    ctx_log LWarn "Agent already hooked, skipping" c
  else
    let t := this c in
    let a := agent (world c) in
    (* Store original hooks *)
    let original := {|
      onLLMRequest := onLLMRequest (callbacks a);
      onLLMResponse := onLLMResponse (callbacks a);
      onLLMStreamingResponse := onLLMStreamingResponse (callbacks a);
      onAgentLoopEnd := onAgentLoopEnd (callbacks a);
      onEachAgentLoopStart := onEachAgentLoopStart (callbacks a);
      onBeforeToolCall := onBeforeToolCall (callbacks a);
      onAfterToolCall := onAfterToolCall (callbacks a);
      onToolCallError := onToolCallError (callbacks a);
      onProcessToolCalls := onProcessToolCalls (callbacks a) |} in
    (* Install our hooks *)
    let a' := set_callbacks (instrumented (identity t)) a in
    ctx_log LDebug ("Hooked into agent: " +:+ snapshotName t)
      {| this := {| identity := identity t;
                    snapshotPath := snapshotPath t;
                    snapshotName := snapshotName t;
                    lastError := lastError t;
                    isHooked := true;
                    originalHooks := Some original |};
         world := set_agent a' (world c) |}.

(** [Object.assign(agent, source)] for a source that is [{}] or holds all
    nine callbacks. *)
Definition assign_hooks (a : Agent) (source : option Hooks) : Agent :=
  match source with
  | None => a
  | Some hs => set_callbacks hs a
  end.

Definition unhookAgent (c : Ctx) : Ctx :=
  if negb (isHooked (this c)) then c
  else
    let t := this c in
    (* Restore original hooks *)
    let a' := assign_hooks (agent (world c)) (originalHooks t) in
    ctx_log LDebug ("Unhooked from agent: " +:+ snapshotName t)
      {| this := {| identity := identity t;
                    snapshotPath := snapshotPath t;
                    snapshotName := snapshotName t;
                    lastError := lastError t;
                    isHooked := false;
                    originalHooks := None |};
         world := set_agent a' (world c) |}.

Definition hasError (c : Ctx) : bool :=
  match lastError (this c) with Some _ => true | None => false end.

Definition getLastError (c : Ctx) : option Error := lastError (this c).

Definition set_lastError (e : option Error) (c : Ctx) : Ctx :=
  let t := this c in
  set_this {| identity := identity t;
              snapshotPath := snapshotPath t;
              snapshotName := snapshotName t;
              lastError := e;
              isHooked := isHooked t;
              originalHooks := originalHooks t |} c.

Definition clearError (c : Ctx) : Ctx := set_lastError None c.

(** [error instanceof Error ? error : new Error(String(error))]. *)
Definition toError (t : Thrown) : Error :=
  match t with
  | ThrownError e => e
  | ThrownValue str => mkError str
  end.

(** A callback body run by a wrapper: it may change the hook and the
    world, and ends by returning or by throwing (a rejected promise is a
    throw at the [await]). *)
Definition HookFn (T : Type) : Type := Ctx -> Completion Thrown T * Ctx.

(** [safeHook]: the result is [Some r] for [return result], [None] for
    falling off the end of the [catch] block. *)
Definition safeHook {T : Type} (hookFn : HookFn T) (c : Ctx)
    : Completion Thrown (option T) * Ctx :=
  match hookFn c with
  | (Normal result, c1) => (Normal (Some result), c1)
  | (Throw error, c1) =>
      let err := toError error in
      let c2 := set_lastError (Some err) c1 in
      let c3 := ctx_log LError
                  ("Hook execution error in " +:+ snapshotName (this c2) +:+
                   ": " +:+ message err) c2 in
      (* Don't re-throw to avoid breaking agent execution *)
      (Normal None, c3)
  end.

(** The callbacks of a run, executed one after the other through
    [safeHook]: what each body did (its raw outcome), what the runtime
    got back from the wrapper, and the state at the end. *)
Fixpoint run_callbacks {T : Type} (fns : list (HookFn T)) (c : Ctx)
    : list (Completion Thrown T) * list (Completion Thrown (option T)) * Ctx :=
  match fns with
  | [] => ([], [], c)
  | f :: rest =>
      let raw := fst (f c) in
      let '(seen_by_runtime, c1) := safeHook f c in
      let '(raws, outs, c2) := run_callbacks rest c1 in
      (raw :: raws, seen_by_runtime :: outs, c2)
  end.

(** The failures among raw outcomes, in order of occurrence. *)
Fixpoint failures {T : Type} (raws : list (Completion Thrown T)) : list Error :=
  match raws with
  | [] => []
  | Normal _ :: rest => failures rest
  | Throw e :: rest => toError e :: failures rest
  end.

End HookBase.

(** ** The orchestrator ([agent-snapshot.ts]) *)

Module Snapshot.
Import Runtime.

(** *** Numbers, [parseInt], [split] and [sort], as [countLoops] uses them *)

(** A JavaScript number, as far as [parseInt] and one subtraction give
    them: [NaN], an infinity, or a finite double that is an integer, by
    its exact value.  ([-0] is not told from [0]: nothing in [countLoops]
    can tell them apart.) *)
Inductive Number : Type :=
| NaN
| Finite (z : Z)
| Infinite (negative : bool).

(** The double nearest to a natural number, ties to even: 53 significant
    bits are kept; [None] past the largest double. *)
Definition round_double (n : N) : option N :=
  let bits := N.size n in
  if (bits <=? 53)%N then Some n
  else
    let sh := (bits - 53)%N in
    let q := N.shiftr n sh in
    let r := N.land n (N.ones sh) in
    let half := N.shiftl 1 (sh - 1) in
    let q' := if (half <? r)%N || ((r =? half)%N && N.odd q)
              then (q + 1)%N else q in
    let v := N.shiftl q' sh in
    if (N.size v <=? 1024)%N then Some v else None.

(** The number value of a mathematical integer. *)
Definition toNumber (z : Z) : Number :=
  match z with
  | Z0 => Finite 0
  | Zpos p =>
      match round_double (Npos p) with
      | Some m => Finite (Z.of_N m)
      | None => Infinite false
      end
  | Zneg p =>
      match round_double (Npos p) with
      | Some m => Finite (- Z.of_N m)
      | None => Infinite true
      end
  end.

(** [a - b]. *)
Definition Number_sub (a b : Number) : Number :=
  match a, b with
  | NaN, _ | _, NaN => NaN
  | Finite x, Finite y => toNumber (x - y)
  | Finite _, Infinite negative => Infinite (negb negative)
  | Infinite negative, Finite _ => Infinite negative
  | Infinite n, Infinite m => if Bool.eqb n m then NaN else Infinite n
  end.

(** [!(v > 0)], for a [v] in which [NaN] stands for [+0]. *)
Definition Number_leb0 (v : Number) : bool :=
  match v with
  | NaN => true
  | Finite z => (z <=? 0)%Z
  | Infinite negative => negative
  end.

(** [a <= b]. *)
Definition Number_le (a b : Number) : Prop :=
  match a, b with
  | NaN, _ | _, NaN => False
  | Finite x, Finite y => (x <= y)%Z
  | Infinite true, _ => True
  | _, Infinite false => True
  | Infinite false, _ => False
  | _, Infinite true => False
  end.

(** A string stands for its sequence of code units, for strings whose
    code units are all below 256.  Of the white space and line terminators
    that [parseInt] skips, these are the ones in that range. *)
Definition is_space (c : ascii) : bool :=
  let n := nat_of_ascii c in
  ((9 <=? n)%nat && (n <=? 13)%nat) || (n =? 32)%nat || (n =? 160)%nat.

Fixpoint skip_spaces (s : string) : string :=
  match s with
  | String c s' => if is_space c then skip_spaces s' else s
  | EmptyString => s
  end.

Definition digit_of (c : ascii) : option Z :=
  let n := nat_of_ascii c in
  if (48 <=? n)%nat && (n <=? 57)%nat then Some (Z.of_nat (n - 48)) else None.

(** The longest prefix of decimal digits, as a mathematical integer;
    [acc] is [None] until a digit has been read. *)
Fixpoint digits (s : string) (acc : option Z) : option Z :=
  match s with
  | String c s' =>
      match digit_of c with
      | Some d => digits s' (Some (10 * default 0 acc + d))
      | None => acc
      end
  | EmptyString => acc
  end%Z.

(** [parseInt(s, 10)]: the digits read give a mathematical integer, and
    the result is its number value, so that integers beyond 2^53 are
    rounded.  (Past the 20th significant digit the language leaves the
    rounding to the engine; this is the correctly rounded value, which is
    what V8 returns.) *)
Definition parseInt (s : string) : Number :=
  let signed (negative : bool) (s' : string) : Number :=
    match digits s' None with
    | None => NaN
    | Some mathInt => toNumber (if negative then - mathInt else mathInt)%Z
    end in
  match skip_spaces s with
  | String "-" s' => signed true s'
  | String "+" s' => signed false s'
  | s' => signed false s'
  end.

(** [s.split(sep)] for a one-character separator: [cur] is the segment
    being read, reversed. *)
Fixpoint split_from (sep : ascii) (s : string) (cur : string) : list string :=
  match s with
  | EmptyString => [cur]
  | String c s' =>
      if Ascii.eqb c sep then cur :: split_from sep s' EmptyString
      else split_from sep s' (cur +:+ String c EmptyString)
  end.

Definition split (sep : ascii) (s : string) : list string :=
  split_from sep s EmptyString.

(** [parseInt(a.split('-')[1], 10)]: the number read from the segment
    between the first and the second ['-']; a missing segment is
    [undefined], which parses to [NaN]. *)
Definition loopNumber (a : string) : Number :=
  match split "-" a !! 1%nat with
  | Some segment => parseInt segment
  | None => NaN
  end.

(** The comparator given to [sort]: [numA - numB]. *)
Definition compareFn (a b : string) : Number :=
  Number_sub (loopNumber a) (loopNumber b).

(** [Array.prototype.sort] reads a [NaN] from the comparator as [+0]. *)
Definition sortCompare (a b : string) : Number :=
  match compareFn a b with
  | NaN => Finite 0
  | v => v
  end.

(** [Array.prototype.sort(cmp)] is stable: with a consistent comparator
    its result is the one this insertion sort computes.  (With an
    inconsistent one the order is up to the engine; [countLoops] only
    takes the length.) *)
Fixpoint insert_sorted {A : Type} (cmp : A -> A -> Number) (x : A) (l : list A)
    : list A :=
  match l with
  | [] => [x]
  | y :: ys =>
      if Number_leb0 (cmp x y) then x :: y :: ys else y :: insert_sorted cmp x ys
  end.

Fixpoint array_sort {A : Type} (cmp : A -> A -> Number) (l : list A) : list A :=
  match l with
  | [] => []
  | x :: xs => insert_sorted cmp x (array_sort cmp xs)
  end.

(** *** Options, configuration and results ([types.ts]) *)

Record VerificationOptions : Type := mkVerification {
  verifyLLMRequests : option bool;
  verifyEventStreams : option bool;
  verifyToolCalls : option bool
}.

Record AgentSnapshotOptions : Type := mkOptions {
  o_snapshotPath : string;
  o_snapshotName : option string;
  updateSnapshots : option bool;
  normalizerConfig : option Normalizer.AgentNormalizerConfig;
  verification : option VerificationOptions
}.

Record TestRunConfig : Type := mkTestRunConfig {
  c_updateSnapshots : option bool;
  c_timeout : option Z;
  c_normalizerConfig : option Normalizer.AgentNormalizerConfig;
  c_verification : option VerificationOptions
}.

(** The verification settings once merged. *)
Record Verification : Type := mkMerged {
  m_verifyLLMRequests : bool;
  m_verifyEventStreams : bool;
  m_verifyToolCalls : bool
}.

(** The options [test] gives to the replay hook's [setup]. *)
Record SetupOptions : Type := mkSetupOptions {
  s_updateSnapshots : bool;
  s_normalizerConfig : option Normalizer.AgentNormalizerConfig;
  s_verification : Verification
}.

(** The fields of an [AgentSnapshot] instance ([agent] is in the world;
    [snapshotPath] is the resolved path). *)
Record AgentSnapshot : Type := mkSnapshot {
  options : AgentSnapshotOptions;
  snapshotPath : string;
  snapshotName : string
}.

(** What [test] throws: the two errors it builds itself, or what a
    collaborator threw or a hook recorded, passed on unchanged. *)
Inductive TestError : Type :=
| SnapshotNotFound (path : string)
| LoopCountMismatch (executedLoops : Z) (loopCount : nat)
| Propagated (t : Thrown).

Definition show_Z (z : Z) : string :=
  match z with
  | Z0 => "0"
  | Zpos p => pretty (Pos.to_nat p)
  | Zneg p => "-" +:+ pretty (Pos.to_nat p)
  end.

Definition error_message (e : TestError) : string :=
  match e with
  | SnapshotNotFound path =>
      "Snapshot not found at " +:+ path +:+
      ". Generate it first using .generate()"
  | LoopCountMismatch executedLoops loopCount =>
      "Loop count mismatch: executed " +:+ show_Z executedLoops +:+
      " but snapshot has " +:+ pretty loopCount +:+ " loops"
  | Propagated (ThrownError e) => message e
  | Propagated (ThrownValue str) => str
  end.

(** [`${error}`]: the two errors of [test] are made by [new Error], an
    error passed on prints with its own name. *)
Definition error_string (e : TestError) : string :=
  match e with
  | Propagated (ThrownError e) => Error_toString e
  | Propagated (ThrownValue str) => str
  | _ => Error_toString (mkError (error_message e))
  end.

(** *** Reading the snapshot directory *)

(** [fs.statSync(path.join(snapshotPath, d)).isDirectory()] for a name
    [d] that [readdirSync] listed (names in a directory are unique). *)
Definition isDirectory_of (entries : list DirEntry) (d : string) : bool :=
  match List.find (fun e => String.eqb (name e) d) entries with
  | Some e => isDirectory e
  | None => false
  end.

(** The names that pass the [filter] of [countLoops], in the order
    [readdirSync] lists them. *)
Definition filtered (entries : list DirEntry) : list string :=
  List.filter (fun d => Str.startsWith "loop-" d && isDirectory_of entries d)
              (name <$> entries).

(** The array [loopDirs] of [countLoops], for a directory that exists. *)
Definition loopDirs (entries : list DirEntry) : list string :=
  array_sort sortCompare (filtered entries).

Definition countLoops (self : AgentSnapshot) (w : World) : nat :=
  match dir w with
  | None => 0
  | Some entries => List.length (loopDirs entries)
  end.

Definition existsSync (w : World) : bool :=
  match dir w with Some _ => true | None => false end.

Definition snapshotExists (self : AgentSnapshot) (w : World) : bool :=
  existsSync w && (0 <? countLoops self w)%nat.

Definition mergeVerificationSettings (self : AgentSnapshot)
    (configVerification : option VerificationOptions) : Verification := {|
  m_verifyLLMRequests :=
    default true
      (match configVerification ≫= verifyLLMRequests with
       | Some b => Some b
       | None => verification (options self) ≫= verifyLLMRequests
       end);
  m_verifyEventStreams :=
    default true
      (match configVerification ≫= verifyEventStreams with
       | Some b => Some b
       | None => verification (options self) ≫= verifyEventStreams
       end);
  m_verifyToolCalls :=
    default true
      (match configVerification ≫= verifyToolCalls with
       | Some b => Some b
       | None => verification (options self) ≫= verifyToolCalls
       end)
|}.

(** The order of two names by the numbers parsed from them. *)
Definition loop_le (a b : string) : Prop :=
  Number_le (loopNumber a) (loopNumber b).

(** *** [test] *)

Section Test.

(** The collaborators [test] calls and this package does not define:
    the runtime ([run], [getEventStream().getEvents()],
    [getCurrentLoopIteration]), the replay hook's [setup] and
    [getMockLLMClient], the snapshot manager's cleanup, and the clock.
    Each may change the hook and the world, and may throw. *)
Context {Input Response Events : Type}.
Variable Date_now : World -> Z.
Variable hook_setup :
  string -> nat -> SetupOptions -> HookBase.Ctx ->
  Completion Thrown unit * HookBase.Ctx.
Variable getMockLLMClient : HookBase.Ctx -> option nat.
Variable agent_run :
  Input -> HookBase.Ctx -> Completion Thrown Response * HookBase.Ctx.
Variable getEvents : HookBase.Ctx -> Events.
Variable getCurrentLoopIteration : HookBase.Ctx -> Z.
Variable cleanupAllActualFiles :
  string -> HookBase.Ctx -> Completion Thrown unit * HookBase.Ctx.

Record TestMeta : Type := mkMeta {
  meta_snapshotName : string;
  executionTime : Z;
  meta_loopCount : Z
}.

Record SnapshotTestResult : Type := mkResult {
  response : Response;
  events : Events;
  meta : TestMeta
}.

(** [config?.updateSnapshots ?? this.options.updateSnapshots ?? false]. *)
Definition effective_updateSnapshots (self : AgentSnapshot)
    (config : option TestRunConfig) : bool :=
  default false
    (match config ≫= c_updateSnapshots with
     | Some b => Some b
     | None => updateSnapshots (options self)
     end).

Definition setup_options (self : AgentSnapshot)
    (config : option TestRunConfig) : SetupOptions := {|
  s_updateSnapshots := effective_updateSnapshots self config;
  s_normalizerConfig :=
    match config ≫= c_normalizerConfig with
    | Some n => Some n
    | None => normalizerConfig (options self)
    end;
  s_verification :=
    mergeVerificationSettings self (config ≫= c_verification)
|}.

(** [this.agent.setCustomLLMClient(mockLLMClient!); this.agent._setIsReplay()]. *)
Definition enter_replay (mock : option nat) (c : HookBase.Ctx) : HookBase.Ctx :=
  let a := agent (HookBase.world c) in
  HookBase.set_world
    (set_agent {| callbacks := callbacks a;
                  customLLMClient := mock;
                  isReplay := true |} (HookBase.world c)) c.

(** What [test] does from its first line to the construction of the
    replay hook, when the snapshot exists. *)
Definition test_prologue (self : AgentSnapshot)
    (config : option TestRunConfig) (w : World) : HookBase.Ctx :=
  let w := logger LInfo ("Testing against snapshot: " +:+ snapshotName self) w in
  let w := if effective_updateSnapshots self config
           then logger LWarn
                  "Update mode enabled - snapshots will be updated instead of verified" w
           else w in
  let loopCount := countLoops self w in
  let w := logger LInfo ("Found " +:+ pretty loopCount +:+ " loops in snapshot") w in
  HookBase.new_hook
    {| HookBase.o_snapshotPath := snapshotPath self;
       HookBase.o_snapshotName := snapshotName self |} w.

(** The [try] block of [test]. *)
Definition test_try (self : AgentSnapshot) (input : Input)
    (config : option TestRunConfig) (startTime : Z) (loopCount : nat)
    (c : HookBase.Ctx)
    : Completion TestError SnapshotTestResult * HookBase.Ctx :=
  match hook_setup (snapshotPath self) loopCount (setup_options self config) c with
  | (Throw e, c1) => (Throw (Propagated e), c1)
  | (Normal _, c1) =>
  match HookBase.getLastError c1 with
  | Some e => (Throw (Propagated (ThrownError e)), c1)
  | None =>
  (* Set mock LLM client and replay mode *)
  let c2 := enter_replay (getMockLLMClient c1) c1 in
  match agent_run input c2 with
  | (Throw e, c3) => (Throw (Propagated e), c3)
  | (Normal resp, c3) =>
  match HookBase.getLastError c3 with
  | Some e => (Throw (Propagated (ThrownError e)), c3)
  | None =>
  let evs := getEvents c3 in
  let executedLoops := getCurrentLoopIteration c3 in
  (* Verify loop count consistency *)
  if negb (executedLoops =? Z.of_nat loopCount)%Z then
    (Throw (LoopCountMismatch executedLoops loopCount), c3)
  else
  (* Cleanup temporary files *)
  match cleanupAllActualFiles (snapshotName self) c3 with
  | (Throw e, c4) => (Throw (Propagated e), c4)
  | (Normal _, c4) =>
  let c5 := HookBase.ctx_log LSuccess "Test completed successfully" c4 in
  (Normal {| response := resp;
             events := evs;
             meta := {| meta_snapshotName := snapshotName self;
                        executionTime := (Date_now (HookBase.world c5) - startTime)%Z;
                        meta_loopCount := executedLoops |} |}, c5)
  end end end end end.

Definition test (self : AgentSnapshot) (input : Input)
    (config : option TestRunConfig) (w : World)
    : Completion TestError SnapshotTestResult * World :=
  let w0 := logger LInfo ("Testing against snapshot: " +:+ snapshotName self) w in
  if negb (snapshotExists self w0) then
    (Throw (SnapshotNotFound (snapshotPath self)), w0)
  else
    let startTime := Date_now w0 in
    let c := test_prologue self config w in
    let '(r, c) := test_try self input config startTime (countLoops self w) c in
    (* catch (error) { logger.error(...); throw error } *)
    let c := match r with
             | Throw e => HookBase.ctx_log LError ("Test failed: " +:+ error_string e) c
             | Normal _ => c
             end in
    (* finally { hook.unhookAgent() } *)
    let c := HookBase.unhookAgent c in
    (r, HookBase.world c).

End Test.

End Snapshot.

(** ** The comparator ([compare] and [generateSimpleDiff]) *)

Module Comparator.
Import Normalizer.

Record ComparisonResult : Type := mkComparison {
  equal : bool;
  diff : option string                 (* [None]: [null] *)
}.

Definition newline : ascii := ascii_of_nat 10.

(** [s.split('\n')]. *)
Definition splitLines (s : string) : list string := Snapshot.split newline s.

(** [lines.join('\n')]. *)
Fixpoint joinLines (ls : list string) : string :=
  match ls with
  | [] => ""
  | [l] => l
  | l :: rest => l +:+ String newline (joinLines rest)
  end.

Definition nonempty (s : string) : bool :=
  match s with EmptyString => false | _ => true end.

(** [lines[i] || '']: a missing line and an empty one read the same. *)
Definition lineAt (ls : list string) (i : nat) : string := nth i ls "".

(** The body of the loop of [generateSimpleDiff], for one index. *)
Definition diffAt (expectedLine actualLine : string) : list string :=
  if String.eqb expectedLine actualLine then []
  else
    ((if nonempty expectedLine then ["- " +:+ expectedLine] else []) ++
     (if nonempty actualLine then ["+ " +:+ actualLine] else []))%list.

(** The array [diffLines] when the loop is over. *)
Definition diffLines (expected actual : string) : list string :=
  let expectedLines := splitLines expected in
  let actualLines := splitLines actual in
  let maxLines := Nat.max (List.length expectedLines) (List.length actualLines) in
  (["Expected vs Actual:"; ""] ++
   flat_map (fun i => diffAt (lineAt expectedLines i) (lineAt actualLines i))
            (seq 0 maxLines))%list.

Definition generateSimpleDiff (expected actual : string) : string :=
  joinLines (diffLines expected actual).

(** What [undefined.split] throws. *)
Definition splitOfUndefined : Runtime.Thrown :=
  Runtime.ThrownError
    {| Runtime.error_name := "TypeError";
       Runtime.message := "Cannot read properties of undefined (reading 'split')" |}.

Section Compare.

(** The two serialisers [compare] calls and this package does not define:
    [fast-json-stable-stringify] and [JSON.stringify(_, null, 2)].  Each
    gives a string or [undefined] ([None]), or throws; each reads the heap
    for the leaves that are references. *)
Variable stringify : Heap -> Out -> Runtime.Completion Runtime.Thrown (option string).
Variable JSON_stringify : Heap -> Out -> Runtime.Completion Runtime.Thrown (option string).

(** What [compare] does with the two normalized values. *)
Definition compareNormalized (h : Heap) (normalizedExpected normalizedActual : Out)
    : Runtime.Completion Runtime.Thrown ComparisonResult :=
  match stringify h normalizedExpected with
  | Runtime.Throw e => Runtime.Throw e
  | Runtime.Normal expectedString =>
  match stringify h normalizedActual with
  | Runtime.Throw e => Runtime.Throw e
  | Runtime.Normal actualString =>
  if bool_decide (expectedString = actualString) then
    Runtime.Normal {| equal := true; diff := None |}
  else
    (* Generate simple diff *)
    match JSON_stringify h normalizedExpected with
    | Runtime.Throw e => Runtime.Throw e
    | Runtime.Normal prettyExpected =>
    match JSON_stringify h normalizedActual with
    | Runtime.Throw e => Runtime.Throw e
    | Runtime.Normal prettyActual =>
    match prettyExpected, prettyActual with
    | Some e, Some a =>
        Runtime.Normal {| equal := false; diff := Some (generateSimpleDiff e a) |}
    | _, _ => Runtime.Throw splitOfUndefined
    end end end
  end end.

(** [compare(expected, actual)] on an instance whose [seenObjects] is
    [seen]; [None] when the fuel of a [normalize] is exhausted. *)
Definition compare (fuel : nat) (h : Heap) (cfg : Config)
    (expected actual : Value) (seen : gset loc)
    : option (Runtime.Completion Runtime.Thrown ComparisonResult * gset loc) :=
  match normalize fuel h cfg expected seen with
  | None => None
  | Some (normalizedExpected, seen1) =>
      match normalize fuel h cfg actual seen1 with
      | None => None
      | Some (normalizedActual, seen2) =>
          Some (compareNormalized h normalizedExpected normalizedActual, seen2)
      end
  end.

End Compare.

(** *** Statements about the shape of a result *)





(** A rule with a replacement decides the field: no custom normalizer
    matches it, and the first rule that does has a replacement. *)
Definition masked (cfg : Config) (key path : string) : Prop :=
  firstMatchingCustom (customNormalizers cfg) key path = None
  /\ exists r, firstMatchingRule (fieldsToNormalize cfg) key path = Some r
               /\ is_undefined (replacement r) = false.

(** Two lists of entries with the same keys in the same order, whose
    values are the same primitive wherever the field is not masked. *)
Definition same_up_to_masked (cfg : Config) (path : string)
    (es1 es2 : list (string * Value)) : Prop :=
  Forall2 (fun e1 e2 =>
             fst e1 = fst e2
             /\ (masked cfg (fst e1) (currentPath path (fst e1))
                 \/ (snd e1 = snd e2 /\ is_ref (snd e1) = false)))
          es1 es2.

End Comparator.

(** ** More of the hook base class: [writeStreamingChunks] *)

Module Streaming.
Import Runtime HookBase.

Section Chunks.

(** A streaming chunk, its serialisation by [JSON.stringify] (which may
    throw) and [fs.writeFileSync] (which may throw as well). *)
Context {Chunk : Type}.
Variable JSON_stringify : Chunk -> Completion Thrown string.
Variable writeFileSync : string -> string -> World -> Completion Thrown unit * World.

(** [chunks.map(chunk => JSON.stringify(chunk))]. *)
Fixpoint stringifyAll (chunks : list Chunk) : Completion Thrown (list string) :=
  match chunks with
  | [] => Normal []
  | chunk :: rest =>
      match JSON_stringify chunk with
      | Throw e => Throw e
      | Normal str =>
          match stringifyAll rest with
          | Throw e => Throw e
          | Normal strs => Normal (str :: strs)
          end
      end
  end.

(** [writeStreamingChunks(filePath, chunks)]; an absent array is [None]. *)
Definition writeStreamingChunks (filePath : string) (chunks : option (list Chunk))
    (c : Ctx) : Completion Thrown unit * Ctx :=
  match chunks with
  | None | Some [] => (Normal tt, c)               (* [!chunks?.length] *)
  | Some chunks =>
      let attempt :=
        match stringifyAll chunks with
        | Throw e => (Throw e, world c)
        | Normal strs => writeFileSync filePath (Comparator.joinLines strs) (world c)
        end in
      match attempt with
      | (Normal _, w1) =>
          (Normal tt,
           ctx_log LDebug
             ("Wrote " +:+ pretty (List.length chunks) +:+ " streaming chunks to "
              +:+ filePath) (set_world w1 c))
      | (Throw error, w1) =>
          let err := toError error in
          let c1 := ctx_log LError
                      ("Failed to write streaming chunks: " +:+ message err)
                      (set_world w1 c) in
          (Normal tt, set_lastError (Some err) c1)
      end
  end.

End Chunks.

End Streaming.

(** ** More of the orchestrator: the constructor, [generate], [getSnapshotInfo] *)

Module Orchestrator.
Import Runtime.

Section Constructor.

(** [path.resolve] and [path.basename]. *)
Variable path_resolve : string -> string.
Variable path_basename : string -> string.

(** [new AgentSnapshot(agent, options)]: the fields, and the directory
    made sure of.  (The snapshot manager built along is not modelled.) *)
Definition new_AgentSnapshot (options : Snapshot.AgentSnapshotOptions) (w : World)
    : Snapshot.AgentSnapshot * World :=
  let snapshotPath := path_resolve (Snapshot.o_snapshotPath options) in
  ({| Snapshot.options := options;
      Snapshot.snapshotPath := snapshotPath;
      Snapshot.snapshotName :=
        default (path_basename snapshotPath) (Snapshot.o_snapshotName options) |},
   ensureSnapshotDirectory w).

End Constructor.

Record SnapshotInfo : Type := mkInfo {
  info_exists : bool;
  info_loopCount : nat;
  info_path : string
}.

Definition getSnapshotInfo (self : Snapshot.AgentSnapshot) (w : World) : SnapshotInfo :=
  {| info_exists := Snapshot.snapshotExists self w;
     info_loopCount := Snapshot.countLoops self w;
     info_path := Snapshot.snapshotPath self |}.

(** [`${error}`] for a thrown value. *)
Definition thrown_string (t : Thrown) : string :=
  match t with
  | ThrownError e => Error_toString e
  | ThrownValue str => str
  end.

Section Generate.

(** The collaborators of [generate]: the runtime and the clock. *)
Context {Input Response Events : Type}.
Variable Date_now : World -> Z.
Variable agent_run :
  Input -> HookBase.Ctx -> Completion Thrown Response * HookBase.Ctx.
Variable getEvents : HookBase.Ctx -> Events.

Record GenerationMeta : Type := mkGenerationMeta {
  g_snapshotName : string;
  g_executionTime : Z
}.

Record SnapshotGenerationResult : Type := mkGeneration {
  g_snapshotPath : string;
  g_loopCount : nat;
  g_response : Response;
  g_events : Events;
  g_meta : GenerationMeta
}.

(** The hook of [generate] once installed: the state at the call of
    [this.agent.run]. *)
Definition generate_prologue (self : Snapshot.AgentSnapshot) (w : World)
    : HookBase.Ctx :=
  let w := logger LInfo ("Generating snapshot: " +:+ Snapshot.snapshotName self) w in
  HookBase.hookAgent
    (HookBase.new_hook
       {| HookBase.o_snapshotPath := Snapshot.snapshotPath self;
          HookBase.o_snapshotName := Snapshot.snapshotName self |} w).

(** The [try] block of [generate], from the call of [run] on. *)
Definition generate_try (self : Snapshot.AgentSnapshot) (input : Input)
    (startTime : Z) (c : HookBase.Ctx)
    : Completion Thrown SnapshotGenerationResult * HookBase.Ctx :=
  match agent_run input c with
  | (Throw e, c1) => (Throw e, c1)
  | (Normal resp, c1) =>
  match HookBase.getLastError c1 with
  | Some e => (Throw (ThrownError e), c1)
  | None =>
  let evs := getEvents c1 in
  let loopCount := Snapshot.countLoops self (HookBase.world c1) in
  let c2 := HookBase.ctx_log LSuccess
              ("Snapshot generated successfully with " +:+ pretty loopCount
               +:+ " loops") c1 in
  (Normal {| g_snapshotPath := Snapshot.snapshotPath self;
             g_loopCount := loopCount;
             g_response := resp;
             g_events := evs;
             g_meta := {| g_snapshotName := Snapshot.snapshotName self;
                          g_executionTime :=
                            (Date_now (HookBase.world c2) - startTime)%Z |} |}, c2)
  end end.

Definition generate (self : Snapshot.AgentSnapshot) (input : Input) (w : World)
    : Completion Thrown SnapshotGenerationResult * World :=
  let startTime :=
    Date_now (logger LInfo ("Generating snapshot: " +:+ Snapshot.snapshotName self) w) in
  let '(r, c) := generate_try self input startTime (generate_prologue self w) in
  (* catch (error) { logger.error(...); throw error } *)
  let c := match r with
           | Throw e =>
               HookBase.ctx_log LError
                 ("Snapshot generation failed: " +:+ thrown_string e) c
           | Normal _ => c
           end in
  (* finally { hook.unhookAgent() } *)
  (r, HookBase.world (HookBase.unhookAgent c)).

End Generate.

(** A collaborator that leaves alone what is private to the hook
    ([isHooked], [originalHooks]). *)
Definition keeps_private {A : Type}
    (f : HookBase.Ctx -> Completion Thrown A * HookBase.Ctx) : Prop :=
  forall c,
    HookBase.isHooked (HookBase.this (snd (f c))) = HookBase.isHooked (HookBase.this c)
    /\ HookBase.originalHooks (HookBase.this (snd (f c)))
       = HookBase.originalHooks (HookBase.this c).

(** A collaborator that does not take the agent out of replay mode. *)
Definition keeps_replay {A : Type}
    (f : HookBase.Ctx -> Completion Thrown A * HookBase.Ctx) : Prop :=
  forall c,
    isReplay (agent (HookBase.world c)) = true ->
    isReplay (agent (HookBase.world (snd (f c)))) = true.

End Orchestrator.

(** ** The names of loop directories *)

Module LoopNames.

(** The name of the directory of loop [n]. *)
Definition loopName (n : N) : string := "loop-" +:+ pretty n.

(** A string of decimal digits. *)
Fixpoint digits_only (s : string) : bool :=
  match s with
  | EmptyString => true
  | String c s' =>
      match Snapshot.digit_of c with Some _ => digits_only s' | None => false end
  end.

(** What the filter of [countLoops] tests on an entry. *)
Definition isLoopDir (e : Runtime.DirEntry) : bool :=
  Str.startsWith "loop-" (Runtime.name e) && Runtime.isDirectory e.

End LoopNames.

(** ** The batch runner ([agent-snapshot-runner.ts]) *)

Module Runner.
Import Runtime.

Record SnapshotCaseConfig : Type := mkCase {
  case_name : string;
  case_path : string;
  case_snapshotPath : string;
  vitestSnapshotPath : option string
}.

(** What the runner throws: the two errors it builds itself, or what
    [snapshot.test] or [snapshot.generate] threw, passed on unchanged. *)
Inductive RunnerError : Type :=
| CaseNotFound (name : string) (available : list string)
| LoadFailed (path : string) (cause : string)
| FromTest (e : Snapshot.TestError)
| FromGenerate (t : Thrown).

(** The double quote, as a string. *)
Definition quote : string := String (ascii_of_nat 34) EmptyString.

(** [names.join(', ')]. *)
Fixpoint joinComma (names : list string) : string :=
  match names with
  | [] => ""
  | [n] => n
  | n :: rest => n +:+ ", " +:+ joinComma rest
  end.

Definition runner_error_message (e : RunnerError) : string :=
  match e with
  | CaseNotFound name available =>
      "Case " +:+ quote +:+ name +:+ quote +:+ " not found. Available cases: "
      +:+ joinComma available
  | LoadFailed path cause =>
      "Failed to load case module " +:+ quote +:+ path +:+ quote +:+ ": " +:+ cause
  | FromTest e => Snapshot.error_message e
  | FromGenerate (ThrownError e) => message e
  | FromGenerate (ThrownValue str) => str
  end.

(** [`${error}`]. *)
Definition runner_error_string (e : RunnerError) : string :=
  match e with
  | FromTest e => Snapshot.error_string e
  | FromGenerate t => Orchestrator.thrown_string t
  | _ => Error_toString (mkError (runner_error_message e))
  end.

Definition invalidCaseModule : string :=
  "Error: Invalid case module: must export 'agent' and 'runOptions' (either as named exports or default export)".

(** [this.cases.find(c => c.name === name)]. *)
Definition getCase (cases : list SnapshotCaseConfig) (name : string)
    : option SnapshotCaseConfig :=
  List.find (fun c => String.eqb (case_name c) name) cases.

Definition listCases (cases : list SnapshotCaseConfig) : list SnapshotCaseConfig :=
  cases.

Definition findCase (cases : list SnapshotCaseConfig) (name : string)
    : Completion RunnerError SnapshotCaseConfig :=
  match getCase cases name with
  | Some caseConfig => Normal caseConfig
  | None => Throw (CaseNotFound name (case_name <$> cases))
  end.

(** The lines [printUsage] prints. *)
Definition printUsage (cases : list SnapshotCaseConfig) : list string :=
  ["Usage: runner [command] [case-name] [options]";
   "";
   "Commands:";
   "  generate [case-name|all]  Generate snapshots";
   "  test [case-name|all]      Test against snapshots";
   "";
   "Options:";
   "  -u, --updateSnapshot      Update snapshots during testing";
   "";
   "Available cases:"]
  ++ ((fun c => "  - " +:+ case_name c) <$> cases)
  ++ ["  - all (all cases)"].

Section WithCollaborators.

(** The collaborators: those of [test] and [generate], the two functions
    of [path], the dynamic [import] of a case module, and the truth value
    of a [runOptions] (a string input is falsy when empty).  The world
    holds one agent and one snapshot directory: each case's agent takes
    the place of the one before, and the cases of a run are taken to share
    their directory. *)
Context {Input Response Events : Type}.
Variable Date_now : World -> Z.
Variable hook_setup :
  string -> nat -> Snapshot.SetupOptions -> HookBase.Ctx ->
  Completion Thrown unit * HookBase.Ctx.
Variable getMockLLMClient : HookBase.Ctx -> option nat.
Variable agent_run :
  Input -> HookBase.Ctx -> Completion Thrown Response * HookBase.Ctx.
Variable getEvents : HookBase.Ctx -> Events.
Variable getCurrentLoopIteration : HookBase.Ctx -> Z.
Variable cleanupAllActualFiles :
  string -> HookBase.Ctx -> Completion Thrown unit * HookBase.Ctx.
Variable path_resolve : string -> string.
Variable path_basename : string -> string.

(** The exports of a module that matter: [agent] and [runOptions], each
    possibly [undefined]. *)
Record Exports : Type := mkExports {
  e_agent : option Agent;
  e_runOptions : option Input
}.

Record ImportedModule : Type := mkModule {
  m_default : option Exports;          (* [importedModule.default] *)
  m_named : Exports
}.

Variable import_module : string -> World -> Completion Thrown ImportedModule * World.
Variable truthy : Input -> bool.

(** [exports.agent && exports.runOptions], as the pair when it is truthy. *)
Definition validCase (exports : Exports) : option (Agent * Input) :=
  match e_agent exports, e_runOptions exports with
  | Some a, Some r => if truthy r then Some (a, r) else None
  | _, _ => None
  end.

Definition loadSnapshotCase (caseConfig : SnapshotCaseConfig) (w : World)
    : Completion RunnerError (Agent * Input) * World :=
  match import_module (case_path caseConfig) w with
  | (Throw e, w1) =>
      (Throw (LoadFailed (case_path caseConfig) (Orchestrator.thrown_string e)), w1)
  | (Normal importedModule, w1) =>
      (* Try default export first *)
      match m_default importedModule ≫= validCase with
      | Some c => (Normal c, w1)
      | None =>
          (* Try named exports *)
          match validCase (m_named importedModule) with
          | Some c => (Normal c, w1)
          | None => (Throw (LoadFailed (case_path caseConfig) invalidCaseModule), w1)
          end
      end
  end.

Definition caseOptions (caseConfig : SnapshotCaseConfig) (updateSnapshots : bool)
    : Snapshot.AgentSnapshotOptions :=
  {| Snapshot.o_snapshotPath := case_snapshotPath caseConfig;
     Snapshot.o_snapshotName := None;
     Snapshot.updateSnapshots := Some updateSnapshots;
     Snapshot.normalizerConfig := None;
     Snapshot.verification := None |}.

Definition generateSnapshot (caseConfig : SnapshotCaseConfig) (w : World)
    : Completion RunnerError unit * World :=
  let w := logger LInfo ("Generating snapshot: " +:+ case_name caseConfig) w in
  match loadSnapshotCase caseConfig w with
  | (Throw e, w1) => (Throw e, w1)
  | (Normal (a, runOptions), w1) =>
      let '(snapshot, w2) :=
        Orchestrator.new_AgentSnapshot path_resolve path_basename
          (caseOptions caseConfig true) (set_agent a w1) in
      match Orchestrator.generate Date_now agent_run getEvents snapshot runOptions w2 with
      | (Throw e, w3) => (Throw (FromGenerate e), w3)
      | (Normal _, w3) =>
          (Normal tt,
           logger LSuccess
             ("Snapshot generated: " +:+ case_snapshotPath caseConfig) w3)
      end
  end.

Definition testSnapshot (caseConfig : SnapshotCaseConfig) (updateSnapshots : bool)
    (w : World)
    : Completion RunnerError (@Snapshot.SnapshotTestResult Response Events) * World :=
  let w := logger LInfo ("Testing snapshot: " +:+ case_name caseConfig) w in
  let w := if updateSnapshots
           then logger LWarn
                  "Update mode: snapshots will be updated instead of verified" w
           else w in
  match loadSnapshotCase caseConfig w with
  | (Throw e, w1) => (Throw e, w1)
  | (Normal (a, runOptions), w1) =>
      let '(snapshot, w2) :=
        Orchestrator.new_AgentSnapshot path_resolve path_basename
          (caseOptions caseConfig updateSnapshots) (set_agent a w1) in
      match Snapshot.test Date_now hook_setup getMockLLMClient agent_run getEvents
              getCurrentLoopIteration cleanupAllActualFiles
              snapshot runOptions None w2 with
      | (Throw e, w3) => (Throw (FromTest e), w3)
      | (Normal result, w3) =>
          (Normal result,
           logger LSuccess ("Test passed: " +:+ case_name caseConfig) w3)
      end
  end.

(** The loop of [generateAll]. *)
Fixpoint generateEach (cases : list SnapshotCaseConfig) (w : World)
    : Completion RunnerError unit * World :=
  match cases with
  | [] => (Normal tt, w)
  | caseConfig :: rest =>
      match generateSnapshot caseConfig w with
      | (Throw e, w1) =>
          (Throw e,
           logger LError
             ("Failed to generate snapshot for " +:+ case_name caseConfig +:+ ": "
              +:+ runner_error_string e) w1)
      | (Normal _, w1) => generateEach rest w1
      end
  end.

Definition generateAll (cases : list SnapshotCaseConfig) (w : World)
    : Completion RunnerError unit * World :=
  let w := logger LInfo
             ("Generating snapshots for " +:+ pretty (List.length cases) +:+ " cases") w in
  match generateEach cases w with
  | (Throw e, w1) => (Throw e, w1)
  | (Normal _, w1) => (Normal tt, logger LSuccess "All snapshots generated successfully" w1)
  end.

(** The object [results] of [testAll], by its own properties. *)
Abbreviation Results := (gmap string (@Snapshot.SnapshotTestResult Response Events)).

(** [results[name] = result] on an object made by [{}]: an own property,
    except for the name [__proto__], which sets the prototype of
    [results] and makes no property. *)
Definition set_result (name : string)
    (result : @Snapshot.SnapshotTestResult Response Events) (results : Results)
    : Results :=
  if String.eqb name "__proto__" then results else <[name := result]> results.

(** The loop of [testAll]. *)
Fixpoint testEach (cases : list SnapshotCaseConfig) (updateSnapshots : bool)
    (w : World) (results : Results) : Completion RunnerError Results * World :=
  match cases with
  | [] => (Normal results, w)
  | caseConfig :: rest =>
      match testSnapshot caseConfig updateSnapshots w with
      | (Throw e, w1) =>
          (Throw e,
           logger LError
             ("Test failed for " +:+ case_name caseConfig +:+ ": "
              +:+ runner_error_string e) w1)
      | (Normal result, w1) =>
          testEach rest updateSnapshots w1
            (set_result (case_name caseConfig) result results)
      end
  end.

Definition testAll (cases : list SnapshotCaseConfig) (updateSnapshots : bool) (w : World)
    : Completion RunnerError Results * World :=
  let w := logger LInfo
             ("Testing " +:+ pretty (List.length cases) +:+ " snapshots") w in
  match testEach cases updateSnapshots w ∅ with
  | (Throw e, w1) => (Throw e, w1)
  | (Normal results, w1) => (Normal results, logger LSuccess "All tests passed" w1)
  end.

(** [!caseName] for an optional string. *)
Definition absent (caseName : option string) : bool :=
  match caseName with
  | None => true
  | Some s => String.eqb s ""
  end.

Definition handleGenerateCommand (cases : list SnapshotCaseConfig)
    (caseName : option string) (w : World) : Completion RunnerError unit * World :=
  if absent caseName then generateAll cases w
  else if bool_decide (caseName = Some "all") then generateAll cases w
  else
    match findCase cases (default "" caseName) with
    | Throw e => (Throw e, w)
    | Normal caseConfig => generateSnapshot caseConfig w
    end.

Definition handleTestCommand (cases : list SnapshotCaseConfig)
    (caseName : option string) (updateSnapshots : bool) (w : World)
    : Completion RunnerError unit * World :=
  if absent caseName || bool_decide (caseName = Some "all") then
    match testAll cases updateSnapshots w with
    | (Throw e, w1) => (Throw e, w1)
    | (Normal _, w1) => (Normal tt, w1)
    end
  else
    match findCase cases (default "" caseName) with
    | Throw e => (Throw e, w)
    | Normal caseConfig =>
        match testSnapshot caseConfig updateSnapshots w with
        | (Throw e, w1) => (Throw e, w1)
        | (Normal _, w1) => (Normal tt, w1)
        end
    end.

(** How [cli] ends: it returns, having printed some lines, or the process
    exits with a code. *)
Inductive CliOutcome : Type :=
| Returned (printed : list string)
| Exited (code : nat).

(** [cli()], with [args] for [process.argv.slice(2)]. *)
Definition cli (cases : list SnapshotCaseConfig) (args : list string) (w : World)
    : CliOutcome * World :=
  let command := args !! 0%nat in
  let caseName := args !! 1%nat in
  let flags := drop 2 args in
  let updateSnapshots :=
    bool_decide ("-u" ∈ flags) || bool_decide ("--updateSnapshot" ∈ flags) in
  let w := if updateSnapshots then logger LInfo "Update snapshots mode enabled" w
           else w in
  let failed (e : RunnerError) (w1 : World) :=
    (Exited 1, logger LError ("Command failed: " +:+ runner_error_string e) w1) in
  match command with
  | Some "generate" =>
      match handleGenerateCommand cases caseName w with
      | (Throw e, w1) => failed e w1
      | (Normal _, w1) => (Returned [], w1)
      end
  | Some "test" | Some "replay" =>
      match handleTestCommand cases caseName updateSnapshots w with
      | (Throw e, w1) => failed e w1
      | (Normal _, w1) => (Returned [], w1)
      end
  | _ => (Returned (printUsage cases), w)
  end.

End WithCollaborators.

End Runner.

(** * Inputs and statements *)

Import Runtime.

(** ** Inputs used in examples *)

Module Scenario.
Import Normalizer.

(** [{sessionId: "abc123", value: 5}] at location 1. *)
Definition session_heap : Heap :=
  {[ 1%nat := HObject [("sessionId", VStr "abc123"); ("value", VNum 5)] ]}.

(** A caller's configuration: a rule of its own for the key [sessionId],
    a rule for [data] that has no replacement, and a later rule for [data]
    that has one. *)
Definition caller_config : AgentNormalizerConfig :=
  {| u_fieldsToNormalize :=
       Some [ mkRule (PatString "sessionId") (VStr "MINE") false;
              mkRule (PatRegExp (Str.test_contains_i "data")) VUndefined false;
              mkRule (PatString "data") (VStr "LATER") false ];
     u_fieldsToIgnore := None;
     u_customNormalizers := None |}.

(** [{data: {n: 1}}] at location 1, the inner object at location 2. *)
Definition data_heap : Heap :=
  {[ 1%nat := HObject [("data", VRef 2%nat)];
     2%nat := HObject [("n", VNum 1)] ]}.

(** An object that holds itself under the empty key: [a[''] = a]. *)
Definition empty_key_cycle : Heap :=
  {[ 1%nat := HObject [("", VRef 1%nat)] ]}.

(** An object that holds itself under a name: [a.self = a]. *)
Definition named_cycle : Heap :=
  {[ 1%nat := HObject [("self", VRef 1%nat)] ]}.

(** [{a: s, '': s}] with [s = {n: 1}]: [s] is met twice. *)
Definition shared_after_empty_key : Heap :=
  {[ 1%nat := HObject [("a", VRef 2%nat); ("", VRef 2%nat)];
     2%nat := HObject [("n", VNum 1)] ]}.

(** [{items: [{createdAt: 7, tags: ["x"]}], requestId: "r1"}]. *)
Definition nested_heap : Heap :=
  {[ 1%nat := HObject [("items", VRef 2%nat); ("requestId", VStr "r1")];
     2%nat := HArray [VRef 3%nat];
     3%nat := HObject [("createdAt", VNum 7); ("tags", VRef 4%nat)];
     4%nat := HArray [VStr "x"] ]}.

Definition some_hooks : Hooks := {|
  onLLMRequest := Some (Native 1);
  onLLMResponse := None;
  onLLMStreamingResponse := Some (Native 3);
  onAgentLoopEnd := None;
  onEachAgentLoopStart := None;
  onBeforeToolCall := Some (Native 6);
  onAfterToolCall := None;
  onToolCallError := None;
  onProcessToolCalls := None
|}.

Definition some_agent : Agent :=
  {| callbacks := some_hooks; customLLMClient := None; isReplay := false |}.

Definition empty_world : World :=
  {| agent := some_agent; dir := Some []; log := []; hooksCreated := 0 |}.

(** A hook just constructed. *)
Definition fresh_ctx : HookBase.Ctx :=
  HookBase.new_hook
    {| HookBase.o_snapshotPath := "/snap"; HookBase.o_snapshotName := "snap" |}
    empty_world.

(** A callback body that throws [new Error(msg)] and one that returns. *)
Definition throwing (msg : string) : HookBase.HookFn unit :=
  fun c => (Throw (ThrownError (mkError msg)), c).
Definition returning : HookBase.HookFn unit :=
  fun c => (Normal tt, c).
(** A callback body that calls [clearError] and returns. *)
Definition clearing : HookBase.HookFn unit :=
  fun c => (Normal tt, HookBase.clearError c).


(** A directory listed in string order. *)
Definition ten_loops : list DirEntry :=
  [ mkEntry "loop-1" true; mkEntry "loop-10" true; mkEntry "loop-2" true;
    mkEntry "loop-3.txt" false; mkEntry "notes" true ].


(** A snapshot directory holding three recorded loops. *)
Definition three_loops : list DirEntry :=
  [ mkEntry "event-stream.jsonl" false;
    mkEntry "loop-1" true; mkEntry "loop-2" true; mkEntry "loop-3" true ].

Definition recorded_world : World :=
  {| agent := some_agent; dir := Some three_loops; log := []; hooksCreated := 0 |}.

(** An orchestrator whose options turn update mode on. *)
Definition updating_snapshot : Snapshot.AgentSnapshot :=
  {| Snapshot.options :=
       {| Snapshot.o_snapshotPath := "/snap";
          Snapshot.o_snapshotName := None;
          Snapshot.updateSnapshots := Some true;
          Snapshot.normalizerConfig := None;
          Snapshot.verification := None |};
     Snapshot.snapshotPath := "/snap";
     Snapshot.snapshotName := "snap" |}.

(** Stand-ins for the collaborators of [test]: a [setup] that installs the
    hook, a runtime that returns after [n] loops without calling any
    callback, a cleanup that succeeds, a clock that stands still. *)
Definition setup_installs (path : string) (loopCount : nat)
    (o : Snapshot.SetupOptions) (c : HookBase.Ctx)
    : Completion Thrown unit * HookBase.Ctx :=
  (Normal tt, HookBase.hookAgent c).
Definition mock_client (c : HookBase.Ctx) : option nat := Some 7%nat.
Definition run_quietly (input : unit) (c : HookBase.Ctx)
    : Completion Thrown string * HookBase.Ctx :=
  (Normal "done", c).
Definition no_events (c : HookBase.Ctx) : list string := [].
Definition loops_executed (n : Z) (c : HookBase.Ctx) : Z := n.
Definition cleanup_ok (snapshotName : string) (c : HookBase.Ctx)
    : Completion Thrown unit * HookBase.Ctx :=
  (Normal tt, c).
Definition frozen_clock (w : World) : Z := 0%Z.

(** [test] wired to these stand-ins, for a runtime that executes [n] loops. *)
Definition test_with (n : Z) (self : Snapshot.AgentSnapshot)
    (config : option Snapshot.TestRunConfig) (w : World) :=
  Snapshot.test frozen_clock setup_installs mock_client run_quietly
    no_events (loops_executed n) cleanup_ok self tt config w.

End Scenario.

(** ** More inputs used in examples *)

Module Examples.
Import Normalizer.

(** Two records of the same event, taken at different times, and a heap
    that holds both, at locations 1 and 2. *)
Definition first_record : list (string * Value) :=
  [("kind", VStr "tool_call"); ("timestamp", VNum 1700000000);
   ("toolCallId", VStr "call_1"); ("ok", VBool true)].
Definition second_record : list (string * Value) :=
  [("kind", VStr "tool_call"); ("timestamp", VNum 1800000000);
   ("toolCallId", VStr "call_9"); ("ok", VBool true)].
Definition records_heap : Heap :=
  {[ 1%nat := HObject first_record; 2%nat := HObject second_record ]}.

(** A stand-in for a serialiser: the constructors of a result, spelt out. *)
Definition show_value (v : Value) : string :=
  match v with
  | VUndefined => "undefined"
  | VNull => "null"
  | VBool true => "true"
  | VBool false => "false"
  | VNum n => Snapshot.show_Z n
  | VStr s => s
  | VRef l => "#" +:+ pretty l
  end.

Fixpoint show_items (f : Out -> string) (items : list Out) : string :=
  match items with
  | [] => ""
  | o :: rest => f o +:+ "," +:+ show_items f rest
  end.

Fixpoint show_entries (f : Out -> string) (entries : list (string * Out)) : string :=
  match entries with
  | [] => ""
  | (k, o) :: rest => k +:+ ":" +:+ f o +:+ "," +:+ show_entries f rest
  end.

Fixpoint show (o : Out) : string :=
  match o with
  | OVal v => show_value v
  | OArr items => "[" +:+ show_items show items +:+ "]"
  | OObj entries => "{" +:+ show_entries show entries +:+ "}"
  end.

Definition show_serialiser (h : Heap) (o : Out)
    : Runtime.Completion Runtime.Thrown (option string) :=
  Runtime.Normal (Some (show o)).

(** A configuration that ignores the field [raw] and every field whose key
    starts with an underscore. *)
Definition ignoring_config : Config :=
  new_normalizer
    (Some {| u_fieldsToNormalize := None;
             u_fieldsToIgnore :=
               Some [PatString "raw"; PatRegExp (String.prefix "_")];
             u_customNormalizers := None |}).

(** [[s, 1, s]] at location 1 with [s = {n: 1}] at location 2. *)
Definition repeated_heap : Heap :=
  {[ 1%nat := HArray [VRef 2%nat; VNum 1; VRef 2%nat];
     2%nat := HObject [("n", VNum 1)] ]}.

(** Two hooks for the same agent, created one after the other, and the
    world once both exist. *)
Definition hook_A : HookBase.Hook :=
  HookBase.this
    (HookBase.new_hook
       {| HookBase.o_snapshotPath := "/a"; HookBase.o_snapshotName := "a" |}
       Scenario.empty_world).
Definition hook_B : HookBase.Hook :=
  HookBase.this
    (HookBase.new_hook
       {| HookBase.o_snapshotPath := "/b"; HookBase.o_snapshotName := "b" |}
       (Runtime.count_hook Scenario.empty_world)).
Definition two_hooks_world : Runtime.World :=
  Runtime.count_hook (Runtime.count_hook Scenario.empty_world).

(** Stand-ins for [JSON.stringify] on chunks and for [fs.writeFileSync]:
    a disk that is full. *)
Definition chunk_text (chunk : string) : Runtime.Completion Runtime.Thrown string :=
  Runtime.Normal chunk.
Definition disk_full (filePath content : string) (w : Runtime.World)
    : Runtime.Completion Runtime.Thrown unit * Runtime.World :=
  (Runtime.Throw (Runtime.ThrownError (Runtime.mkError "ENOSPC")), w).

(** A runtime whose first callback fails: the wrapper records the failure
    and the run goes on to return. *)
Definition run_with_failing_hook (input : unit) (c : HookBase.Ctx)
    : Runtime.Completion Runtime.Thrown string * HookBase.Ctx :=
  (Runtime.Normal "done", snd (HookBase.safeHook (Scenario.throwing "disk") c)).

Definition identity_path (p : string) : string := p.
Definition last_segment (p : string) : string :=
  default "" (last (Snapshot.split "/" p)).

End Examples.

(** ** Cases for the runner *)

Module RunnerExamples.
Import Runner Scenario.

Definition case_ok : SnapshotCaseConfig :=
  mkCase "ok" "./cases/ok.ts" "/snap" None.
Definition case_broken : SnapshotCaseConfig :=
  mkCase "broken" "./cases/broken.ts" "/snap" None.
Definition case_again : SnapshotCaseConfig :=
  mkCase "ok" "./cases/ok.ts" "/snap" None.
Definition case_late : SnapshotCaseConfig :=
  mkCase "late" "./cases/ok.ts" "/snap" None.
Definition case_proto : SnapshotCaseConfig :=
  mkCase "__proto__" "./cases/ok.ts" "/snap" None.

(** One module that loads, with named exports; any other path holds a
    module that does not parse. *)
Definition case_modules (path : string) (w : World)
    : Completion Thrown (@ImportedModule unit) * World :=
  if String.eqb path "./cases/ok.ts"
  then (Normal (mkModule None (mkExports (Some some_agent) (Some tt))), w)
  else (Throw (ThrownError {| error_name := "SyntaxError";
                              message := "Unexpected token" |}), w).

(** Run options that are an object are truthy. *)
Definition object_options (input : unit) : bool := true.

Definition testAll_with (n : Z) :=
  testAll frozen_clock setup_installs mock_client run_quietly no_events
    (loops_executed n) cleanup_ok Examples.identity_path Examples.last_segment
    case_modules object_options.

Definition cli_with (n : Z) :=
  cli frozen_clock setup_installs mock_client run_quietly no_events
    (loops_executed n) cleanup_ok Examples.identity_path Examples.last_segment
    case_modules object_options.

End RunnerExamples.

(** ** The claims that the code does not meet, as they are worded *)

Module Stated.
Import HookBase.

(** "getLastError afterwards returns the first failure that occurred",
    for callbacks that leave [lastError] to the wrapper. *)
Definition first_failure_is_kept : Prop :=
  forall (fns : list (HookFn unit)) (c : Ctx),
    (forall f c', f ∈ fns -> lastError (this (snd (f c'))) = lastError (this c')) ->
    let '(raws, _, c') := run_callbacks fns c in
    (2 <= List.length (failures raws))%nat ->
    getLastError c' = head (failures raws).

(** "on any mismatch it fails with a loop-count-mismatch error": whenever
    the replayed run returns with a loop count other than the recorded
    one. *)
Definition any_mismatch_fails : Prop :=
  forall (Input Response Events : Type)
         (Date_now : World -> Z)
         (hook_setup : string -> nat -> Snapshot.SetupOptions -> Ctx ->
                       Completion Thrown unit * Ctx)
         (getMockLLMClient : Ctx -> option nat)
         (agent_run : Input -> Ctx -> Completion Thrown Response * Ctx)
         (getEvents : Ctx -> Events)
         (getCurrentLoopIteration : Ctx -> Z)
         (cleanupAllActualFiles : string -> Ctx -> Completion Thrown unit * Ctx)
         (self : Snapshot.AgentSnapshot) (input : Input)
         (config : option Snapshot.TestRunConfig) (w : World)
         (c1 c3 : Ctx) (u : unit) (resp : Response),
    Snapshot.snapshotExists self w = true ->
    hook_setup (Snapshot.snapshotPath self) (Snapshot.countLoops self w)
      (Snapshot.setup_options self config) (Snapshot.test_prologue self config w)
    = (Normal u, c1) ->
    hasError c1 = false ->
    agent_run input (Snapshot.enter_replay (getMockLLMClient c1) c1) = (Normal resp, c3) ->
    getCurrentLoopIteration c3 <> Z.of_nat (Snapshot.countLoops self w) ->
    fst (Snapshot.test Date_now hook_setup getMockLLMClient agent_run getEvents
           getCurrentLoopIteration cleanupAllActualFiles self input config w)
    = Throw (Snapshot.LoopCountMismatch (getCurrentLoopIteration c3)
               (Snapshot.countLoops self w)).

(** "uninstall when not installed is a no-op accompanied by a warning". *)
Definition redundant_unhook_warns : Prop :=
  forall c : Ctx,
    isHooked (this c) = false ->
    exists msg : string,
      log (world (unhookAgent c)) = (log (world c) ++ [(LWarn, msg)])%list.


End Stated.

(** * Proofs *)

(** ** The scenario of the default rules *)

Section DefaultRules.
Import Normalizer Scenario.

(** C1: on [{sessionId: "abc123", value: 5}] the default configuration
    gives [{sessionId: "<<ID>>", value: 5}]: the rule [/id$/i] comes first
    in the list and matches the key, so the rule [/sessionId/i] and its
    sentinel ["<<SESSION_ID>>"] are never reached.  [value] passes
    through unchanged. *)
Theorem C1_sessionId_replaced_by_generic_id :
  forall (fuel : nat) (seen : gset loc),
    fst <$> normalize (S (S fuel)) session_heap DEFAULT_CONFIG (VRef 1%nat) seen
    = Some (OObj [("sessionId", OVal (VStr "<<ID>>")); ("value", OVal (VNum 5))])
    /\ normalizeField DEFAULT_CONFIG "sessionId" (VStr "abc123") "sessionId"
       <> VStr "<<SESSION_ID>>".
Proof.
  intros fuel seen. split; [ | vm_compute; discriminate ].
  reflexivity.
Qed.

End DefaultRules.

(** ** The hook base class *)

Section HookBaseProps.
Import HookBase Scenario.

Lemma safeHook_never_throws {T : Type} (f : HookFn T) (c : Ctx) :
  exists r c', safeHook f c = (Normal r, c').
Proof.
  unfold safeHook. destruct (f c) as [[r | e] c1]; eauto.
Qed.

Lemma safeHook_lastError {T : Type} (f : HookFn T) (c : Ctx) :
  getLastError (snd (safeHook f c)) =
  match fst (f c) with
  | Throw e => Some (toError e)
  | Normal _ => getLastError (snd (f c))
  end.
Proof.
  unfold safeHook. destruct (f c) as [[r | e] c1]; reflexivity.
Qed.

Lemma run_callbacks_cons {T : Type} (f : HookFn T) (rest : list (HookFn T)) (c : Ctx) :
  run_callbacks (f :: rest) c =
  let '(raws, outs, c2) := run_callbacks rest (snd (safeHook f c)) in
  (fst (f c) :: raws, fst (safeHook f c) :: outs, c2).
Proof.
  simpl. destruct (safeHook f c) as [o c1]. reflexivity.
Qed.

(** C2, as the code has it: every failure is caught and none reaches the
    runtime, whatever the callback bodies do.  Each failure overwrites
    the stored error: when the last callback of the sequence fails,
    [getLastError] afterwards returns that failure, whatever was stored
    before.  And when no body that returns writes [lastError] itself (as
    a call of [clearError] or of [writeStreamingChunks] would),
    [getLastError] afterwards returns the last failure that occurred, or
    the error from before the sequence if none occurred. *)
Theorem C2_last_failure_is_kept :
  forall (T : Type) (fns : list (HookFn T)) (c c' : Ctx)
         (raws : list (Completion Thrown T))
         (outs : list (Completion Thrown (option T))),
    run_callbacks fns c = (raws, outs, c') ->
    Forall (fun o => exists r, o = Normal r) outs
    /\ List.length outs = List.length fns
    /\ List.length raws = List.length fns
    /\ (forall e, last raws = Some (Throw e) -> getLastError c' = Some (toError e))
    /\ ((forall f c0 r c1, f ∈ fns -> f c0 = (Normal r, c1) ->
           lastError (this c1) = lastError (this c0)) ->
        getLastError c' =
        match last (failures raws) with
        | Some e => Some e
        | None => getLastError c
        end).
Proof.
  intros T fns. induction fns as [ | f rest IH ]; intros c c' raws outs Hrun.
  - simpl in Hrun. injection Hrun as <- <- <-. simpl.
    repeat split; auto. intros e He. discriminate He.
  - rewrite run_callbacks_cons in Hrun.
    destruct (run_callbacks rest (snd (safeHook f c))) as [[raws' outs'] c2] eqn:Erest.
    injection Hrun as <- <- <-.
    destruct (IH _ _ _ _ Erest) as (Hall & Hlen & Hlen' & Hraw & Hcond).
    pose proof (safeHook_lastError f c) as Hsafe.
    split; [ | split; [ | split; [ | split ] ] ].
    + constructor; [ | exact Hall ].
      destruct (safeHook_never_throws f c) as (r & c'' & E). rewrite E. eauto.
    + simpl. congruence.
    + simpl. congruence.
    + intros e He. destruct raws' as [ | r0 raws'' ].
      * destruct rest as [ | g rest ]; [ | discriminate Hlen' ].
        simpl in Erest. injection Erest as _ <-.
        simpl in He. injection He as He. rewrite He in Hsafe. exact Hsafe.
      * apply Hraw. rewrite last_cons in He.
        destruct (last (r0 :: raws'')) eqn:El; [ exact He | ].
        apply last_None in El. discriminate El.
    + intros Hpres. rewrite Hcond.
      2: { intros g c0 r c1 Hg. apply Hpres. right. exact Hg. }
      destruct (f c) as [[r | e] c1] eqn:Efc; simpl in Hsafe |- *.
      * rewrite Hsafe. unfold getLastError.
        rewrite (Hpres f c r c1 ltac:(left) Efc). reflexivity.
      * rewrite last_cons, Hsafe. destruct (last (failures raws')); reflexivity.
Qed.

Lemma C2_last_failure_is_kept_witness :
  getLastError
    (snd (run_callbacks [throwing "first"; returning; throwing "second"] fresh_ctx))
  = Some (mkError "second").
Proof.
  destruct (C2_last_failure_is_kept unit
              [throwing "first"; returning; throwing "second"] fresh_ctx _ _ _ eq_refl)
    as (_ & _ & _ & H & _).
  exact (H (ThrownError (mkError "second")) eq_refl).
Defined.

(** A body that writes [lastError] itself: after a failure and a body
    that calls [clearError], no error is stored. *)
Lemma clearError_in_a_body_drops_the_failure :
  getLastError (snd (run_callbacks [throwing "first"; clearing] fresh_ctx)) = None
  /\ failures (fst (fst (run_callbacks [throwing "first"; clearing] fresh_ctx)))
     = [mkError "first"].
Proof. split; reflexivity. Qed.

(** C2 as worded fails: after two failures the stored error is the
    second one, not the first. *)
Lemma C2_first_failure_is_overwritten : ~ Stated.first_failure_is_kept.
Proof.
  intros H.
  specialize (H [throwing "first"; throwing "second"] fresh_ctx).
  assert (Hpres : forall (f : HookFn unit) c0,
            f ∈ [throwing "first"; throwing "second"] ->
            lastError (this (snd (f c0))) = lastError (this c0)).
  { intros f c0 Hf.
    repeat (apply elem_of_cons in Hf as [-> | Hf]); try reflexivity.
    apply elem_of_nil in Hf. destruct Hf. }
  specialize (H Hpres). simpl in H.
  specialize (H (le_n 2)). discriminate H.
Qed.

(** C8, as the code has it.  A redundant [hookAgent] changes nothing but
    the log, which gets one warning: the backup map and the runtime's
    callbacks stay as they are.  A redundant [unhookAgent] changes nothing
    at all and logs nothing.  Neither has a failing path.  [hookAgent] on
    a hook that is not installed saves the runtime's nine callbacks and
    installs the wrappers; [unhookAgent] on an installed hook puts back
    exactly the callbacks saved at install time, whatever the runtime's
    callbacks have become since, touches nothing else of the agent, and
    empties the backup map. *)
Theorem C8_hook_lifecycle :
  forall c : Ctx,
    (isHooked (this c) = true ->
       this (hookAgent c) = this c
       /\ agent (world (hookAgent c)) = agent (world c)
       /\ log (world (hookAgent c))
          = (log (world c) ++ [(LWarn, "Agent already hooked, skipping")])%list)
    /\ (isHooked (this c) = false -> unhookAgent c = c)
    /\ (isHooked (this c) = false ->
          isHooked (this (hookAgent c)) = true
          /\ originalHooks (this (hookAgent c)) = Some (callbacks (agent (world c)))
          /\ callbacks (agent (world (hookAgent c)))
             = instrumented (identity (this c)))
    /\ (forall saved : Hooks,
          isHooked (this c) = true ->
          originalHooks (this c) = Some saved ->
          isHooked (this (unhookAgent c)) = false
          /\ originalHooks (this (unhookAgent c)) = None
          /\ callbacks (agent (world (unhookAgent c))) = saved
          /\ customLLMClient (agent (world (unhookAgent c)))
             = customLLMClient (agent (world c))
          /\ isReplay (agent (world (unhookAgent c))) = isReplay (agent (world c))).
Proof.
  intros [t w]. simpl. repeat split.
  - unfold hookAgent. simpl. rewrite H. reflexivity.
  - unfold hookAgent. simpl. rewrite H. reflexivity.
  - unfold hookAgent. simpl. rewrite H. reflexivity.
  - intros H. unfold unhookAgent. simpl. rewrite H. reflexivity.
  - unfold hookAgent. simpl. rewrite H. reflexivity.
  - unfold hookAgent. simpl. rewrite H. simpl.
    destruct (callbacks (agent w)). reflexivity.
  - unfold hookAgent. simpl. rewrite H. reflexivity.
  - unfold unhookAgent. simpl. rewrite H. reflexivity.
  - unfold unhookAgent. simpl. rewrite H. reflexivity.
  - unfold unhookAgent. simpl. rewrite H, H0. reflexivity.
  - unfold unhookAgent. simpl. rewrite H, H0. reflexivity.
  - unfold unhookAgent. simpl. rewrite H, H0. reflexivity.
Qed.

(** The life cycle on a concrete hook: install, let the runtime replace a
    callback, uninstall. *)
Lemma C8_hook_lifecycle_witness :
  unhookAgent fresh_ctx = fresh_ctx
  /\ callbacks (agent (world (hookAgent fresh_ctx))) = instrumented 0
  /\ this (hookAgent (hookAgent fresh_ctx)) = this (hookAgent fresh_ctx)
  /\ callbacks (agent (world (unhookAgent (hookAgent fresh_ctx)))) = some_hooks.
Proof.
  destruct (C8_hook_lifecycle fresh_ctx) as (_ & Hun & Hin & _).
  destruct (C8_hook_lifecycle (hookAgent fresh_ctx)) as (Hre & _ & _ & Hback).
  split; [ apply Hun; reflexivity | ].
  split; [ apply (Hin eq_refl) | ].
  split; [ apply (Hre eq_refl) | ].
  apply (Hback some_hooks); reflexivity.
Defined.

(** C8 as worded fails: [unhookAgent] on a hook that is not installed
    returns at once, without a warning. *)
Lemma C8_redundant_unhook_is_silent : ~ Stated.redundant_unhook_warns.
Proof.
  intros H. destruct (H fresh_ctx eq_refl) as [msg Hmsg].
  discriminate Hmsg.
Qed.

End HookBaseProps.

(** ** The orchestrator *)

Section TestProps.
Import Snapshot Scenario.

Context {Input Response Events : Type}.
Variable Date_now : World -> Z.
Variable hook_setup :
  string -> nat -> SetupOptions -> HookBase.Ctx ->
  Completion Thrown unit * HookBase.Ctx.
Variable getMockLLMClient : HookBase.Ctx -> option nat.
Variable agent_run :
  Input -> HookBase.Ctx -> Completion Thrown Response * HookBase.Ctx.
Variable getEvents : HookBase.Ctx -> Events.
Variable getCurrentLoopIteration : HookBase.Ctx -> Z.
Variable cleanupAllActualFiles :
  string -> HookBase.Ctx -> Completion Thrown unit * HookBase.Ctx.

Local Abbreviation test_try' :=
  (test_try Date_now hook_setup getMockLLMClient agent_run getEvents
     getCurrentLoopIteration cleanupAllActualFiles).
Local Abbreviation test' :=
  (test Date_now hook_setup getMockLLMClient agent_run getEvents
     getCurrentLoopIteration cleanupAllActualFiles).

Lemma snapshotExists_spec (self : AgentSnapshot) (w : World) :
  snapshotExists self w = true <->
  dir w <> None /\ (0 < countLoops self w)%nat.
Proof.
  unfold snapshotExists, existsSync, countLoops.
  destruct (dir w) as [entries | ]; simpl.
  - rewrite Nat.ltb_lt. split; [ intros H; split; [ discriminate | exact H ] | tauto ].
  - split; [ discriminate | intros [H _]; contradiction ].
Qed.

(** The [try] block never raises the "not found" error. *)
Lemma test_try_not_SnapshotNotFound self input config startTime loopCount c p :
  fst (test_try' self input config startTime loopCount c)
  <> Throw (SnapshotNotFound p).
Proof.
  unfold test_try.
  repeat match goal with
         | |- context [match ?x with _ => _ end] => destruct x; simpl
         end; discriminate.
Qed.

(** C4: [test] raises the "not found" error exactly when the snapshot
    does not exist, which means: the directory is present and holds at
    least one loop.  When it does, nothing has happened but one line of
    log: the world is otherwise as before, with the runtime's callbacks
    untouched, and no collaborator has been called. *)
Theorem C4_not_found_iff_snapshot_missing :
  forall (self : AgentSnapshot) (input : Input)
         (config : option TestRunConfig) (w : World),
    (snapshotExists self w = true <->
       dir w <> None /\ (0 < countLoops self w)%nat)
    /\ ((exists p, fst (test' self input config w) = Throw (SnapshotNotFound p))
        <-> snapshotExists self w = false)
    /\ (snapshotExists self w = false ->
          test' self input config w
          = (Throw (SnapshotNotFound (snapshotPath self)),
             logger LInfo ("Testing against snapshot: " +:+ snapshotName self) w)
          /\ agent (snd (test' self input config w)) = agent w
          /\ error_message (SnapshotNotFound (snapshotPath self))
             = "Snapshot not found at " +:+ snapshotPath self +:+
               ". Generate it first using .generate()").
Proof.
  intros self input config w.
  assert (Hlog : forall lv msg, snapshotExists self (logger lv msg w)
                                = snapshotExists self w) by reflexivity.
  split; [ apply snapshotExists_spec | ].
  split.
  - unfold test. rewrite Hlog.
    destruct (snapshotExists self w) eqn:Hex; simpl.
    + split; [ | discriminate ].
      intros [p Hp]. exfalso.
      match type of Hp with
      | context [test_try ?a ?b ?c ?d ?e ?f ?g ?s ?i ?cf ?st ?lc ?cx] =>
          pose proof (test_try_not_SnapshotNotFound s i cf st lc cx p) as Hno;
          destruct (test_try a b c d e f g s i cf st lc cx) as [r c'] eqn:Et
      end.
      simpl in Hp, Hno. contradiction.
    + split; [ reflexivity | ]. intros _. eauto.
  - intros Hex. unfold test. rewrite Hlog, Hex. simpl. auto.
Qed.

(** The [try] block succeeds only past the loop-count comparison: the
    setup and the run have returned, no hook error is recorded, and the
    runtime's loop count, which goes into [meta], is the recorded one. *)
Lemma test_try_success_loops self input config startTime loopCount c r :
  fst (test_try' self input config startTime loopCount c) = Normal r ->
  exists (c1 c3 : HookBase.Ctx) (u : unit),
    hook_setup (snapshotPath self) loopCount (setup_options self config) c
    = (Normal u, c1)
    /\ HookBase.hasError c1 = false
    /\ agent_run input (enter_replay (getMockLLMClient c1) c1)
       = (Normal (response r), c3)
    /\ HookBase.hasError c3 = false
    /\ meta_loopCount (meta r) = getCurrentLoopIteration c3
    /\ getCurrentLoopIteration c3 = Z.of_nat loopCount.
Proof.
  unfold test_try, HookBase.hasError, HookBase.getLastError.
  destruct (hook_setup _ _ _ _) as [[u | e] c1]; [ | simpl; discriminate ].
  destruct (HookBase.lastError (HookBase.this c1)) eqn:E1; [ simpl; discriminate | ].
  destruct (agent_run _ _) as [[resp | e] c3] eqn:Er; [ | simpl; discriminate ].
  destruct (HookBase.lastError (HookBase.this c3)) eqn:E3; [ simpl; discriminate | ].
  destruct (negb (getCurrentLoopIteration c3 =? Z.of_nat loopCount)%Z) eqn:En;
    [ simpl; discriminate | ].
  destruct (cleanupAllActualFiles _ _) as [[u' | e] c4]; [ | simpl; discriminate ].
  simpl. intros H. injection H as <-. simpl.
  exists c1, c3, u. rewrite E1, E3.
  apply negb_false_iff, Z.eqb_eq in En. auto 10.
Qed.

(** C3, as the code has it: once the replayed run has completed without
    a recorded hook error, [test] compares the runtime's loop count with
    the recorded one and, when they differ, fails with the
    loop-count-mismatch error built from the two numbers.  No option takes
    part in the comparison, so this holds in update mode too.  In every
    case, [test] returns a result only when the runtime's loop count after
    the run, which it reports in [meta], equals the recorded count.  But a
    failure that the hook has recorded during the run is thrown first,
    before the counts are compared: a run with a failed callback fails
    with that failure, whatever the two counts are. *)
Theorem C3_loop_count_mismatch_fails :
  forall (self : AgentSnapshot) (input : Input)
         (config : option TestRunConfig) (w : World),
    (forall (c1 c3 : HookBase.Ctx) (u : unit) (resp : Response),
       snapshotExists self w = true ->
       hook_setup (snapshotPath self) (countLoops self w)
         (setup_options self config) (test_prologue self config w)
       = (Normal u, c1) ->
       HookBase.hasError c1 = false ->
       agent_run input (enter_replay (getMockLLMClient c1) c1) = (Normal resp, c3) ->
       HookBase.hasError c3 = false ->
       getCurrentLoopIteration c3 <> Z.of_nat (countLoops self w) ->
       fst (test' self input config w)
       = Throw (LoopCountMismatch (getCurrentLoopIteration c3) (countLoops self w)))
    /\ (forall r : SnapshotTestResult,
          fst (test' self input config w) = Normal r ->
          exists (c1 c3 : HookBase.Ctx) (u : unit),
            hook_setup (snapshotPath self) (countLoops self w)
              (setup_options self config) (test_prologue self config w)
            = (Normal u, c1)
            /\ agent_run input (enter_replay (getMockLLMClient c1) c1)
               = (Normal (response r), c3)
            /\ meta_loopCount (meta r) = getCurrentLoopIteration c3
            /\ getCurrentLoopIteration c3 = Z.of_nat (countLoops self w))
    /\ (forall (c1 c3 : HookBase.Ctx) (u : unit) (resp : Response) (e : Error),
          snapshotExists self w = true ->
          hook_setup (snapshotPath self) (countLoops self w)
            (setup_options self config) (test_prologue self config w)
          = (Normal u, c1) ->
          HookBase.hasError c1 = false ->
          agent_run input (enter_replay (getMockLLMClient c1) c1) = (Normal resp, c3) ->
          HookBase.getLastError c3 = Some e ->
          fst (test' self input config w) = Throw (Propagated (ThrownError e))).
Proof.
  intros self input config w.
  assert (Hlog : forall lv msg, snapshotExists self (logger lv msg w)
                                = snapshotExists self w) by reflexivity.
  split; [ | split ].
  3: { intros c1 c3 u resp e Hex Hsetup Herr1 Hrun Herr3.
       unfold test. rewrite Hlog, Hex. simpl.
       unfold test_try. rewrite Hsetup.
       unfold HookBase.hasError in Herr1. unfold HookBase.getLastError in Herr3 |- *.
       destruct (HookBase.lastError (HookBase.this c1)); [ discriminate | ].
       rewrite Hrun, Herr3. reflexivity. }
  - intros c1 c3 u resp Hex Hsetup Herr1 Hrun Herr3 Hne.
    unfold test. rewrite Hlog, Hex. simpl.
    unfold test_try. rewrite Hsetup.
    unfold HookBase.hasError in Herr1, Herr3. unfold HookBase.getLastError.
    destruct (HookBase.lastError (HookBase.this c1)); [ discriminate | ].
    rewrite Hrun.
    destruct (HookBase.lastError (HookBase.this c3)); [ discriminate | ].
    apply Z.eqb_neq in Hne. rewrite Hne. reflexivity.
  - intros r. unfold test. rewrite Hlog.
    destruct (snapshotExists self w); simpl; [ | discriminate ].
    match goal with
    | |- context [test_try ?a ?b ?c ?d ?e ?f ?g ?s ?i ?cf ?st ?lc ?cx] =>
        pose proof (test_try_success_loops s i cf st lc cx r) as Hok;
        destruct (test_try a b c d e f g s i cf st lc cx) as [r' c'] eqn:Et
    end.
    simpl. intros Hr. destruct (Hok Hr) as (c1 & c3 & u & Hs & _ & Hrun & _ & Hm & He).
    exists c1, c3, u. auto.
Qed.

End TestProps.

Section TestExamples.
Import Snapshot Scenario.

(** In update mode, with three loops recorded and two executed. *)
Lemma C3_loop_count_mismatch_fails_witness :
  fst (test_with 2 updating_snapshot None recorded_world)
  = Throw (LoopCountMismatch 2 3)
  /\ error_message (LoopCountMismatch 2 3)
     = "Loop count mismatch: executed 2 but snapshot has 3 loops".
Proof.
  split; [ | reflexivity ].
  destruct (C3_loop_count_mismatch_fails frozen_clock setup_installs mock_client
              run_quietly no_events (loops_executed 2) cleanup_ok
              updating_snapshot tt None recorded_world) as [H _].
  eapply (H _ _ tt "done");
    [ reflexivity | reflexivity | reflexivity | reflexivity | reflexivity | ].
  vm_compute. discriminate.
Defined.

(** C3 as worded fails: with three loops recorded, two executed and a
    callback that failed during the run, [test] throws the callback's
    failure, not the mismatch error. *)
Lemma C3_hook_error_comes_before_the_mismatch :
  ~ Stated.any_mismatch_fails
  /\ fst (Snapshot.test frozen_clock setup_installs mock_client
            Examples.run_with_failing_hook no_events (loops_executed 2) cleanup_ok
            updating_snapshot tt None recorded_world)
     = Throw (Propagated (ThrownError (mkError "disk"))).
Proof.
  split; [ | reflexivity ].
  intros H.
  specialize (H unit string (list string) frozen_clock setup_installs mock_client
                Examples.run_with_failing_hook no_events (loops_executed 2) cleanup_ok
                updating_snapshot tt None recorded_world).
  specialize (H _ _ tt "done" eq_refl eq_refl eq_refl eq_refl).
  assert (Hne : loops_executed 2
                  (snd (Examples.run_with_failing_hook tt
                          (enter_replay
                             (mock_client
                                (snd (setup_installs (snapshotPath updating_snapshot)
                                        (countLoops updating_snapshot recorded_world)
                                        (setup_options updating_snapshot None)
                                        (test_prologue updating_snapshot None
                                           recorded_world))))
                             (snd (setup_installs (snapshotPath updating_snapshot)
                                     (countLoops updating_snapshot recorded_world)
                                     (setup_options updating_snapshot None)
                                     (test_prologue updating_snapshot None
                                        recorded_world))))))
                <> Z.of_nat (countLoops updating_snapshot recorded_world))
    by (vm_compute; discriminate).
  specialize (H Hne). vm_compute in H. discriminate H.
Qed.

(** On an empty snapshot directory [test] stops with "not found" and the
    runtime's callbacks are those from before. *)
Lemma C4_not_found_iff_snapshot_missing_witness :
  fst (test_with 2 updating_snapshot None empty_world)
  = Throw (SnapshotNotFound "/snap")
  /\ callbacks (agent (snd (test_with 2 updating_snapshot None empty_world)))
     = some_hooks.
Proof.
  destruct (C4_not_found_iff_snapshot_missing frozen_clock setup_installs
              mock_client run_quietly no_events (loops_executed 2) cleanup_ok
              updating_snapshot tt None empty_world) as (_ & _ & H).
  destruct (H eq_refl) as (Htest & Hagent & _).
  split.
  - unfold test_with. rewrite Htest. reflexivity.
  - unfold test_with. rewrite Hagent. reflexivity.
Defined.

End TestExamples.

(** ** Counting loops *)

Section CountLoops.
Import Snapshot Scenario.

Lemma insert_sorted_perm {A : Type} (cmp : A -> A -> Number) (x : A) (l : list A) :
  Permutation (insert_sorted cmp x l) (x :: l).
Proof.
  induction l as [ | y ys IH ]; simpl; [ reflexivity | ].
  destruct (Number_leb0 (cmp x y)); [ reflexivity | ].
  rewrite IH. apply perm_swap.
Qed.

Lemma array_sort_perm {A : Type} (cmp : A -> A -> Number) (l : list A) :
  Permutation (array_sort cmp l) l.
Proof.
  induction l as [ | x xs IH ]; simpl; [ reflexivity | ].
  rewrite insert_sorted_perm. constructor. exact IH.
Qed.

(** Insertion keeps a list sorted by [R] when the comparator decides [R]
    on the elements at hand and [R] is transitive on them. *)
Lemma insert_sorted_sorted {A : Type} (cmp : A -> A -> Number) (R : A -> A -> Prop)
    (x : A) (l : list A) :
  (forall y, y ∈ l -> if Number_leb0 (cmp x y) then R x y else R y x) ->
  (forall y z, y ∈ l -> z ∈ l -> R x y -> R y z -> R x z) ->
  StronglySorted R l ->
  StronglySorted R (insert_sorted cmp x l).
Proof.
  induction l as [ | y ys IH ]; intros Hcmp Htrans Hs; simpl.
  - repeat constructor.
  - apply StronglySorted_inv in Hs as [Hs Hy].
    pose proof (Hcmp y ltac:(left)) as Hxy.
    destruct (Number_leb0 (cmp x y)) eqn:E.
    + constructor; [ constructor; assumption | ].
      constructor; [ exact Hxy | ].
      rewrite Forall_forall in Hy |- *. intros z Hz.
      apply (Htrans y z); [ left | right; exact Hz | exact Hxy | apply Hy, Hz ].
    + constructor.
      * apply IH; [ | | exact Hs ].
        -- intros z Hz. apply Hcmp. right. exact Hz.
        -- intros a b Ha Hb. apply Htrans; right; assumption.
      * rewrite Forall_forall in Hy |- *. intros z Hz.
        rewrite (insert_sorted_perm cmp x ys) in Hz.
        apply elem_of_cons in Hz as [-> | Hz]; [ exact Hxy | apply Hy; exact Hz ].
Qed.

Lemma array_sort_sorted {A : Type} (cmp : A -> A -> Number) (R : A -> A -> Prop)
    (l : list A) :
  (forall x y, x ∈ l -> y ∈ l -> if Number_leb0 (cmp x y) then R x y else R y x) ->
  (forall x y z, x ∈ l -> y ∈ l -> z ∈ l -> R x y -> R y z -> R x z) ->
  StronglySorted R (array_sort cmp l).
Proof.
  induction l as [ | x xs IH ]; intros Hcmp Htrans; simpl; [ constructor | ].
  assert (Hin : forall y, y ∈ array_sort cmp xs -> y ∈ x :: xs).
  { intros y Hy. right. rewrite <- (array_sort_perm cmp xs). exact Hy. }
  apply insert_sorted_sorted.
  - intros y Hy. apply Hcmp; [ left | apply Hin, Hy ].
  - intros y z Hy Hz. apply Htrans; [ left | apply Hin, Hy | apply Hin, Hz ].
  - apply IH.
    + intros a b Ha Hb. apply Hcmp; right; assumption.
    + intros a b c Ha Hb Hc. apply Htrans; right; assumption.
Qed.

(** *** Numbers *)

Lemma size_small (n : N) : (n < 2 ^ 53)%N -> (N.size n <=? 53)%N = true.
Proof.
  intros H. apply N.leb_le.
  destruct (decide (n = 0)%N) as [-> | Hn]; [ simpl; lia | ].
  rewrite N.size_log2 by exact Hn.
  assert (Hlog : (N.log2 n < 53)%N)
    by (apply N.log2_lt_pow2; [ apply N.neq_0_lt_0, Hn | exact H ]).
  lia.
Qed.

(** Below 2^53 nothing is rounded. *)
Lemma round_double_small (n : N) : (n < 2 ^ 53)%N -> round_double n = Some n.
Proof.
  intros H. unfold round_double. rewrite size_small by exact H. reflexivity.
Qed.

Lemma round_double_pos (p : positive) (m : N) :
  round_double (Npos p) = Some m -> (0 < m)%N.
Proof.
  unfold round_double.
  destruct (N.size (N.pos p) <=? 53)%N eqn:Eb.
  - intros [= <-]. lia.
  - apply N.leb_gt in Eb.
    set (n := N.pos p) in *. set (sh := (N.size n - 53)%N).
    set (q := N.shiftr n sh).
    assert (Hq : (0 < q)%N).
    { unfold q. rewrite N.shiftr_div_pow2.
      apply N.div_str_pos. split; [ apply N.neq_0_lt_0, N.pow_nonzero; discriminate | ].
      assert (Hn : n <> 0%N) by (unfold n; discriminate).
      pose proof (N.log2_spec n ltac:(lia)) as [Hlo _].
      etransitivity; [ | exact Hlo ].
      apply N.pow_le_mono_r; [ discriminate | ].
      unfold sh. rewrite N.size_log2 by exact Hn. lia. }
    match goal with
    | |- context [N.shiftl ?q' sh] => set (q1 := q')
    end.
    assert (Hq1 : (0 < q1)%N) by (unfold q1; destruct (_ || _); lia).
    destruct (N.size (N.shiftl q1 sh) <=? 1024)%N; [ | discriminate ].
    intros [= <-]. rewrite N.shiftl_mul_pow2.
    apply N.mul_pos_pos; [ exact Hq1 | ].
    apply N.neq_0_lt_0, N.pow_nonzero. discriminate.
Qed.

(** Rounding keeps the sign, and only zero gives zero. *)
Lemma toNumber_leb0 (z : Z) : Number_leb0 (toNumber z) = (z <=? 0)%Z.
Proof.
  destruct z as [ | p | p ]; simpl; [ reflexivity | | ].
  - destruct (round_double (N.pos p)) as [m | ] eqn:E; simpl; [ | reflexivity ].
    apply round_double_pos in E. apply Z.leb_gt. lia.
  - destruct (round_double (N.pos p)) as [m | ] eqn:E; simpl; [ | reflexivity ].
    apply Z.leb_le. lia.
Qed.

Lemma toNumber_exact (z : Z) :
  (- 2 ^ 53 < z < 2 ^ 53)%Z -> toNumber z = Finite z.
Proof.
  intros H. destruct z as [ | p | p ]; simpl; [ reflexivity | | ].
  - rewrite round_double_small; [ reflexivity | ].
    change (2 ^ 53)%N with (Z.to_N (2 ^ 53)). lia.
  - rewrite round_double_small; [ reflexivity | ].
    change (2 ^ 53)%N with (Z.to_N (2 ^ 53)). lia.
Qed.

Lemma Number_le_trans (a b c : Number) :
  Number_le a b -> Number_le b c -> Number_le a c.
Proof.
  destruct a as [ | x | [ | ] ], b as [ | y | [ | ] ], c as [ | z | [ | ] ];
    simpl; try tauto; lia.
Qed.

(** On two names that have a number, the comparator decides their order. *)
Lemma sortCompare_decides (a b : string) :
  loopNumber a <> NaN -> loopNumber b <> NaN ->
  if Number_leb0 (sortCompare a b) then loop_le a b else loop_le b a.
Proof.
  unfold sortCompare, compareFn, loop_le.
  destruct (loopNumber a) as [ | x | [ | ] ], (loopNumber b) as [ | y | [ | ] ];
    intros Ha Hb; try contradiction; simpl; try exact I.
  pose proof (toNumber_leb0 (x - y)) as H.
  destruct (toNumber (x - y)) as [ | z | neg ]; simpl in H |- *.
  - symmetry in H. apply Z.leb_le in H. lia.
  - rewrite H. destruct (x - y <=? 0)%Z eqn:E;
      [ apply Z.leb_le in E | apply Z.leb_gt in E ]; lia.
  - rewrite H. destruct (x - y <=? 0)%Z eqn:E;
      [ apply Z.leb_le in E | apply Z.leb_gt in E ]; lia.
Qed.

Lemma sorted_when_all_numbered (l : list string) :
  (forall d, d ∈ l -> loopNumber d <> NaN) ->
  StronglySorted loop_le (array_sort sortCompare l).
Proof.
  intros Hnum. apply array_sort_sorted.
  - intros x y Hx Hy. apply sortCompare_decides; auto.
  - intros x y z _ _ _. apply Number_le_trans.
Qed.




End CountLoops.

(** ** Which rule applies to a field *)

Section FieldRules.
Import Normalizer Scenario.

Lemma firstRule_find (rules : list FieldRule) (key path : string) :
  firstRule rules key path =
  match firstMatchingRule rules key path with
  | Some r => replacement r
  | None => VUndefined
  end.
Proof.
  induction rules as [ | r rest IH ]; simpl; [ reflexivity | ].
  destruct (matchesPattern (pattern r) key path); [ reflexivity | exact IH ].
Qed.

Lemma firstCustom_find (cs : list CustomNormalizer) (rules : list FieldRule)
    (key : string) (value : Value) (path : string) :
  firstCustom cs rules key value path =
  match firstMatchingCustom cs key path with
  | Some c => normalizer c value path
  | None => firstRule rules key path
  end.
Proof.
  induction cs as [ | c rest IH ]; simpl; [ reflexivity | ].
  destruct (matchesPattern (cpattern c) key path); [ reflexivity | exact IH ].
Qed.

Lemma firstMatchingRule_app (r1 r2 : list FieldRule) (key path : string) :
  firstMatchingRule (r1 ++ r2) key path =
  match firstMatchingRule r1 key path with
  | Some r => Some r
  | None => firstMatchingRule r2 key path
  end.
Proof.
  unfold firstMatchingRule.
  induction r1 as [ | r rest IH ]; simpl; [ reflexivity | ].
  destruct (matchesPattern (pattern r) key path); [ reflexivity | exact IH ].
Qed.

(** Every replacement of the default rules is a string. *)
Lemma default_replacement_is_string (key path : string) (r : FieldRule) :
  firstMatchingRule (fieldsToNormalize DEFAULT_CONFIG) key path = Some r ->
  exists s, replacement r = VStr s.
Proof.
  unfold firstMatchingRule. simpl.
  repeat match goal with
         | |- context [if ?b then _ else _] => destruct b
         end;
    intros H; try discriminate H; injection H as <-; simpl; eauto.
Qed.

(** The loop over the entries of an object, cut at any entry. *)
Lemma normalize_entries_app rec cfg path pre rest seen acc :
  normalize_entries rec cfg path (pre ++ rest) seen acc =
  match normalize_entries rec cfg path pre seen acc with
  | None => None
  | Some (acc1, seen1) => normalize_entries rec cfg path rest seen1 acc1
  end.
Proof.
  revert seen acc. induction pre as [ | [k v] pre IH ]; intros seen acc; simpl.
  - reflexivity.
  - destruct (shouldIgnoreField cfg k (currentPath path k)); [ apply IH | ].
    destruct (is_undefined (normalizeField cfg k v (currentPath path k))).
    + destruct (rec v (currentPath path k) seen) as [[o seen1] | ]; [ apply IH | reflexivity ].
    + apply IH.
Qed.

(** C6: [normalizeField] tries the caller's custom normalizers first,
    then the built-in rules, then the caller's rules, and the first pattern
    that matches decides.  So when no custom normalizer matches a field and
    a built-in rule does, the field gets the built-in replacement, whatever
    rules the caller has supplied: in the object being built the property
    is set to that replacement, and the value is not visited. *)
Theorem C6_custom_then_builtin_then_caller :
  forall (config : option AgentNormalizerConfig)
         (key : string) (value : Value) (path : string),
    let cfg := new_normalizer config in
    let customs := default [] (config ≫= u_customNormalizers) in
    let callerRules := default [] (config ≫= u_fieldsToNormalize) in
    normalizeField cfg key value path =
      match firstMatchingCustom customs key path with
      | Some c => normalizer c value path
      | None =>
          match firstMatchingRule (fieldsToNormalize DEFAULT_CONFIG) key path with
          | Some builtin => replacement builtin
          | None =>
              match firstMatchingRule callerRules key path with
              | Some r => replacement r
              | None => VUndefined
              end
          end
      end
    /\ (forall builtin : FieldRule,
          firstMatchingCustom customs key path = None ->
          firstMatchingRule (fieldsToNormalize DEFAULT_CONFIG) key path = Some builtin ->
          normalizeField cfg key value path = replacement builtin
          /\ forall rec parent pre post seen acc,
               path = currentPath parent key ->
               shouldIgnoreField cfg key path = false ->
               normalize_entries rec cfg parent (pre ++ (key, value) :: post) seen acc =
               match normalize_entries rec cfg parent pre seen acc with
               | None => None
               | Some (acc1, seen1) =>
                   normalize_entries rec cfg parent post seen1
                     (set_prop acc1 key (OVal (replacement builtin)))
               end).
Proof.
  intros config key value path cfg customs callerRules.
  assert (Heq : normalizeField cfg key value path =
      match firstMatchingCustom customs key path with
      | Some c => normalizer c value path
      | None =>
          match firstMatchingRule (fieldsToNormalize DEFAULT_CONFIG) key path with
          | Some builtin => replacement builtin
          | None =>
              match firstMatchingRule callerRules key path with
              | Some r => replacement r
              | None => VUndefined
              end
          end
      end).
  { unfold normalizeField. rewrite firstCustom_find.
    change (customNormalizers cfg) with customs.
    destruct (firstMatchingCustom customs key path); [ reflexivity | ].
    rewrite firstRule_find.
    change (fieldsToNormalize cfg)
      with (fieldsToNormalize DEFAULT_CONFIG ++ callerRules)%list.
    rewrite firstMatchingRule_app.
    destruct (firstMatchingRule (fieldsToNormalize DEFAULT_CONFIG) key path);
      reflexivity. }
  split; [ exact Heq | ].
  intros builtin Hcustom Hbuiltin.
  rewrite Hcustom, Hbuiltin in Heq.
  split; [ exact Heq | ].
  intros rec parent pre post seen acc Hpath Hign.
  rewrite normalize_entries_app.
  destruct (normalize_entries rec cfg parent pre seen acc) as [[acc1 seen1] | ];
    [ | reflexivity ].
  simpl. rewrite <- Hpath, Hign, Heq.
  destruct (default_replacement_is_string key path builtin Hbuiltin) as [str ->].
  reflexivity.
Qed.

(** The key [sessionId] under a configuration whose own rule for it says
    ["MINE"]: the built-in ["<<ID>>"] is what the field gets. *)
Lemma C6_custom_then_builtin_then_caller_witness :
  normalizeField (new_normalizer (Some caller_config))
    "sessionId" (VStr "abc123") "sessionId" = VStr "<<ID>>"
  /\ fst <$> normalize 2 session_heap (new_normalizer (Some caller_config))
               (VRef 1%nat) ∅
     = Some (OObj [("sessionId", OVal (VStr "<<ID>>")); ("value", OVal (VNum 5))]).
Proof.
  destruct (C6_custom_then_builtin_then_caller (Some caller_config)
              "sessionId" (VStr "abc123") "sessionId") as [_ H].
  destruct (H (mkRule (PatRegExp (Str.test_ends_i "id")) (VStr "<<ID>>") true)
              eq_refl eq_refl) as [Hfield Hloop].
  split; [ exact Hfield | reflexivity ].
Defined.

(** C10: when the first custom normalizer or rule that matches a field
    gives [undefined], [normalizeField] returns [undefined], which
    [normalize] reads as "no match": the property is set to the result of
    normalizing the field's own value at the field's path, and rules further
    down the list are not consulted. *)
Theorem C10_undefined_replacement_means_no_match :
  forall (fuel : nat) (h : Heap) (cfg : Config) (parent : string)
         (pre post : list (string * Value)) (key : string) (value : Value)
         (seen : gset loc) (acc : list (string * Out)),
    shouldIgnoreField cfg key (currentPath parent key) = false ->
    first_match_gives_undefined cfg key value (currentPath parent key) ->
    normalizeField cfg key value (currentPath parent key) = VUndefined
    /\ normalize_entries (normalize_aux fuel h cfg) cfg parent
         (pre ++ (key, value) :: post) seen acc =
       match normalize_entries (normalize_aux fuel h cfg) cfg parent pre seen acc with
       | None => None
       | Some (acc1, seen1) =>
           match normalize_aux fuel h cfg value (currentPath parent key) seen1 with
           | None => None
           | Some (o, seen2) =>
               normalize_entries (normalize_aux fuel h cfg) cfg parent post seen2
                 (set_prop acc1 key o)
           end
       end.
Proof.
  intros fuel h cfg parent pre post key value seen acc Hign Hfirst.
  assert (Hundef : normalizeField cfg key value (currentPath parent key) = VUndefined).
  { unfold normalizeField. rewrite firstCustom_find.
    unfold first_match_gives_undefined in Hfirst.
    destruct (firstMatchingCustom (customNormalizers cfg) key (currentPath parent key));
      [ exact Hfirst | ].
    rewrite firstRule_find.
    destruct (firstMatchingRule (fieldsToNormalize cfg) key (currentPath parent key));
      [ exact Hfirst | reflexivity ]. }
  split; [ exact Hundef | ].
  rewrite normalize_entries_app.
  destruct (normalize_entries (normalize_aux fuel h cfg) cfg parent pre seen acc)
    as [[acc1 seen1] | ]; [ | reflexivity ].
  simpl. rewrite Hign, Hundef. reflexivity.
Qed.

(** [{data: {n: 1}}] under a configuration whose first rule for [data] has
    no replacement and whose next rule for it says ["LATER"]: the inner
    object is normalized in place. *)
Lemma C10_undefined_replacement_means_no_match_witness :
  normalizeField (new_normalizer (Some caller_config)) "data" (VRef 2%nat) "data"
  = VUndefined
  /\ fst <$> normalize 3 data_heap (new_normalizer (Some caller_config)) (VRef 1%nat) ∅
     = Some (OObj [("data", OObj [("n", OVal (VNum 1))])]).
Proof.
  destruct (C10_undefined_replacement_means_no_match 2 data_heap
              (new_normalizer (Some caller_config)) "" [] [] "data" (VRef 2%nat)
              {[ 1%nat ]} [] eq_refl eq_refl) as [Hfield Hloop].
  split; [ exact Hfield | ].
  unfold normalize.
  change (normalize_aux 3 data_heap (new_normalizer (Some caller_config)) (VRef 1%nat) "" ∅)
    with (match normalize_entries
                  (normalize_aux 2 data_heap (new_normalizer (Some caller_config)))
                  (new_normalizer (Some caller_config)) ""
                  ([] ++ [("data", VRef 2%nat)]) {[ 1%nat ]} [] with
          | None => None
          | Some (es, seen') => Some (OObj es, seen')
          end).
  rewrite Hloop. reflexivity.
Defined.

End FieldRules.

(** ** Cycles, termination and idempotence of [normalize] *)

Section Cycles.
Import Normalizer Scenario.

Lemma normalize_aux_ref fuel h cfg l path seen :
  normalize_aux (S fuel) h cfg (VRef l) path seen =
  if bool_decide (l ∈ resetOnTopLevel path seen)
  then Some (OVal circular, resetOnTopLevel path seen)
  else
    match h !! l with
    | Some (HArray items) =>
        match normalize_items (normalize_aux fuel h cfg) path 0 items
                ({[l]} ∪ resetOnTopLevel path seen) with
        | None => None
        | Some (os, seen') => Some (OArr os, seen')
        end
    | Some (HObject entries) =>
        match normalize_entries (normalize_aux fuel h cfg) cfg path entries
                ({[l]} ∪ resetOnTopLevel path seen) [] with
        | None => None
        | Some (es, seen') => Some (OObj es, seen')
        end
    | None => Some (OObj [], {[l]} ∪ resetOnTopLevel path seen)
    end.
Proof. reflexivity. Qed.

Lemma normalize_aux_prim fuel h cfg v path seen :
  is_ref v = false ->
  normalize_aux (S fuel) h cfg v path seen = Some (OVal v, resetOnTopLevel path seen).
Proof. destruct v; simpl; intros H; try reflexivity; discriminate H. Qed.

(** A reference already in [seenObjects] is replaced by the marker. *)
Lemma seen_reference_is_marked fuel h cfg l path (seen : gset loc) :
  l ∈ resetOnTopLevel path seen ->
  normalize_aux (S fuel) h cfg (VRef l) path seen
  = Some (OVal circular, resetOnTopLevel path seen).
Proof.
  intros H. rewrite normalize_aux_ref, bool_decide_eq_true_2 by exact H.
  reflexivity.
Qed.

(** What an earlier call left in [seenObjects] has no effect on a
    top-level call. *)
Lemma normalize_forgets_earlier_calls fuel h cfg v (seen1 seen2 : gset loc) :
  normalize fuel h cfg v seen1 = normalize fuel h cfg v seen2.
Proof. destruct fuel; reflexivity. Qed.

(** C7 on [a[''] = a]: the nested call for the field [''] has the path
    [''] again, so it empties [seenObjects], does not recognise [a], and
    recurses; no amount of fuel lets the call return.  (On [a.self = a]
    the call returns [{self: "[Circular]"}].)  On [{a: s, '': s}] the second
    visit of [s] comes after such a reset and is not marked: [s] is
    normalized twice. *)
Theorem C7_empty_key_cycle_never_returns :
  (forall (fuel : nat) (seen : gset loc),
     normalize fuel empty_key_cycle DEFAULT_CONFIG (VRef 1%nat) seen = None)
  /\ fst <$> normalize 2 named_cycle DEFAULT_CONFIG (VRef 1%nat) ∅
     = Some (OObj [("self", OVal (VStr "[Circular]"))])
  /\ fst <$> normalize 3 shared_after_empty_key DEFAULT_CONFIG (VRef 1%nat) ∅
     = Some (OObj [("a", OObj [("n", OVal (VNum 1))]);
                   ("", OObj [("n", OVal (VNum 1))])]).
Proof.
  split; [ | split; reflexivity ].
  unfold normalize. induction fuel as [ | fuel IH ]; intros seen; [ reflexivity | ].
  rewrite normalize_aux_ref.
  change (resetOnTopLevel "" seen) with (∅ : gset loc).
  rewrite bool_decide_eq_false_2 by set_solver.
  change (empty_key_cycle !! 1%nat) with (Some (HObject [("", VRef 1%nat)])).
  cbv beta iota.
  change (normalize_entries (normalize_aux fuel empty_key_cycle DEFAULT_CONFIG)
            DEFAULT_CONFIG "" [("", VRef 1%nat)] ({[1%nat]} ∪ ∅) [])
    with (match normalize_aux fuel empty_key_cycle DEFAULT_CONFIG (VRef 1%nat) ""
                  ({[1%nat]} ∪ ∅) with
          | None => None
          | Some (o, seen1) => Some (set_prop [] "" o, seen1)
          end).
  rewrite IH. reflexivity.
Qed.

(** *** Termination on every graph, away from the empty key *)

Lemma indexPath_nonempty path index : indexPath path index <> "".
Proof. unfold indexPath. destruct path; discriminate. Qed.

Lemma currentPath_nonempty path key :
  path <> "" \/ key <> "" -> currentPath path key <> "".
Proof.
  unfold currentPath. destruct (String.eqb_spec path "") as [-> | Hne].
  - intros [H | H]; [ contradiction | exact H ].
  - intros _. destruct path; [ contradiction | discriminate ].
Qed.

Lemma resetOnTopLevel_nonempty path (seen : gset loc) :
  path <> "" -> resetOnTopLevel path seen = seen.
Proof.
  unfold resetOnTopLevel. destruct (String.eqb_spec path ""); [ contradiction | reflexivity ].
Qed.

Lemma unseen_antitone (h : Heap) (s s' : gset loc) m :
  s ⊆ s' -> (size (dom h ∖ s) <= m)%nat -> (size (dom h ∖ s') <= m)%nat.
Proof.
  intros Hsub Hm. etransitivity; [ | exact Hm ].
  apply subseteq_size. set_solver.
Qed.

Lemma normalize_items_returns h m rec path items :
  returns_within h m rec ->
  forall index (seen : gset loc),
    (size (dom h ∖ seen) <= m)%nat ->
    exists os s', normalize_items rec path index items seen = Some (os, s')
                  /\ seen ⊆ s'.
Proof.
  intros Hrec. induction items as [ | item rest IH ]; intros index seen Hm; simpl.
  - exists [], seen. split; [ reflexivity | set_solver ].
  - destruct (Hrec item (indexPath path index) seen (indexPath_nonempty _ _) Hm)
      as (o & s1 & -> & Hs1).
    destruct (IH (S index) s1 (unseen_antitone _ _ _ _ Hs1 Hm)) as (os & s2 & -> & Hs2).
    exists (o :: os), s2. split; [ reflexivity | set_solver ].
Qed.

Lemma normalize_entries_returns h m rec cfg path entries :
  returns_within h m rec ->
  Forall (fun kv => currentPath path (fst kv) <> "") entries ->
  forall (seen : gset loc) acc,
    (size (dom h ∖ seen) <= m)%nat ->
    exists es s', normalize_entries rec cfg path entries seen acc = Some (es, s')
                  /\ seen ⊆ s'.
Proof.
  intros Hrec. induction 1 as [ | [k v] rest Hk _ IH ]; intros seen acc Hm; simpl in *.
  - exists acc, seen. split; [ reflexivity | set_solver ].
  - destruct (shouldIgnoreField cfg k (currentPath path k)); [ apply IH, Hm | ].
    destruct (is_undefined (normalizeField cfg k v (currentPath path k)));
      [ | apply IH, Hm ].
    destruct (Hrec v (currentPath path k) seen Hk Hm) as (o & s1 & -> & Hs1).
    destruct (IH s1 (set_prop acc k o) (unseen_antitone _ _ _ _ Hs1 Hm))
      as (es & s2 & -> & Hs2).
    exists es, s2. split; [ reflexivity | set_solver ].
Qed.

Lemma normalize_aux_returns h cfg m :
  returns_within h m (normalize_aux (S m) h cfg).
Proof.
  induction m as [ | m IH ]; intros v p s Hp Hm.
  - destruct v;
      try (rewrite normalize_aux_prim, resetOnTopLevel_nonempty by (reflexivity || exact Hp);
           eexists _, _; split; [ reflexivity | set_solver ]).
    rewrite normalize_aux_ref, resetOnTopLevel_nonempty by exact Hp.
    destruct (bool_decide_reflect (l ∈ s)) as [Hin | Hnin];
      [ eexists _, _; split; [ reflexivity | set_solver ] | ].
    assert (Hnone : h !! l = None).
    { apply not_elem_of_dom. intros Hdom.
      assert (Hl : l ∈ dom h ∖ s) by set_solver.
      apply Nat.le_0_r, size_empty_inv in Hm. set_solver. }
    rewrite Hnone. eexists _, _. split; [ reflexivity | set_solver ].
  - destruct v;
      try (rewrite normalize_aux_prim, resetOnTopLevel_nonempty by (reflexivity || exact Hp);
           eexists _, _; split; [ reflexivity | set_solver ]).
    rewrite normalize_aux_ref, resetOnTopLevel_nonempty by exact Hp.
    destruct (bool_decide_reflect (l ∈ s)) as [Hin | Hnin];
      [ eexists _, _; split; [ reflexivity | set_solver ] | ].
    destruct (h !! l) as [obj | ] eqn:Hl;
      [ | eexists _, _; split; [ reflexivity | set_solver ] ].
    assert (Hm' : (size (dom h ∖ ({[l]} ∪ s)) <= m)%nat).
    { assert (Hdom : l ∈ dom h) by (apply elem_of_dom; eauto).
      assert (Hlt : dom h ∖ ({[l]} ∪ s) ⊂ dom h ∖ s) by set_solver.
      apply subset_size in Hlt. lia. }
    destruct obj as [items | entries].
    + destruct (normalize_items_returns h m _ p items IH 0%nat _ Hm')
        as (os & s' & -> & Hs').
      eexists _, _. split; [ reflexivity | set_solver ].
    + destruct (normalize_entries_returns h m _ cfg p entries IH) with
        (seen := {[l]} ∪ s) (acc := @nil (string * Out)) as (es & s' & -> & Hs').
      * apply Forall_forall. intros kv _. apply currentPath_nonempty. left. exact Hp.
      * exact Hm'.
      * eexists _, _. split; [ reflexivity | set_solver ].
Qed.

(** Apart from the empty key at the top, [normalize] returns on every
    object graph, cyclic or not, under every configuration. *)
Lemma normalize_returns_without_empty_key h cfg v (seen : gset loc) :
  no_empty_key h v ->
  exists r, normalize (S (S (size (dom h)))) h cfg v seen = Some r.
Proof.
  intros Hkey. unfold normalize.
  assert (Hrec := normalize_aux_returns h cfg (size (dom h))).
  destruct v; try (simpl; eauto; fail).
  rewrite normalize_aux_ref.
  change (resetOnTopLevel "" seen) with (∅ : gset loc).
  rewrite bool_decide_eq_false_2 by set_solver.
  assert (Hm : (size (dom h ∖ ({[l]} ∪ ∅)) <= size (dom h))%nat)
    by (apply subseteq_size; set_solver).
  simpl in Hkey.
  destruct (h !! l) as [[items | entries] | ]; [ | | eauto ].
  - destruct (normalize_items_returns h _ _ "" items Hrec 0%nat _ Hm)
      as (os & s' & -> & _). eauto.
  - destruct (normalize_entries_returns h _ _ cfg "" entries Hrec) with
      (seen := {[l]} ∪ (∅ : gset loc)) (acc := @nil (string * Out))
      as (es & s' & -> & _); [ | exact Hm | eauto ].
    apply Forall_forall. intros [k v] Hin. apply currentPath_nonempty. right.
    simpl. intros ->. apply Hkey. apply list_elem_of_fmap. exists ("", v). auto.
Qed.

(** *** Termination on acyclic values *)

Lemma normalize_items_total (rec : Value -> string -> gset loc -> option (Out * gset loc))
    path items :
  Forall (fun item => forall p s, is_Some (rec item p s)) items ->
  forall index seen, is_Some (normalize_items rec path index items seen).
Proof.
  induction 1 as [ | item rest Hitem _ IH ]; intros index seen; simpl.
  - eauto.
  - destruct (Hitem (indexPath path index) seen) as [[o seen1] ->].
    destruct (IH (S index) seen1) as [[os seen2] ->]. eauto.
Qed.

Lemma normalize_entries_total (rec : Value -> string -> gset loc -> option (Out * gset loc))
    cfg path entries :
  Forall (fun kv => forall p s, is_Some (rec (snd kv) p s)) entries ->
  forall seen acc, is_Some (normalize_entries rec cfg path entries seen acc).
Proof.
  induction 1 as [ | [k v] rest Hv _ IH ]; intros seen acc; simpl in *.
  - eauto.
  - destruct (shouldIgnoreField cfg k (currentPath path k)); [ apply IH | ].
    destruct (is_undefined (normalizeField cfg k v (currentPath path k)));
      [ | apply IH ].
    destruct (Hv (currentPath path k) seen) as [[o seen1] ->]. apply IH.
Qed.

(** On a value whose chains of references go through at most [n] objects,
    [n + 1] units of fuel are enough, under any configuration. *)
Lemma normalize_aux_total n h cfg v :
  depth_within h n v ->
  forall path seen, is_Some (normalize_aux (S n) h cfg v path seen).
Proof.
  revert v. induction n as [ | n IH ]; intros v Hd path seen.
  - destruct v; simpl in Hd; try solve [ simpl; eauto ]; contradiction.
  - destruct v; try solve [ simpl; eauto ].
    rewrite normalize_aux_ref.
    destruct (bool_decide _); [ eauto | ].
    simpl in Hd.
    destruct (h !! l) as [[items | entries] | ]; [ | | eauto ].
    + destruct (normalize_items_total (normalize_aux (S n) h cfg) path items)
        with (index := 0%nat) (seen := {[l]} ∪ resetOnTopLevel path seen)
        as [[os seen'] ->]; [ | eauto ].
      eapply Forall_impl; [ exact Hd | ]. intros item Hitem p s. apply IH, Hitem.
    + destruct (normalize_entries_total (normalize_aux (S n) h cfg) cfg path entries)
        with (seen := {[l]} ∪ resetOnTopLevel path seen) (acc := @nil (string * Out))
        as [[es seen'] ->]; [ | eauto ].
      eapply Forall_impl; [ exact Hd | ]. intros kv Hkv p s. apply IH, Hkv.
Qed.

(** *** What a call under the default configuration leaves behind *)

Lemma normalize_entries_default_cons
    (rec : Value -> string -> gset loc -> option (Out * gset loc))
    path k v rest seen acc :
  normalize_entries rec DEFAULT_CONFIG path ((k, v) :: rest) seen acc =
  if is_undefined (defaultRule k (currentPath path k)) then
    match rec v (currentPath path k) seen with
    | None => None
    | Some (o, seen1) =>
        normalize_entries rec DEFAULT_CONFIG path rest seen1 (set_prop acc k o)
    end
  else
    normalize_entries rec DEFAULT_CONFIG path rest seen
      (set_prop acc k (OVal (defaultRule k (currentPath path k)))).
Proof. reflexivity. Qed.

Lemma upsert_keys_in acc k x :
  k ∈ fst <$> acc -> fst <$> upsert acc k x = fst <$> acc.
Proof.
  induction acc as [ | [k' w] acc IH ]; simpl; intros Hin.
  - apply elem_of_nil in Hin. destruct Hin.
  - destruct (String.eqb_spec k' k) as [-> | Hne]; [ reflexivity | ].
    simpl. f_equal. apply IH.
    apply elem_of_cons in Hin as [-> | Hin]; [ contradiction | exact Hin ].
Qed.

Lemma upsert_fresh acc k x :
  k ∉ fst <$> acc -> upsert acc k x = (acc ++ [(k, x)])%list.
Proof.
  induction acc as [ | [k' w] acc IH ]; simpl; intros Hnin; [ reflexivity | ].
  destruct (String.eqb_spec k' k) as [-> | Hne].
  - exfalso. apply Hnin. left.
  - f_equal. apply IH. intros Hin. apply Hnin. right. exact Hin.
Qed.

Lemma upsert_normal_entries path acc k x :
  normal_entries normal_at path acc ->
  normal_field normal_at path k x ->
  normal_entries normal_at path (upsert acc k x).
Proof.
  intros Hacc Hx. induction acc as [ | [k' w] acc IH ]; simpl.
  - split; [ exact Hx | exact I ].
  - destruct Hacc as [Hw Hacc].
    destruct (String.eqb_spec k' k) as [-> | Hne]; simpl.
    + split; assumption.
    + split; [ exact Hw | apply IH; exact Hacc ].
Qed.

(** The invariant of the object under construction. *)
Lemma set_prop_normal path acc k x :
  NoDup (fst <$> acc) /\ ("__proto__" ∉ fst <$> acc)
  /\ normal_entries normal_at path acc ->
  normal_field normal_at path k x ->
  NoDup (fst <$> set_prop acc k x) /\ ("__proto__" ∉ fst <$> set_prop acc k x)
  /\ normal_entries normal_at path (set_prop acc k x).
Proof.
  intros (Hnd & Hproto & Hacc) Hx. unfold set_prop.
  destruct (String.eqb_spec k "__proto__") as [-> | Hk]; [ auto | ].
  destruct (decide (k ∈ fst <$> acc)) as [Hin | Hnin].
  - rewrite (upsert_keys_in _ _ _ Hin).
    split; [ exact Hnd | split; [ exact Hproto | ] ].
    apply upsert_normal_entries; assumption.
  - pose proof (upsert_fresh acc k x Hnin) as Hup.
    split; [ | split ].
    + rewrite Hup, fmap_app. simpl. apply NoDup_app. split; [ exact Hnd | ].
      split; [ | apply NoDup_singleton ].
      intros y Hy Hy'. apply list_elem_of_singleton in Hy' as ->. contradiction.
    + rewrite Hup, fmap_app. simpl. intros Hin.
      apply elem_of_app in Hin as [Hin | Hin]; [ contradiction | ].
      apply list_elem_of_singleton in Hin. congruence.
    + apply upsert_normal_entries; assumption.
Qed.

Lemma normalize_items_normal
    (rec : Value -> string -> gset loc -> option (Out * gset loc)) path :
  (forall item p s o s', rec item p s = Some (o, s') -> normal_at p o) ->
  forall items index seen os seen',
    normalize_items rec path index items seen = Some (os, seen') ->
    normal_items normal_at path index os.
Proof.
  intros Hrec. induction items as [ | item rest IH ]; intros index seen os seen' H;
    simpl in H.
  - injection H as <- <-. exact I.
  - destruct (rec item (indexPath path index) seen) as [[o seen1] | ] eqn:Eo;
      [ | discriminate ].
    destruct (normalize_items rec path (S index) rest seen1) as [[os' seen2] | ] eqn:Er;
      [ | discriminate ].
    injection H as <- <-. simpl. split; [ eapply Hrec, Eo | eapply IH, Er ].
Qed.

Lemma normalize_entries_normal
    (rec : Value -> string -> gset loc -> option (Out * gset loc)) path :
  (forall item p s o s', rec item p s = Some (o, s') -> normal_at p o) ->
  forall entries seen acc es seen',
    normalize_entries rec DEFAULT_CONFIG path entries seen acc = Some (es, seen') ->
    NoDup (fst <$> acc) /\ ("__proto__" ∉ fst <$> acc)
    /\ normal_entries normal_at path acc ->
    NoDup (fst <$> es) /\ ("__proto__" ∉ fst <$> es)
    /\ normal_entries normal_at path es.
Proof.
  intros Hrec. induction entries as [ | [k v] rest IH ]; intros seen acc es seen' H Hacc.
  - simpl in H. injection H as <- <-. exact Hacc.
  - rewrite normalize_entries_default_cons in H.
    destruct (is_undefined (defaultRule k (currentPath path k))) eqn:Eu.
    + destruct (rec v (currentPath path k) seen) as [[o seen1] | ] eqn:Eo;
        [ | discriminate ].
      eapply IH; [ exact H | ]. apply set_prop_normal; [ exact Hacc | ].
      unfold normal_field. rewrite Eu. eapply Hrec, Eo.
    + eapply IH; [ exact H | ]. apply set_prop_normal; [ exact Hacc | ].
      unfold normal_field. rewrite Eu. reflexivity.
Qed.

(** The result of a call at [path] is normal at [path]. *)
Lemma normalize_aux_normal fuel h :
  forall v path seen o seen',
    normalize_aux fuel h DEFAULT_CONFIG v path seen = Some (o, seen') ->
    normal_at path o.
Proof.
  induction fuel as [ | fuel IH ]; intros v path seen o seen' H; [ discriminate | ].
  destruct v;
    try (rewrite normalize_aux_prim in H by reflexivity;
         injection H as <- <-; reflexivity).
  rewrite normalize_aux_ref in H.
  destruct (bool_decide _); [ injection H as <- <-; reflexivity | ].
  destruct (h !! l) as [[items | entries] | ].
  - destruct (normalize_items _ _ _ _ _) as [[os seen1] | ] eqn:Ei; [ | discriminate ].
    injection H as <- <-. simpl.
    eapply normalize_items_normal; [ | exact Ei ]. exact IH.
  - destruct (normalize_entries _ _ _ _ _ _) as [[es seen1] | ] eqn:Ee; [ | discriminate ].
    injection H as <- <-. simpl.
    eapply normalize_entries_normal; [ exact IH | exact Ee | ].
    simpl. split; [ constructor | split; [ apply not_elem_of_nil | exact I ] ].
  - injection H as <- <-. simpl.
    split; [ constructor | split; [ apply not_elem_of_nil | exact I ] ].
Qed.

(** *** Results put back in the heap *)

Lemma Out_nested_ind (P : Out -> Prop) :
  (forall v, P (OVal v)) ->
  (forall items, Forall P items -> P (OArr items)) ->
  (forall entries, Forall (fun kv => P (snd kv)) entries -> P (OObj entries)) ->
  forall o, P o.
Proof.
  intros Hv Ha Ho. fix IH 1. intros [v | items | entries].
  - apply Hv.
  - apply Ha. induction items as [ | o rest IHl ]; constructor;
      [ apply IH | exact IHl ].
  - apply Ho. induction entries as [ | [k o] rest IHl ]; constructor;
      [ apply IH | exact IHl ].
Qed.

Lemma stored_items_impl (P Q : Out -> Value -> gset loc -> Prop) outs :
  Forall (fun o => forall v L, P o v L -> Q o v L) outs ->
  forall items L, stored_items P outs items L -> stored_items Q outs items L.
Proof.
  induction 1 as [ | o outs Ho _ IH ]; intros [ | v items ] L H; simpl in *;
    try assumption.
  destruct H as (L1 & L2 & H1 & H2 & Hd & ->).
  exists L1, L2. auto.
Qed.

Lemma stored_entries_impl (P Q : Out -> Value -> gset loc -> Prop) outs :
  Forall (fun kv => forall v L, P (snd kv) v L -> Q (snd kv) v L) outs ->
  forall entries L, stored_entries P outs entries L -> stored_entries Q outs entries L.
Proof.
  induction 1 as [ | [k o] outs Ho _ IH ]; intros [ | [k' v] entries ] L H;
    simpl in *; try assumption.
  destruct H as (-> & L1 & L2 & H1 & H2 & Hd & ->).
  split; [ reflexivity | ]. exists L1, L2. auto.
Qed.

Lemma stored_at_mono (h h' : Heap) :
  h ⊆ h' -> forall o v L, stored_at h o v L -> stored_at h' o v L.
Proof.
  intros Hsub. induction o as [ w | outs IH | outs IH ] using Out_nested_ind;
    intros v L H; simpl in *.
  - exact H.
  - destruct H as (l & items & L' & -> & Hl & Hn & -> & Hitems).
    exists l, items, L'. repeat split; try assumption.
    + eapply lookup_weaken; eassumption.
    + eapply stored_items_impl; [ | exact Hitems ]. exact IH.
  - destruct H as (l & entries & L' & -> & Hl & Hn & -> & Hentries).
    exists l, entries, L'. repeat split; try assumption.
    + eapply lookup_weaken; eassumption.
    + eapply stored_entries_impl; [ | exact Hentries ]. exact IH.
Qed.

Lemma store_items_spec outs :
  Forall store_ok outs ->
  forall h : Heap,
    exists L, stored_items (stored_at (snd (store_items store outs h))) outs
                (fst (store_items store outs h)) L
              /\ L ## dom h /\ L ⊆ dom (snd (store_items store outs h))
              /\ h ⊆ snd (store_items store outs h).
Proof.
  induction 1 as [ | o outs Ho _ IH ]; intros h; simpl.
  - exists ∅. repeat split; set_solver.
  - destruct (Ho h) as (L1 & Hs1 & Hd1 & Hin1 & Hsub1).
    destruct (store o h) as [v h1]. simpl in *.
    destruct (IH h1) as (L2 & Hs2 & Hd2 & Hin2 & Hsub2).
    destruct (store_items store outs h1) as [vs h2]. simpl in *.
    pose proof (subseteq_dom _ _ Hsub1) as Hdom1.
    pose proof (subseteq_dom _ _ Hsub2) as Hdom2.
    exists (L1 ∪ L2). split; [ | split; [ | split ] ].
    + exists L1, L2. split; [ eapply stored_at_mono; eassumption | ].
      split; [ exact Hs2 | ]. split; [ set_solver | reflexivity ].
    + set_solver.
    + set_solver.
    + etransitivity; eassumption.
Qed.

Lemma store_entries_spec outs :
  Forall (fun kv => store_ok (snd kv)) outs ->
  forall h : Heap,
    exists L, stored_entries (stored_at (snd (store_entries store outs h))) outs
                (fst (store_entries store outs h)) L
              /\ L ## dom h /\ L ⊆ dom (snd (store_entries store outs h))
              /\ h ⊆ snd (store_entries store outs h).
Proof.
  induction 1 as [ | [k o] outs Ho _ IH ]; intros h; simpl.
  - exists ∅. repeat split; set_solver.
  - simpl in Ho. destruct (Ho h) as (L1 & Hs1 & Hd1 & Hin1 & Hsub1).
    destruct (store o h) as [v h1]. simpl in *.
    destruct (IH h1) as (L2 & Hs2 & Hd2 & Hin2 & Hsub2).
    destruct (store_entries store outs h1) as [vs h2]. simpl in *.
    pose proof (subseteq_dom _ _ Hsub1) as Hdom1.
    pose proof (subseteq_dom _ _ Hsub2) as Hdom2.
    exists (L1 ∪ L2). split; [ | split; [ | split ] ].
    + split; [ reflexivity | ]. exists L1, L2.
      split; [ eapply stored_at_mono; eassumption | ].
      split; [ exact Hs2 | ]. split; [ set_solver | reflexivity ].
    + set_solver.
    + set_solver.
    + etransitivity; eassumption.
Qed.

(** [store] builds the result from new objects, each used once, and leaves
    the objects of the heap as they are. *)
Lemma store_spec o : store_ok o.
Proof.
  induction o as [ w | outs IH | outs IH ] using Out_nested_ind; intros h.
  - exists ∅. simpl. repeat split; set_solver.
  - destruct (store_items_spec outs IH h) as (L & Hs & Hd & Hin & Hsub).
    simpl. destruct (store_items store outs h) as [vs h1]. simpl in *.
    pose proof (is_fresh (dom h1)) as Hfresh.
    pose proof (subseteq_dom _ _ Hsub) as Hdom.
    assert (Hsub1 : h1 ⊆ <[fresh (dom h1) := HArray vs]> h1).
    { apply insert_subseteq. apply not_elem_of_dom. exact Hfresh. }
    exists ({[fresh (dom h1)]} ∪ L). split; [ | split; [ | split ] ].
    + exists (fresh (dom h1)), vs, L.
      split; [ reflexivity | ]. split; [ apply lookup_insert_eq | ].
      split; [ set_solver | ]. split; [ reflexivity | ].
      eapply stored_items_impl; [ | exact Hs ].
      apply Forall_forall. intros o _ v L0. apply stored_at_mono. exact Hsub1.
    + set_solver.
    + rewrite dom_insert_L. set_solver.
    + etransitivity; eassumption.
  - destruct (store_entries_spec outs IH h) as (L & Hs & Hd & Hin & Hsub).
    simpl. destruct (store_entries store outs h) as [vs h1]. simpl in *.
    pose proof (is_fresh (dom h1)) as Hfresh.
    pose proof (subseteq_dom _ _ Hsub) as Hdom.
    assert (Hsub1 : h1 ⊆ <[fresh (dom h1) := HObject vs]> h1).
    { apply insert_subseteq. apply not_elem_of_dom. exact Hfresh. }
    exists ({[fresh (dom h1)]} ∪ L). split; [ | split; [ | split ] ].
    + exists (fresh (dom h1)), vs, L.
      split; [ reflexivity | ]. split; [ apply lookup_insert_eq | ].
      split; [ set_solver | ]. split; [ reflexivity | ].
      eapply stored_entries_impl; [ | exact Hs ].
      apply Forall_forall. intros kv _ v L0. apply stored_at_mono. exact Hsub1.
    + set_solver.
    + rewrite dom_insert_L. set_solver.
    + etransitivity; eassumption.
Qed.

(** *** A second call on the result of a first *)

Lemma resetOnTopLevel_subseteq path (seen : gset loc) :
  resetOnTopLevel path seen ⊆ seen.
Proof. unfold resetOnTopLevel. destruct (String.eqb path ""); set_solver. Qed.

Lemma height_items_lt outs f :
  (list_max (List.map height outs) < f)%nat ->
  Forall (fun o => (height o < f)%nat) outs.
Proof.
  induction outs as [ | o outs IH ]; simpl; intros H; constructor.
  - lia.
  - apply IH. lia.
Qed.

Lemma height_entries_lt (outs : list (string * Out)) f :
  (list_max (List.map (fun kv => height (snd kv)) outs) < f)%nat ->
  Forall (fun kv => (height (snd kv) < f)%nat) outs.
Proof.
  induction outs as [ | [k o] outs IH ]; simpl; intros H; constructor.
  - simpl. lia.
  - apply IH. lia.
Qed.

Lemma second_call_items h f path outs :
  Forall (second_call_ok h) outs ->
  forall items L index seen,
    stored_items (stored_at h) outs items L ->
    normal_items normal_at path index outs ->
    Forall (fun o => (height o < f)%nat) outs ->
    seen ## L ->
    exists seen',
      normalize_items (normalize_aux f h DEFAULT_CONFIG) path index items seen
      = Some (outs, seen')
      /\ seen' ⊆ seen ∪ L.
Proof.
  induction 1 as [ | o outs Ho _ IH ]; intros [ | v items ] L index seen Hs Hn Hh Hd;
    simpl in Hs; try contradiction.
  - subst L. exists seen. split; [ reflexivity | set_solver ].
  - destruct Hs as (L1 & L2 & Hs1 & Hs2 & Hd12 & ->).
    destruct Hn as [Hn1 Hn2]. apply Forall_cons in Hh as [Hh1 Hh2].
    pose proof (resetOnTopLevel_subseteq (indexPath path index) seen) as Hreset.
    destruct (Ho f v L1 (indexPath path index) seen Hh1 Hs1 Hn1) as (seen1 & E1 & Hsub1);
      [ set_solver | ].
    destruct (IH items L2 (S index) seen1 Hs2 Hn2 Hh2) as (seen2 & E2 & Hsub2);
      [ set_solver | ].
    exists seen2. simpl. rewrite E1, E2. split; [ reflexivity | set_solver ].
Qed.

Lemma second_call_entries h f path outs :
  Forall (fun kv => second_call_ok h (snd kv)) outs ->
  forall entries L seen acc,
    stored_entries (stored_at h) outs entries L ->
    normal_entries normal_at path outs ->
    NoDup (fst <$> (acc ++ outs)%list) ->
    "__proto__" ∉ fst <$> outs ->
    Forall (fun kv => (height (snd kv) < f)%nat) outs ->
    seen ## L ->
    exists seen',
      normalize_entries (normalize_aux f h DEFAULT_CONFIG) DEFAULT_CONFIG path
        entries seen acc
      = Some ((acc ++ outs)%list, seen')
      /\ seen' ⊆ seen ∪ L.
Proof.
  induction 1 as [ | [k o] outs Ho _ IH ];
    intros [ | [k' v] entries ] L seen acc Hs Hn Hnd Hproto Hh Hd;
    simpl in Hs; try contradiction.
  - subst L. exists seen. rewrite app_nil_r. split; [ reflexivity | set_solver ].
  - destruct Hs as (<- & L1 & L2 & Hs1 & Hs2 & Hd12 & ->).
    destruct Hn as [Hn1 Hn2]. apply Forall_cons in Hh as [Hh1 Hh2].
    simpl in Ho, Hh1.
    assert (Hk : k ∉ fst <$> acc).
    { rewrite fmap_app in Hnd. apply NoDup_app in Hnd as (_ & Hnd & _).
      intros Hin. apply (Hnd k Hin). left. }
    assert (Hset : forall x, set_prop acc k x = (acc ++ [(k, x)])%list).
    { intros x. unfold set_prop.
      destruct (String.eqb_spec k "__proto__") as [-> | _].
      - exfalso. apply Hproto. left.
      - apply upsert_fresh. exact Hk. }
    assert (Hnd' : forall x, NoDup (fst <$> ((acc ++ [(k, x)]) ++ outs)%list)).
    { intros x. rewrite <- app_assoc. simpl.
      rewrite fmap_app in Hnd |- *. exact Hnd. }
    assert (Hproto' : "__proto__" ∉ fst <$> outs).
    { intros Hin. apply Hproto. right. exact Hin. }
    assert (Hres : forall x, ((acc ++ [(k, x)]) ++ outs = acc ++ (k, x) :: outs)%list).
    { intros x. rewrite <- app_assoc. reflexivity. }
    rewrite normalize_entries_default_cons.
    unfold normal_field in Hn1.
    destruct (is_undefined (defaultRule k (currentPath path k))).
    + pose proof (resetOnTopLevel_subseteq (currentPath path k) seen) as Hreset.
      destruct (Ho f v L1 (currentPath path k) seen Hh1 Hs1 Hn1) as (seen1 & E1 & Hsub1);
        [ set_solver | ].
      rewrite E1, Hset.
      destruct (IH entries L2 seen1 (acc ++ [(k, o)])%list Hs2 Hn2 (Hnd' o) Hproto' Hh2)
        as (seen2 & E2 & Hsub2); [ set_solver | ].
      exists seen2. rewrite E2, Hres. split; [ reflexivity | set_solver ].
    + subst o. rewrite Hset.
      destruct (IH entries L2 seen (acc ++ [(k, OVal (defaultRule k (currentPath path k)))])%list
                  Hs2 Hn2 (Hnd' _) Hproto' Hh2)
        as (seen2 & E2 & Hsub2); [ set_solver | ].
      exists seen2. rewrite E2, Hres. split; [ reflexivity | set_solver ].
Qed.

Lemma second_call h o : second_call_ok h o.
Proof.
  induction o as [ w | outs IH | outs IH ] using Out_nested_ind;
    intros fuel v L path seen Hfuel Hs Hn Hd;
    (destruct fuel as [ | f ]; [ lia | ]); simpl in Hs, Hn, Hfuel.
  - destruct Hs as [-> ->]. rewrite normalize_aux_prim by exact Hn.
    eexists. split; [ reflexivity | set_solver ].
  - destruct Hs as (l & items & L' & -> & Hl & Hnin & -> & Hitems).
    rewrite normalize_aux_ref, bool_decide_eq_false_2 by set_solver.
    rewrite Hl.
    destruct (second_call_items h f path outs IH items L' 0%nat
                ({[l]} ∪ resetOnTopLevel path seen) Hitems Hn)
      as (seen1 & E1 & Hsub1);
      [ apply height_items_lt; lia | set_solver | ].
    rewrite E1. eexists. split; [ reflexivity | set_solver ].
  - destruct Hs as (l & entries & L' & -> & Hl & Hnin & -> & Hentries).
    destruct Hn as (Hnd & Hproto & Hn).
    rewrite normalize_aux_ref, bool_decide_eq_false_2 by set_solver.
    rewrite Hl.
    destruct (second_call_entries h f path outs IH entries L'
                ({[l]} ∪ resetOnTopLevel path seen) [] Hentries Hn Hnd Hproto)
      as (seen1 & E1 & Hsub1);
      [ apply height_entries_lt; lia | set_solver | ].
    rewrite E1. eexists. split; [ reflexivity | set_solver ].
Qed.

(** C9: on an acyclic value [x], whatever an earlier call left in
    [seenObjects], [normalize] under the default configuration returns a
    result [o]; and [normalize] applied to that result, once it is a value
    of the heap again, returns [o] itself. *)
Theorem C9_normalize_idempotent_on_acyclic :
  forall (h : Heap) (x : Value),
    acyclic h x ->
    forall seen : gset loc,
    exists (fuel : nat) (o : Out) (seen1 : gset loc),
      normalize fuel h DEFAULT_CONFIG x seen = Some (o, seen1)
      /\ exists (fuel' : nat) (seen2 : gset loc),
           normalize fuel' (snd (store o h)) DEFAULT_CONFIG (fst (store o h)) seen1
           = Some (o, seen2).
Proof.
  intros h x [n Hn] seen.
  destruct (normalize_aux_total n h DEFAULT_CONFIG x Hn "" seen) as [[o seen1] E1].
  exists (S n), o, seen1. split; [ exact E1 | ].
  pose proof (normalize_aux_normal _ _ _ _ _ _ _ E1) as Hnormal.
  destruct (store_spec o h) as (L & Hstored & _).
  destruct (second_call (snd (store o h)) o (S (height o)) (fst (store o h)) L ""
              seen1 (Nat.lt_succ_diag_r _) Hstored Hnormal) as (seen2 & E2 & _).
  { change (resetOnTopLevel "" seen1) with (∅ : gset loc). set_solver. }
  exists (S (height o)), seen2. exact E2.
Qed.

(** [{items: [{createdAt: 7, tags: ["x"]}], requestId: "r1"}], normalized
    once and twice. *)
Lemma C9_normalize_idempotent_on_acyclic_witness :
  acyclic nested_heap (VRef 1%nat)
  /\ exists (fuel : nat) (o : Out) (seen1 : gset loc),
       normalize fuel nested_heap DEFAULT_CONFIG (VRef 1%nat) ∅ = Some (o, seen1)
       /\ exists (fuel' : nat) (seen2 : gset loc),
            normalize fuel' (snd (store o nested_heap)) DEFAULT_CONFIG
              (fst (store o nested_heap)) seen1
            = Some (o, seen2).
Proof.
  assert (Hacyclic : acyclic nested_heap (VRef 1%nat)).
  { exists 4%nat. vm_compute. repeat constructor. }
  split; [ exact Hacyclic | ].
  exact (C9_normalize_idempotent_on_acyclic nested_heap (VRef 1%nat) Hacyclic ∅).
Defined.

Example normalize_nested_once :
  fst <$> normalize 5 nested_heap DEFAULT_CONFIG (VRef 1%nat) ∅
  = Some (OObj [("items",
                 OArr [OObj [("createdAt", OVal (VStr "<<TIMESTAMP>>"));
                             ("tags", OArr [OVal (VStr "x")])]]);
                ("requestId", OVal (VStr "<<ID>>"))]).
Proof. vm_compute. reflexivity. Qed.

End Cycles.

(** ** The shape of what [normalize] builds *)

Section Shape.
Import Normalizer Comparator.






Lemma normalize_items_length
    (rec : Value -> string -> gset loc -> option (Out * gset loc)) path :
  forall items index seen os s',
    normalize_items rec path index items seen = Some (os, s') ->
    List.length os = List.length items.
Proof.
  induction items as [ | item rest IH ]; intros index seen os s' H; simpl in H.
  - injection H as <- <-. reflexivity.
  - destruct (rec item (indexPath path index) seen) as [[o s1] | ]; [ | discriminate ].
    destruct (normalize_items rec path (S index) rest s1) as [[os' s2] | ] eqn:Er;
      [ | discriminate ].
    injection H as <- <-. simpl. f_equal. eapply IH, Er.
Qed.

(** An array comes out as an array of the same length, or, when it has
    been seen before, as the marker: no item is dropped, whatever the
    configuration ignores. *)
Theorem array_keeps_its_length :
  forall fuel h cfg l path seen items o seen',
    h !! l = Some (HArray items) ->
    normalize_aux fuel h cfg (VRef l) path seen = Some (o, seen') ->
    (l ∈ resetOnTopLevel path seen /\ o = OVal circular)
    \/ ((l ∉ resetOnTopLevel path seen)
        /\ exists os, o = OArr os /\ List.length os = List.length items).
Proof.
  intros [ | fuel ] h cfg l path seen items o seen' Hl H; [ discriminate | ].
  rewrite normalize_aux_ref, Hl in H.
  destruct (bool_decide_reflect (l ∈ resetOnTopLevel path seen)) as [Hin | Hnin].
  - injection H as <- <-. left. auto.
  - destruct (normalize_items _ _ _ _ _) as [[os s1] | ] eqn:Ei; [ | discriminate ].
    injection H as <- <-. right. split; [ exact Hnin | ].
    exists os. split; [ reflexivity | eapply normalize_items_length, Ei ].
Qed.

Lemma normalize_entries_keys
    (rec : Value -> string -> gset loc -> option (Out * gset loc)) cfg path :
  forall entries seen acc es s',
    normalize_entries rec cfg path entries seen acc = Some (es, s') ->
    NoDup ((fst <$> acc) ++ (fst <$> entries)) ->
    "__proto__" ∉ fst <$> entries ->
    fst <$> es =
    ((fst <$> acc) ++
     List.filter (fun k => negb (shouldIgnoreField cfg k (currentPath path k)))
                 (fst <$> entries))%list.
Proof.
  induction entries as [ | [k v] rest IH ]; intros seen acc es s' H Hnd Hproto;
    simpl in H.
  - injection H as <- <-. simpl. rewrite app_nil_r. reflexivity.
  - simpl in Hnd, Hproto.
    assert (Hproto' : "__proto__" ∉ fst <$> rest).
    { intros Hin. apply Hproto. right. exact Hin. }
    assert (Hk : k ∉ fst <$> acc).
    { apply NoDup_app in Hnd as (_ & Hnd & _). intros Hin. apply (Hnd k Hin). left. }
    assert (Hset : forall x, set_prop acc k x = (acc ++ [(k, x)])%list).
    { intros x. unfold set_prop.
      destruct (String.eqb_spec k "__proto__") as [-> | _].
      - exfalso. apply Hproto. left.
      - apply upsert_fresh. exact Hk. }
    assert (Hnd' : forall x, NoDup ((fst <$> (acc ++ [(k, x)])%list) ++ (fst <$> rest))).
    { intros x. rewrite fmap_app. simpl. rewrite <- app_assoc. exact Hnd. }
    assert (Hskip : NoDup ((fst <$> acc) ++ (fst <$> rest))).
    { apply NoDup_app in Hnd as (Ha & Hd & Hr). apply NoDup_cons in Hr as [_ Hr].
      apply NoDup_app. split; [ exact Ha | ]. split; [ | exact Hr ].
      intros y Hy Hy'. apply (Hd y Hy). right. exact Hy'. }
    simpl. destruct (shouldIgnoreField cfg k (currentPath path k)); simpl.
    + eapply IH; eassumption.
    + destruct (is_undefined (normalizeField cfg k v (currentPath path k))).
      * destruct (rec v (currentPath path k) seen) as [[o s1] | ]; [ | discriminate ].
        rewrite Hset in H. rewrite (IH _ _ _ _ H (Hnd' o) Hproto').
        rewrite fmap_app. simpl. rewrite <- app_assoc. reflexivity.
      * rewrite Hset in H. rewrite (IH _ _ _ _ H (Hnd' _) Hproto').
        rewrite fmap_app. simpl. rewrite <- app_assoc. reflexivity.
Qed.

(** An object that is met for the first time comes out as an object with
    the keys of the input that are not ignored, in the same order. *)
Theorem object_keeps_its_keys :
  forall fuel h cfg l path seen entries o seen',
    h !! l = Some (HObject entries) ->
    NoDup (fst <$> entries) ->
    "__proto__" ∉ fst <$> entries ->
    l ∉ resetOnTopLevel path seen ->
    normalize_aux fuel h cfg (VRef l) path seen = Some (o, seen') ->
    exists es,
      o = OObj es
      /\ fst <$> es =
         List.filter (fun k => negb (shouldIgnoreField cfg k (currentPath path k)))
                     (fst <$> entries).
Proof.
  intros [ | fuel ] h cfg l path seen entries o seen' Hl Hnd Hproto Hnin H;
    [ discriminate | ].
  rewrite normalize_aux_ref, Hl, bool_decide_eq_false_2 in H by exact Hnin.
  destruct (normalize_entries _ _ _ _ _ _) as [[es s1] | ] eqn:Ee; [ | discriminate ].
  injection H as <- <-. exists es. split; [ reflexivity | ].
  apply (normalize_entries_keys _ _ _ _ _ _ _ _ Ee); assumption.
Qed.

(** *** References met twice *)

Lemma normalize_items_grows
    (rec : Value -> string -> gset loc -> option (Out * gset loc)) path :
  (forall v p (s : gset loc) o s', p <> "" -> rec v p s = Some (o, s') -> s ⊆ s') ->
  forall items index (seen : gset loc) os s',
    normalize_items rec path index items seen = Some (os, s') -> seen ⊆ s'.
Proof.
  intros Hrec. induction items as [ | item rest IH ]; intros index seen os s' H;
    simpl in H.
  - injection H as <- <-. set_solver.
  - destruct (rec item (indexPath path index) seen) as [[o s1] | ] eqn:Eo;
      [ | discriminate ].
    destruct (normalize_items rec path (S index) rest s1) as [[os' s2] | ] eqn:Er;
      [ | discriminate ].
    injection H as <- <-.
    pose proof (Hrec _ _ _ _ _ (indexPath_nonempty _ _) Eo).
    pose proof (IH _ _ _ _ Er). set_solver.
Qed.

Lemma normalize_entries_grows
    (rec : Value -> string -> gset loc -> option (Out * gset loc)) cfg path :
  path <> "" ->
  (forall v p (s : gset loc) o s', p <> "" -> rec v p s = Some (o, s') -> s ⊆ s') ->
  forall entries (seen : gset loc) acc es s',
    normalize_entries rec cfg path entries seen acc = Some (es, s') -> seen ⊆ s'.
Proof.
  intros Hpath Hrec.
  induction entries as [ | [k v] rest IH ]; intros seen acc es s' H; simpl in H.
  - injection H as <- <-. set_solver.
  - destruct (shouldIgnoreField cfg k (currentPath path k)); [ eapply IH, H | ].
    destruct (is_undefined (normalizeField cfg k v (currentPath path k)));
      [ | eapply IH, H ].
    destruct (rec v (currentPath path k) seen) as [[o s1] | ] eqn:Eo; [ | discriminate ].
    assert (Hcp : currentPath path k <> "") by (apply currentPath_nonempty; auto).
    pose proof (Hrec _ _ _ _ _ Hcp Eo). pose proof (IH _ _ _ _ H). set_solver.
Qed.

(** Away from the top level a call only adds to [seenObjects], and a
    reference it is called on is in the set afterwards. *)
Lemma normalize_aux_grows fuel h cfg :
  forall v p (s : gset loc) o s',
    p <> "" -> normalize_aux fuel h cfg v p s = Some (o, s') ->
    s ⊆ s' /\ forall l, v = VRef l -> l ∈ s'.
Proof.
  induction fuel as [ | fuel IH ]; intros v p s o s' Hp H; [ discriminate | ].
  destruct v;
    try (rewrite normalize_aux_prim, resetOnTopLevel_nonempty in H
           by (reflexivity || exact Hp);
         injection H as <- <-; split; [ set_solver | discriminate ]).
  rewrite normalize_aux_ref, resetOnTopLevel_nonempty in H by exact Hp.
  assert (Hrec : forall v p (s : gset loc) o s',
            p <> "" -> normalize_aux fuel h cfg v p s = Some (o, s') -> s ⊆ s').
  { intros v0 p0 s0 o0 s0' Hp0 H0. apply (IH _ _ _ _ _ Hp0 H0). }
  assert (Hgoal : s ⊆ s' /\ l ∈ s');
    [ | destruct Hgoal; split; [ assumption | intros ? [= ->]; assumption ] ].
  destruct (bool_decide_reflect (l ∈ s)) as [Hin | Hnin].
  - injection H as <- <-. split; [ set_solver | exact Hin ].
  - destruct (h !! l) as [[items | entries] | ].
    + destruct (normalize_items _ _ _ _ _) as [[os s1] | ] eqn:Ei; [ | discriminate ].
      injection H as <- <-.
      pose proof (normalize_items_grows _ _ Hrec _ _ _ _ _ Ei). set_solver.
    + destruct (normalize_entries _ _ _ _ _ _) as [[es s1] | ] eqn:Ee; [ | discriminate ].
      injection H as <- <-.
      pose proof (normalize_entries_grows _ _ _ Hp Hrec _ _ _ _ _ Ee). set_solver.
    + injection H as <- <-. set_solver.
Qed.

Lemma normalize_items_marks fuel h cfg path l :
  forall items index (seen : gset loc) os s',
    normalize_items (normalize_aux fuel h cfg) path index items seen = Some (os, s') ->
    forall j,
      items !! j = Some (VRef l) ->
      l ∈ seen \/ (exists i, (i < j)%nat /\ items !! i = Some (VRef l)) ->
      os !! j = Some (OVal circular).
Proof.
  induction items as [ | item rest IH ]; intros index seen os s' H j Hj Hbefore;
    simpl in H.
  - rewrite lookup_nil in Hj. discriminate.
  - destruct (normalize_aux fuel h cfg item (indexPath path index) seen)
      as [[o s1] | ] eqn:Eo; [ | discriminate ].
    destruct (normalize_items _ path (S index) rest s1) as [[os' s2] | ] eqn:Er;
      [ | discriminate ].
    injection H as <- <-.
    destruct (normalize_aux_grows _ _ _ _ _ _ _ _ (indexPath_nonempty _ _) Eo)
      as [Hsub Hown].
    destruct j as [ | j ]; simpl in Hj |- *.
    + injection Hj as ->. destruct Hbefore as [Hin | (i & Hi & _)]; [ | lia ].
      destruct fuel as [ | fuel ]; [ discriminate | ].
      rewrite seen_reference_is_marked in Eo
        by (rewrite resetOnTopLevel_nonempty by apply indexPath_nonempty; exact Hin).
      injection Eo as <- <-. reflexivity.
    + apply (IH _ _ _ _ Er j Hj).
      destruct Hbefore as [Hin | (i & Hi & Hitem)]; [ left; set_solver | ].
      destruct i as [ | i ]; simpl in Hitem.
      * injection Hitem as ->. left. apply Hown. reflexivity.
      * right. exists i. split; [ lia | exact Hitem ].
Qed.

(** In an array, every occurrence of a reference after its first one comes
    out as the marker ["[Circular]"], although nothing need be cyclic: the
    marker means "already visited in this call". *)
Theorem repeated_reference_in_array_is_marked :
  forall fuel h cfg l0 l items (i j : nat) seen o seen',
    h !! l0 = Some (HArray items) ->
    items !! i = Some (VRef l) ->
    items !! j = Some (VRef l) ->
    (i < j)%nat ->
    normalize fuel h cfg (VRef l0) seen = Some (o, seen') ->
    exists os, o = OArr os /\ os !! j = Some (OVal circular).
Proof.
  intros [ | fuel ] h cfg l0 l items i j seen o seen' Hl0 Hi Hj Hij H;
    [ discriminate | ].
  unfold normalize in H. rewrite normalize_aux_ref, Hl0 in H.
  change (resetOnTopLevel "" seen) with (∅ : gset loc) in H.
  rewrite bool_decide_eq_false_2 in H by set_solver.
  destruct (normalize_items _ _ _ _ _) as [[os s1] | ] eqn:Ei; [ | discriminate ].
  injection H as <- <-. exists os. split; [ reflexivity | ].
  eapply normalize_items_marks; [ exact Ei | exact Hj | ].
  right. exists i. auto.
Qed.

(** *** Keys that end in "id" *)

Lemma lower_app a b : Str.lower (a +:+ b) = Str.lower a +:+ Str.lower b.
Proof. induction a as [ | c a IH ]; simpl; [ reflexivity | rewrite IH; reflexivity ]. Qed.

Lemma endsWith_unfold lit s :
  Str.endsWith lit s =
  String.eqb lit s || match s with
                      | EmptyString => false
                      | String _ s' => Str.endsWith lit s'
                      end.
Proof. destruct s; reflexivity. Qed.

Lemma endsWith_app lit pre : Str.endsWith lit (pre +:+ lit) = true.
Proof.
  induction pre as [ | c pre IH ].
  - change ("" +:+ lit) with lit. rewrite endsWith_unfold, String.eqb_refl. reflexivity.
  - change (String c pre +:+ lit) with (String c (pre +:+ lit)).
    rewrite endsWith_unfold, IH. apply orb_true_r.
Qed.

(** Under the default configuration every field whose key ends in the
    letters "id", in any case, gets ["<<ID>>"], whatever its value and
    its path: [sessionId] and [toolCallId], and [valid] and [paid] too. *)
Theorem key_ending_in_id_gets_ID :
  forall (pre suffix : string) (value : Value) (path : string),
    Str.lower suffix = "id" ->
    normalizeField DEFAULT_CONFIG (pre +:+ suffix) value path = VStr "<<ID>>".
Proof.
  intros pre suffix value path Hsuffix.
  assert (Htest : Str.test_ends_i "id" (pre +:+ suffix) = true).
  { unfold Str.test_ends_i. rewrite lower_app, Hsuffix. apply endsWith_app. }
  unfold normalizeField.
  change (customNormalizers DEFAULT_CONFIG) with (@nil CustomNormalizer).
  unfold firstCustom.
  change (fieldsToNormalize DEFAULT_CONFIG)
    with (mkRule (PatRegExp (Str.test_ends_i "id")) (VStr "<<ID>>") true
          :: List.tl (fieldsToNormalize DEFAULT_CONFIG)).
  cbn [firstRule pattern replacement matchesPattern].
  rewrite Htest. reflexivity.
Qed.

Lemma key_ending_in_id_gets_ID_witness :
  normalizeField DEFAULT_CONFIG "valid" (VBool true) "result.valid" = VStr "<<ID>>".
Proof. exact (key_ending_in_id_gets_ID "val" "id" (VBool true) "result.valid" eq_refl). Defined.

End Shape.

(** ** The comparator *)

Section Comparison.
Import Normalizer Comparator.

Variable stringify : Heap -> Out -> Completion Thrown (option string).
Variable JSON_stringify : Heap -> Out -> Completion Thrown (option string).

Local Abbreviation compare' := (compare stringify JSON_stringify).
Local Abbreviation compareNormalized' := (compareNormalized stringify JSON_stringify).

Lemma compareNormalized_same h o :
  compareNormalized' h o o =
  match stringify h o with
  | Throw e => Throw e
  | Normal _ => Normal {| equal := true; diff := None |}
  end.
Proof.
  unfold compareNormalized. destruct (stringify h o) as [str | e]; [ | reflexivity ].
  rewrite bool_decide_eq_true_2 by reflexivity. reflexivity.
Qed.

(** [compare(x, x)] reports no difference, for every [x] that [normalize]
    returns on: the second [normalize] starts from an empty [seenObjects]
    and does not take the objects of [x] for repetitions.  (The call throws
    only if the serialiser does.) *)
Theorem compare_with_itself_is_equal :
  forall fuel h cfg x seen o seen1,
    normalize fuel h cfg x seen = Some (o, seen1) ->
    compare stringify JSON_stringify fuel h cfg x x seen =
    Some (match stringify h o with
          | Throw e => Throw e
          | Normal _ => Normal {| equal := true; diff := None |}
          end, seen1).
Proof.
  intros fuel h cfg x seen o seen1 H. unfold compare. rewrite H.
  rewrite (normalize_forgets_earlier_calls fuel h cfg x seen1 seen), H.
  rewrite compareNormalized_same. reflexivity.
Qed.

(** Swapping the two sides does not change the verdict [equal]. *)
Theorem compare_verdict_is_symmetric :
  forall fuel h cfg a b seen seen' r1 r2 s1 s2,
    compare stringify JSON_stringify fuel h cfg a b seen = Some (Normal r1, s1) ->
    compare stringify JSON_stringify fuel h cfg b a seen' = Some (Normal r2, s2) ->
    equal r1 = equal r2.
Proof.
  intros fuel h cfg a b seen seen' r1 r2 s1 s2 H1 H2. unfold compare in H1, H2.
  destruct (normalize fuel h cfg a seen) as [[oa sa] | ] eqn:Ea; [ | discriminate ].
  destruct (normalize fuel h cfg b sa) as [[ob sb] | ] eqn:Eb; [ | discriminate ].
  rewrite (normalize_forgets_earlier_calls fuel h cfg b seen' sa), Eb in H2.
  rewrite (normalize_forgets_earlier_calls fuel h cfg a sb seen), Ea in H2.
  injection H1 as H1 _. injection H2 as H2 _.
  unfold compareNormalized in H1, H2.
  destruct (stringify h oa) as [stra | ]; [ | discriminate ].
  destruct (stringify h ob) as [strb | ]; [ | discriminate ].
  destruct (bool_decide_reflect (stra = strb)) as [Heq | Hne].
  - rewrite bool_decide_eq_true_2 in H2 by congruence.
    injection H1 as <-. injection H2 as <-. reflexivity.
  - rewrite bool_decide_eq_false_2 in H2 by congruence.
    destruct (JSON_stringify h oa) as [[pa | ] | ]; try discriminate;
      destruct (JSON_stringify h ob) as [[pb | ] | ]; try discriminate.
    injection H1 as <-. injection H2 as <-. reflexivity.
Qed.

Lemma diffAt_same line : diffAt line line = [].
Proof. unfold diffAt. rewrite String.eqb_refl. reflexivity. Qed.

(** The diff of a text with itself is the header alone. *)
Theorem diff_of_equal_texts_is_the_header :
  forall text : string,
    generateSimpleDiff text text = "Expected vs Actual:" +:+ String newline "".
Proof.
  intros text. unfold generateSimpleDiff, diffLines.
  assert (H : forall ls idxs,
            flat_map (fun i => diffAt (lineAt ls i) (lineAt ls i)) idxs = []).
  { intros ls idxs. induction idxs as [ | i idxs IH ]; simpl; [ reflexivity | ].
    rewrite diffAt_same, IH. reflexivity. }
  rewrite H. reflexivity.
Qed.

(** The lines of a diff after its two header lines: a line of the first
    text comes with ["- "] and a line of the second with ["+ "], exactly at
    the positions where the two texts have different lines, and never for
    an empty or a missing line. *)
Theorem diff_reports_the_differing_lines :
  forall (expected actual line : string),
    line ∈ drop 2 (diffLines expected actual) <->
    exists i : nat,
      lineAt (splitLines expected) i <> lineAt (splitLines actual) i
      /\ ((line = "- " +:+ lineAt (splitLines expected) i
           /\ lineAt (splitLines expected) i <> "")
          \/ (line = "+ " +:+ lineAt (splitLines actual) i
              /\ lineAt (splitLines actual) i <> "")).
Proof.
  intros expected actual line. unfold diffLines.
  set (el := splitLines expected). set (al := splitLines actual).
  change (line ∈ flat_map (fun i => diffAt (lineAt el i) (lineAt al i))
                   (seq 0 (Nat.max (List.length el) (List.length al))) <->
          exists i : nat,
            lineAt el i <> lineAt al i
            /\ ((line = "- " +:+ lineAt el i /\ lineAt el i <> "")
                \/ (line = "+ " +:+ lineAt al i /\ lineAt al i <> ""))).
  rewrite list_elem_of_In, in_flat_map.
  assert (Hstep : forall i,
            In line (diffAt (lineAt el i) (lineAt al i)) <->
            lineAt el i <> lineAt al i
            /\ ((line = "- " +:+ lineAt el i /\ lineAt el i <> "")
                \/ (line = "+ " +:+ lineAt al i /\ lineAt al i <> ""))).
  { intros i. unfold diffAt.
    destruct (String.eqb_spec (lineAt el i) (lineAt al i)) as [Heq | Hne].
    - simpl. split; [ contradiction | intros [H _]; contradiction ].
    - destruct (lineAt el i) as [ | c e ] eqn:Ee, (lineAt al i) as [ | d a ] eqn:Ea;
        simpl; split; intros H;
        repeat match goal with
               | H : _ \/ _ |- _ => destruct H
               | H : _ /\ _ |- _ => destruct H
               | H : False |- _ => destruct H
               end; subst; try congruence; auto 6. }
  split.
  - intros (i & _ & Hi). exists i. apply Hstep, Hi.
  - intros (i & Hi). exists i. split; [ | apply Hstep, Hi ].
    apply in_seq. split; [ lia | ]. simpl.
    destruct Hi as [Hne _].
    destruct (Nat.lt_ge_cases i (Nat.max (List.length el) (List.length al)))
      as [Hlt | Hge]; [ exact Hlt | ].
    exfalso. apply Hne. unfold lineAt.
    rewrite !nth_overflow by lia. reflexivity.
Qed.

(** *** Records that differ in masked fields only *)

Lemma normalizeField_masked cfg key path v1 v2 :
  masked cfg key path ->
  normalizeField cfg key v1 path = normalizeField cfg key v2 path
  /\ is_undefined (normalizeField cfg key v1 path) = false.
Proof.
  intros (Hcustom & r & Hrule & Hdef). unfold normalizeField.
  rewrite !firstCustom_find, Hcustom, !firstRule_find, Hrule. auto.
Qed.

Lemma normalize_entries_up_to_masked fuel h cfg path es1 es2 :
  same_up_to_masked cfg path es1 es2 ->
  forall (s1 s2 : gset loc) acc,
    fst <$> normalize_entries (normalize_aux fuel h cfg) cfg path es1 s1 acc
    = fst <$> normalize_entries (normalize_aux fuel h cfg) cfg path es2 s2 acc.
Proof.
  induction 1 as [ | [k v1] [k2 v2] es1 es2 (Hk & Hv) _ IH ]; intros s1 s2 acc;
    [ reflexivity | ].
  simpl in Hk, Hv. subst k2. simpl.
  destruct (shouldIgnoreField cfg k (currentPath path k)); [ apply IH | ].
  destruct Hv as [Hmasked | [-> Hprim]].
  - destruct (normalizeField_masked cfg k (currentPath path k) v1 v2 Hmasked)
      as [Heq Hdef].
    rewrite <- Heq, Hdef. apply IH.
  - destruct (is_undefined (normalizeField cfg k v2 (currentPath path k)));
      [ | apply IH ].
    destruct fuel as [ | fuel ]; [ reflexivity | ].
    rewrite !normalize_aux_prim by exact Hprim. apply IH.
Qed.

(** Two objects with the same keys in the same order compare equal when
    each field either is decided by a rule with a replacement (no custom
    normalizer matches it and the first rule that does has a defined
    replacement) or holds the same primitive value in both: the values of
    the fields that such a rule decides are never looked at. *)
Theorem records_equal_up_to_masked_fields_compare_equal :
  forall fuel h cfg l1 l2 es1 es2 seen o seen1,
    h !! l1 = Some (HObject es1) ->
    h !! l2 = Some (HObject es2) ->
    same_up_to_masked cfg "" es1 es2 ->
    normalize fuel h cfg (VRef l1) seen = Some (o, seen1) ->
    exists seen2,
      compare stringify JSON_stringify fuel h cfg (VRef l1) (VRef l2) seen =
      Some (match stringify h o with
            | Throw e => Throw e
            | Normal _ => Normal {| equal := true; diff := None |}
            end, seen2).
Proof.
  intros [ | fuel ] h cfg l1 l2 es1 es2 seen o seen1 Hl1 Hl2 Hsame H;
    [ discriminate | ].
  unfold compare. rewrite H. unfold normalize in H |- *.
  rewrite normalize_aux_ref, Hl1 in H. rewrite normalize_aux_ref, Hl2.
  change (resetOnTopLevel "" seen) with (∅ : gset loc) in H.
  change (resetOnTopLevel "" seen1) with (∅ : gset loc).
  rewrite bool_decide_eq_false_2 in H by set_solver.
  rewrite bool_decide_eq_false_2 by set_solver.
  pose proof (normalize_entries_up_to_masked fuel h cfg "" es1 es2 Hsame
                ({[l1]} ∪ ∅) ({[l2]} ∪ ∅) []) as Heq.
  destruct (normalize_entries _ _ _ es1 _ _) as [[out1 s1] | ]; [ | discriminate ].
  injection H as <- <-.
  destruct (normalize_entries _ _ _ es2 _ _) as [[out2 s2] | ]; [ | discriminate ].
  simpl in Heq. injection Heq as <-.
  exists s2. rewrite compareNormalized_same. reflexivity.
Qed.

End Comparison.

Section ComparisonExamples.
Import Normalizer Comparator Examples Scenario.


Lemma array_keeps_its_length_witness :
  exists os, OArr [OObj [("n", OVal (VNum 1))]; OVal (VNum 1); OVal circular] = OArr os
             /\ List.length os = 3%nat.
Proof.
  destruct (array_keeps_its_length 3 repeated_heap DEFAULT_CONFIG 1%nat "" ∅
              [VRef 2%nat; VNum 1; VRef 2%nat]
              (OArr [OObj [("n", OVal (VNum 1))]; OVal (VNum 1); OVal circular])
              ({[2%nat]} ∪ ({[1%nat]} ∪ ∅)) eq_refl eq_refl)
    as [[Hin _] | [_ H]]; [ | exact H ].
  exfalso. vm_compute in Hin. set_solver.
Defined.

Lemma object_keeps_its_keys_witness :
  exists es,
    OObj [("kept", OVal (VNum 2))] = OObj es /\ fst <$> es = ["kept"].
Proof.
  exact (object_keeps_its_keys 2
           {[ 1%nat := HObject [("raw", VNum 1); ("_tmp", VNull); ("kept", VNum 2)] ]}
           ignoring_config 1%nat "" ∅
           [("raw", VNum 1); ("_tmp", VNull); ("kept", VNum 2)]
           (OObj [("kept", OVal (VNum 2))]) ({[1%nat]} ∪ ∅)
           eq_refl ltac:(repeat constructor; set_solver) ltac:(set_solver)
           ltac:(set_solver) eq_refl).
Defined.

Lemma repeated_reference_in_array_is_marked_witness :
  exists os,
    OArr [OObj [("n", OVal (VNum 1))]; OVal (VNum 1); OVal circular] = OArr os
    /\ os !! 2%nat = Some (OVal circular).
Proof.
  exact (repeated_reference_in_array_is_marked 3 repeated_heap DEFAULT_CONFIG
           1%nat 2%nat [VRef 2%nat; VNum 1; VRef 2%nat] 0 2 ∅ _ _
           eq_refl eq_refl eq_refl ltac:(lia) eq_refl).
Defined.

Lemma compare_with_itself_is_equal_witness :
  fst <$> compare show_serialiser show_serialiser 2 named_cycle DEFAULT_CONFIG
            (VRef 1%nat) (VRef 1%nat) ∅
  = Some (Normal {| equal := true; diff := None |}).
Proof.
  rewrite (compare_with_itself_is_equal show_serialiser show_serialiser 2 named_cycle
             DEFAULT_CONFIG (VRef 1%nat) ∅ _ _ eq_refl).
  reflexivity.
Defined.

Lemma compare_verdict_is_symmetric_witness :
  equal {| equal := false;
           diff := Some (generateSimpleDiff "{sessionId:<<ID>>,value:5,}" "{self:[Circular],}") |}
  = equal {| equal := false;
             diff := Some (generateSimpleDiff "{self:[Circular],}" "{sessionId:<<ID>>,value:5,}") |}.
Proof.
  exact (compare_verdict_is_symmetric show_serialiser show_serialiser 2
           ({[ 1%nat := HObject [("sessionId", VStr "abc123"); ("value", VNum 5)];
               2%nat := HObject [("self", VRef 2%nat)] ]})
           DEFAULT_CONFIG (VRef 1%nat) (VRef 2%nat) ∅ ∅ _ _ _ _ eq_refl eq_refl).
Defined.

Lemma records_equal_up_to_masked_fields_compare_equal_witness :
  exists seen2,
    compare show_serialiser show_serialiser 2 records_heap DEFAULT_CONFIG
      (VRef 1%nat) (VRef 2%nat) ∅
    = Some (Normal {| equal := true; diff := None |}, seen2).
Proof.
  assert (Hmask : forall k, k = "timestamp" \/ k = "toolCallId" ->
            masked DEFAULT_CONFIG k (currentPath "" k)).
  { intros k [-> | ->]; (split; [ reflexivity | ]); eexists; split; reflexivity. }
  eapply (records_equal_up_to_masked_fields_compare_equal show_serialiser show_serialiser
            2 records_heap DEFAULT_CONFIG 1%nat 2%nat first_record second_record ∅);
    [ reflexivity | reflexivity | | reflexivity ].
  unfold same_up_to_masked, first_record, second_record.
  repeat (constructor;
          [ split; [ reflexivity | ];
            first [ right; split; reflexivity | left; apply Hmask; auto ] | ]).
  constructor.
Defined.

End ComparisonExamples.

(** ** More on hooks *)

Section HooksMore.
Import HookBase Streaming Examples Scenario.

Lemma unhookAgent_restores (c : Ctx) (saved : Hooks) :
  isHooked (this c) = true ->
  originalHooks (this c) = Some saved ->
  callbacks (agent (world (unhookAgent c))) = saved.
Proof.
  intros Hh Ho. unfold unhookAgent. rewrite Hh. simpl. rewrite Ho. reflexivity.
Qed.

Lemma hookAgent_installs (c : Ctx) :
  isHooked (this c) = false ->
  isHooked (this (hookAgent c)) = true
  /\ originalHooks (this (hookAgent c)) = Some (callbacks (agent (world c)))
  /\ callbacks (agent (world (hookAgent c))) = instrumented (identity (this c)).
Proof.
  intros Hh. unfold hookAgent. rewrite Hh. simpl.
  destruct (callbacks (agent (world c))). auto.
Qed.

(** Two hooks on one agent, two distinct objects.  Installed one after
    the other and removed in the reverse order, they leave the agent's
    callbacks as they found them.  Removed in the order of installation,
    they leave the wrappers of the first hook in place, not those of the
    second and not the agent's own, though both hooks now count as
    removed: the second hook had saved those wrappers as "original". *)
Theorem nested_hooks_must_be_removed_in_reverse_order :
  forall (hA hB : Hook) (w : World),
    isHooked hA = false ->
    isHooked hB = false ->
    identity hA <> identity hB ->
    let cA := hookAgent (mkCtx hA w) in
    let cB := hookAgent (mkCtx hB (world cA)) in
    (let cB' := unhookAgent cB in
     let cA' := unhookAgent (mkCtx (this cA) (world cB')) in
     callbacks (agent (world cA')) = callbacks (agent w))
    /\ (let cA' := unhookAgent (mkCtx (this cA) (world cB)) in
        let cB' := unhookAgent (mkCtx (this cB) (world cA')) in
        callbacks (agent (world cB')) = instrumented (identity hA)
        /\ callbacks (agent (world cB')) <> instrumented (identity hB)
        /\ isHooked (this cA') = false /\ isHooked (this cB') = false).
Proof.
  intros hA hB w HA HB Hid. unfold hookAgent, unhookAgent. simpl.
  rewrite HA. simpl. rewrite HB. simpl.
  destruct (callbacks (agent w)).
  repeat split; try reflexivity.
  intros H. injection H as H _. contradiction.
Qed.

Lemma nested_hooks_must_be_removed_in_reverse_order_witness :
  callbacks
    (agent (world
       (unhookAgent
          (mkCtx (this (hookAgent (mkCtx hook_B (world (hookAgent (mkCtx hook_A two_hooks_world))))))
             (world (unhookAgent
                (mkCtx (this (hookAgent (mkCtx hook_A two_hooks_world)))
                   (world (hookAgent
                      (mkCtx hook_B (world (hookAgent (mkCtx hook_A two_hooks_world)))))))))))))
  = instrumented 0
  /\ identity hook_A = 0%nat /\ identity hook_B = 1%nat.
Proof.
  destruct (nested_hooks_must_be_removed_in_reverse_order hook_A hook_B two_hooks_world
              eq_refl eq_refl ltac:(discriminate)) as [_ [H _]].
  split; [ exact H | split; reflexivity ].
Defined.

(** [writeStreamingChunks] never throws.  Without chunks it does nothing
    at all.  When serialising a chunk or writing the file fails, the
    failure is logged, as the last line of the log, and becomes
    [lastError], in place of any earlier one; when the file is written,
    the last line of the log says so and [lastError] stays as it was. *)
Theorem writeStreamingChunks_keeps_failures_in :
  forall (Chunk : Type) (JSON_stringify : Chunk -> Completion Thrown string)
         (writeFileSync : string -> string -> World -> Completion Thrown unit * World)
         (filePath : string) (chunks : option (list Chunk)) (c : Ctx),
    let r := writeStreamingChunks JSON_stringify writeFileSync filePath chunks c in
    fst r = Normal tt
    /\ (chunks = None \/ chunks = Some [] -> snd r = c)
    /\ (forall cs e,
          chunks = Some cs -> cs <> [] ->
          stringifyAll JSON_stringify cs = Throw e ->
          getLastError (snd r) = Some (toError e)
          /\ log (world (snd r))
             = (log (world c)
                ++ [(LError, "Failed to write streaming chunks: "
                             +:+ message (toError e))])%list
          /\ dir (world (snd r)) = dir (world c))
    /\ (forall cs strs e w1,
          chunks = Some cs -> cs <> [] ->
          stringifyAll JSON_stringify cs = Normal strs ->
          writeFileSync filePath (Comparator.joinLines strs) (world c) = (Throw e, w1) ->
          getLastError (snd r) = Some (toError e)
          /\ log (world (snd r))
             = (log w1
                ++ [(LError, "Failed to write streaming chunks: "
                             +:+ message (toError e))])%list)
    /\ (forall cs strs u w1,
          chunks = Some cs -> cs <> [] ->
          stringifyAll JSON_stringify cs = Normal strs ->
          writeFileSync filePath (Comparator.joinLines strs) (world c) = (Normal u, w1) ->
          getLastError (snd r) = getLastError c
          /\ log (world (snd r))
             = (log w1
                ++ [(LDebug, "Wrote " +:+ pretty (List.length cs)
                             +:+ " streaming chunks to " +:+ filePath)])%list).
Proof.
  intros Chunk JSON_stringify writeFileSync filePath chunks c r. subst r.
  unfold writeStreamingChunks.
  destruct chunks as [[ | chunk rest] | ].
  - split; [ reflexivity | ]. split; [ reflexivity | ].
    split; [ | split ]; intros; congruence.
  - set (cs := chunk :: rest).
    split; [ | split; [ | split; [ | split ] ] ].
    + destruct (stringifyAll JSON_stringify cs) as [strs | e]; [ | reflexivity ].
      destruct (writeFileSync _ _ _) as [[u | e] w1]; reflexivity.
    + intros [H | H]; discriminate H.
    + intros cs' e H _ He. injection H as <-. rewrite He. repeat split; reflexivity.
    + intros cs' strs e w1 H _ Hs Hw. injection H as <-. rewrite Hs, Hw.
      split; reflexivity.
    + intros cs' strs u w1 H _ Hs Hw. injection H as <-. rewrite Hs, Hw.
      split; reflexivity.
  - split; [ reflexivity | ]. split; [ reflexivity | ].
    split; [ | split ]; intros; congruence.
Qed.

Lemma writeStreamingChunks_keeps_failures_in_witness :
  getLastError
    (snd (writeStreamingChunks chunk_text disk_full "/snap/loop-1/chunks.jsonl"
            (Some ["a"; "b"]) fresh_ctx))
  = Some (mkError "ENOSPC")
  /\ log (world (snd (writeStreamingChunks chunk_text disk_full
                        "/snap/loop-1/chunks.jsonl" (Some ["a"; "b"]) fresh_ctx)))
     = [(LError, "Failed to write streaming chunks: ENOSPC")].
Proof.
  destruct (writeStreamingChunks_keeps_failures_in string chunk_text disk_full
              "/snap/loop-1/chunks.jsonl" (Some ["a"; "b"]) fresh_ctx)
    as (_ & _ & _ & H & _).
  exact (H ["a"; "b"] ["a"; "b"] (ThrownError (mkError "ENOSPC")) (world fresh_ctx)
           eq_refl ltac:(discriminate) eq_refl eq_refl).
Defined.

End HooksMore.

(** ** More on the orchestrator *)

Section OrchestratorProps.
Import Snapshot Orchestrator Examples Scenario.

Context {Input Response Events : Type}.
Variable Date_now : World -> Z.
Variable hook_setup :
  string -> nat -> SetupOptions -> HookBase.Ctx ->
  Completion Thrown unit * HookBase.Ctx.
Variable getMockLLMClient : HookBase.Ctx -> option nat.
Variable agent_run :
  Input -> HookBase.Ctx -> Completion Thrown Response * HookBase.Ctx.
Variable getEvents : HookBase.Ctx -> Events.
Variable getCurrentLoopIteration : HookBase.Ctx -> Z.
Variable cleanupAllActualFiles :
  string -> HookBase.Ctx -> Completion Thrown unit * HookBase.Ctx.
Variable path_resolve : string -> string.
Variable path_basename : string -> string.

Local Abbreviation test' :=
  (test Date_now hook_setup getMockLLMClient agent_run getEvents
     getCurrentLoopIteration cleanupAllActualFiles).
Local Abbreviation generate' := (generate Date_now agent_run getEvents).
Local Abbreviation generate_try' := (generate_try Date_now agent_run getEvents).

Lemma generate_prologue_installed (self : AgentSnapshot) (w : World) :
  HookBase.isHooked (HookBase.this (generate_prologue self w)) = true
  /\ HookBase.originalHooks (HookBase.this (generate_prologue self w))
     = Some (callbacks (agent w)).
Proof.
  unfold generate_prologue.
  match goal with
  | |- context [HookBase.hookAgent ?c] =>
      destruct (hookAgent_installs c eq_refl) as (H1 & H2 & _);
      assert (Ha : agent (HookBase.world c) = agent w)
  end.
  { unfold HookBase.new_hook, ensureSnapshotDirectory. simpl.
    destruct (dir w); reflexivity. }
  rewrite H1, H2, Ha. auto.
Qed.

(** Whatever the run does, [generate] leaves the runtime's callbacks as it
    found them: when the run returns, when it throws, and when a callback
    has failed. *)
Theorem generate_restores_the_callbacks :
  forall (self : AgentSnapshot) (input : Input) (w : World),
    keeps_private (agent_run input) ->
    callbacks (agent (snd (generate' self input w))) = callbacks (agent w).
Proof.
  intros self input w Hrun. unfold generate.
  destruct (generate_prologue_installed self w) as [Hh Ho].
  unfold generate_try.
  destruct (Hrun (generate_prologue self w)) as [Hh1 Ho1].
  rewrite Hh in Hh1. rewrite Ho in Ho1.
  destruct (agent_run input (generate_prologue self w)) as [[resp | e] c1];
    cbn [snd] in Hh1, Ho1.
  - destruct (HookBase.getLastError c1); cbn [snd fst];
      apply unhookAgent_restores; assumption.
  - cbn [snd fst]. apply unhookAgent_restores; assumption.
Qed.

(** A failure inside a callback does not stop the run, but it fails
    [generate] afterwards: when the run has returned and the hook holds an
    error, [generate] throws that error.  [generate] returns a result only
    from a run that returned with no error in the hook, and the loop count
    of the result is that of the directory after the run. *)
Theorem generate_rethrows_the_hook_error :
  forall (self : AgentSnapshot) (input : Input) (w : World),
    (forall resp c1 e,
       agent_run input (generate_prologue self w) = (Normal resp, c1) ->
       HookBase.getLastError c1 = Some e ->
       fst (generate' self input w) = Throw (ThrownError e))
    /\ (forall r,
          fst (generate' self input w) = Normal r ->
          exists c1,
            agent_run input (generate_prologue self w) = (Normal (g_response r), c1)
            /\ HookBase.getLastError c1 = None
            /\ g_loopCount r = countLoops self (HookBase.world c1)
            /\ g_events r = getEvents c1).
Proof.
  intros self input w. unfold generate, generate_try. split.
  - intros resp c1 e Hrun Herr. rewrite Hrun, Herr. reflexivity.
  - intros r.
    destruct (agent_run input (generate_prologue self w)) as [[resp | e] c1];
      [ | simpl; discriminate ].
    destruct (HookBase.getLastError c1) eqn:Herr; [ simpl; discriminate | ].
    simpl. intros H. injection H as <-. simpl. exists c1. auto.
Qed.

(** An orchestrator makes sure of its directory when it is built, so the
    directory exists afterwards; [exists] in its info says no more than
    [loopCount > 0]; and built on a path with no loop directory, it has
    nothing to test against: [test] fails with "not found". *)
Theorem new_orchestrator_has_a_directory_but_no_snapshot :
  forall (options : AgentSnapshotOptions) (input : Input)
         (config : option TestRunConfig) (w : World),
    let self := fst (new_AgentSnapshot path_resolve path_basename options w) in
    let w' := snd (new_AgentSnapshot path_resolve path_basename options w) in
    dir w' <> None
    /\ info_exists (getSnapshotInfo self w')
       = (0 <? info_loopCount (getSnapshotInfo self w'))%nat
    /\ (countLoops self w = 0%nat ->
          info_loopCount (getSnapshotInfo self w') = 0%nat
          /\ fst (test' self input config w')
             = Throw (SnapshotNotFound (path_resolve (o_snapshotPath options)))).
Proof.
  intros options input config w self w'. subst self w'.
  unfold new_AgentSnapshot, getSnapshotInfo, test, snapshotExists, existsSync,
    countLoops, ensureSnapshotDirectory.
  cbn [fst snd dir logger info_exists info_loopCount snapshotPath].
  destruct (dir w) as [entries | ] eqn:Hdir; cbn [dir].
  - rewrite Hdir. split; [ discriminate | ]. split; [ reflexivity | ].
    intros Hzero. rewrite Hzero. auto.
  - split; [ discriminate | ]. split; [ reflexivity | ]. intros _. auto.
Qed.

Lemma unhookAgent_keeps_isReplay (c : HookBase.Ctx) :
  isReplay (agent (HookBase.world (HookBase.unhookAgent c)))
  = isReplay (agent (HookBase.world c)).
Proof.
  unfold HookBase.unhookAgent.
  destruct (HookBase.isHooked (HookBase.this c)); simpl; [ | reflexivity ].
  destruct (HookBase.originalHooks (HookBase.this c)); reflexivity.
Qed.

(** [test] does not undo what it did to the agent before the run: once the
    setup has succeeded, the agent is flagged as replaying when [test] is
    over, whether the test passed or failed, as long as the run and the
    cleanup leave the flag alone. *)
Theorem test_leaves_the_agent_in_replay_mode :
  forall (self : AgentSnapshot) (input : Input) (config : option TestRunConfig)
         (w : World) (u : unit) (c1 : HookBase.Ctx),
    snapshotExists self w = true ->
    hook_setup (snapshotPath self) (countLoops self w)
      (setup_options self config) (test_prologue self config w) = (Normal u, c1) ->
    HookBase.hasError c1 = false ->
    keeps_replay (agent_run input) ->
    keeps_replay (cleanupAllActualFiles (snapshotName self)) ->
    isReplay (agent (snd (test' self input config w))) = true.
Proof.
  intros self input config w u c1 Hex Hsetup Herr Hrun Hclean.
  assert (Hlog : forall lv msg, snapshotExists self (logger lv msg w)
                                = snapshotExists self w) by reflexivity.
  unfold test. rewrite Hlog, Hex. cbn [negb].
  unfold test_try. rewrite Hsetup.
  unfold HookBase.hasError in Herr. unfold HookBase.getLastError.
  destruct (HookBase.lastError (HookBase.this c1)); [ discriminate | ].
  specialize (Hrun (enter_replay (getMockLLMClient c1) c1) eq_refl).
  destruct (agent_run input (enter_replay (getMockLLMClient c1) c1)) as [[resp | e] c3];
    simpl in Hrun.
  - destruct (HookBase.lastError (HookBase.this c3)).
    + cbn [snd fst]. rewrite unhookAgent_keeps_isReplay. exact Hrun.
    + destruct (negb _).
      * cbn [snd fst]. rewrite unhookAgent_keeps_isReplay. exact Hrun.
      * specialize (Hclean c3 Hrun).
        destruct (cleanupAllActualFiles (snapshotName self) c3) as [[u' | e] c4];
          simpl in Hclean; cbn [snd fst];
          rewrite unhookAgent_keeps_isReplay; exact Hclean.
  - cbn [snd fst]. rewrite unhookAgent_keeps_isReplay. exact Hrun.
Qed.

End OrchestratorProps.

Section OrchestratorExamples.
Import Snapshot Orchestrator Examples Scenario.

Lemma generate_restores_the_callbacks_witness :
  callbacks
    (agent (snd (generate frozen_clock run_with_failing_hook no_events
                   updating_snapshot tt recorded_world)))
  = some_hooks.
Proof.
  apply (generate_restores_the_callbacks frozen_clock run_with_failing_hook no_events
           updating_snapshot tt recorded_world).
  intros c. split; reflexivity.
Defined.

Lemma generate_rethrows_the_hook_error_witness :
  fst (generate frozen_clock run_with_failing_hook no_events
         updating_snapshot tt recorded_world)
  = Throw (ThrownError (mkError "disk")).
Proof.
  destruct (generate_rethrows_the_hook_error frozen_clock run_with_failing_hook
              no_events updating_snapshot tt recorded_world) as [H _].
  eapply H; reflexivity.
Defined.

Lemma test_leaves_the_agent_in_replay_mode_witness :
  isReplay (agent (snd (test_with 2 updating_snapshot None recorded_world))) = true
  /\ isReplay (agent recorded_world) = false.
Proof.
  split; [ | reflexivity ].
  eapply (test_leaves_the_agent_in_replay_mode frozen_clock setup_installs mock_client
            run_quietly no_events (loops_executed 2) cleanup_ok
            updating_snapshot tt None recorded_world tt);
    [ reflexivity | reflexivity | reflexivity | | ];
    intros c Hc; exact Hc.
Defined.

Lemma new_orchestrator_has_a_directory_but_no_snapshot_witness :
  fst (test_with 2
         (fst (new_AgentSnapshot identity_path last_segment
                 (Snapshot.options updating_snapshot)
                 {| agent := some_agent; dir := None; log := []; hooksCreated := 0 |}))
         None
         (snd (new_AgentSnapshot identity_path last_segment
                 (Snapshot.options updating_snapshot)
                 {| agent := some_agent; dir := None; log := []; hooksCreated := 0 |})))
  = Throw (SnapshotNotFound "/snap").
Proof.
  destruct (new_orchestrator_has_a_directory_but_no_snapshot
              frozen_clock setup_installs mock_client run_quietly no_events
              (loops_executed 2) cleanup_ok identity_path last_segment
              (Snapshot.options updating_snapshot) tt None
              {| agent := some_agent; dir := None; log := []; hooksCreated := 0 |}) as (_ & _ & H).
  destruct (H eq_refl) as [_ Htest]. exact Htest.
Defined.

End OrchestratorExamples.

(** ** More on counting loops *)

Section CountLoopsMore.
Import Snapshot LoopNames Scenario.

Lemma isDirectory_of_unique (entries : list DirEntry) (e : DirEntry) :
  NoDup (name <$> entries) -> e ∈ entries ->
  isDirectory_of entries (name e) = isDirectory e.
Proof.
  unfold isDirectory_of.
  induction entries as [ | e0 rest IH ]; intros Hnd Hin.
  - apply elem_of_nil in Hin. destruct Hin.
  - simpl in Hnd. apply NoDup_cons in Hnd as [Hnotin Hnd]. simpl.
    destruct (String.eqb_spec (name e0) (name e)) as [Heq | Hne].
    + apply elem_of_cons in Hin as [-> | Hin]; [ reflexivity | ].
      exfalso. apply Hnotin. rewrite Heq. apply list_elem_of_fmap. eauto.
    + apply elem_of_cons in Hin as [-> | Hin]; [ contradiction | ].
      apply IH; assumption.
Qed.

Lemma filter_cons_eq {A : Type} (f : A -> bool) (x : A) (l : list A) :
  List.filter f (x :: l) = if f x then x :: List.filter f l else List.filter f l.
Proof. reflexivity. Qed.

Lemma filtered_names (entries : list DirEntry) :
  NoDup (name <$> entries) ->
  filtered entries = name <$> List.filter isLoopDir entries.
Proof.
  intros Hnd. unfold filtered.
  set (keep := fun d => Str.startsWith "loop-" d && isDirectory_of entries d).
  assert (H : forall l, (forall e, e ∈ l -> e ∈ entries) ->
            List.filter keep (name <$> l) = name <$> List.filter isLoopDir l).
  { induction l as [ | e l IH ]; intros Hsub; [ reflexivity | ].
    assert (Hkeep : keep (name e) = isLoopDir e).
    { unfold keep, isLoopDir.
      rewrite (isDirectory_of_unique entries e Hnd) by (apply Hsub; left).
      reflexivity. }
    change (List.filter keep (name <$> e :: l))
      with (if keep (name e) then name e :: List.filter keep (name <$> l)
            else List.filter keep (name <$> l)).
    change (List.filter isLoopDir (e :: l))
      with (if isLoopDir e then e :: List.filter isLoopDir l
            else List.filter isLoopDir l).
    rewrite Hkeep, IH by (intros e' He'; apply Hsub; right; exact He').
    destruct (isLoopDir e); reflexivity. }
  apply H. auto.
Qed.

(** In a directory (whose names are distinct) [countLoops] counts the
    entries that are directories with the prefix. *)
Lemma countLoops_counts_entries (entries : list DirEntry) :
  NoDup (name <$> entries) ->
  List.length (loopDirs entries) = List.length (List.filter isLoopDir entries).
Proof.
  intros Hnd. unfold loopDirs. rewrite (Permutation_length (array_sort_perm _ _)).
  rewrite filtered_names by exact Hnd. apply length_fmap.
Qed.

(** The count does not depend on the order in which the directory is
    listed. *)
Theorem countLoops_ignores_the_listing_order :
  forall (self : AgentSnapshot) (w w' : World) (entries entries' : list DirEntry),
    dir w = Some entries ->
    dir w' = Some entries' ->
    NoDup (name <$> entries) ->
    Permutation entries entries' ->
    countLoops self w = countLoops self w'.
Proof.
  intros self w w' entries entries' Hw Hw' Hnd Hperm.
  unfold countLoops. rewrite Hw, Hw'.
  rewrite !countLoops_counts_entries.
  - apply Permutation_length. clear -Hperm. induction Hperm; simpl.
    + reflexivity.
    + destruct (isLoopDir x); [ constructor | ]; assumption.
    + destruct (isLoopDir x), (isLoopDir y); try reflexivity. apply perm_swap.
    + etransitivity; eassumption.
  - rewrite <- Hperm. exact Hnd.
  - exact Hnd.
Qed.

Lemma countLoops_ignores_the_listing_order_witness :
  countLoops updating_snapshot
    {| agent := some_agent; dir := Some ten_loops; log := []; hooksCreated := 0 |}
  = countLoops updating_snapshot
      {| agent := some_agent; dir := Some (rev ten_loops); log := []; hooksCreated := 0 |}.
Proof.
  apply (countLoops_ignores_the_listing_order updating_snapshot
           {| agent := some_agent; dir := Some ten_loops; log := []; hooksCreated := 0 |}
           {| agent := some_agent; dir := Some (rev ten_loops); log := []; hooksCreated := 0 |}
           ten_loops (rev ten_loops) eq_refl eq_refl).
  - vm_compute. repeat constructor; set_solver.
  - apply Permutation_rev.
Defined.

(** A new entry raises the count by one when it is a directory whose name
    starts with ["loop-"], and leaves it as it is otherwise: files, and
    directories with other names, do not count. *)
Theorem countLoops_after_a_new_entry :
  forall (self : AgentSnapshot) (w w' : World) (entries : list DirEntry) (e : DirEntry),
    dir w = Some entries ->
    dir w' = Some (entries ++ [e])%list ->
    NoDup (name <$> (entries ++ [e])%list) ->
    countLoops self w' =
    (countLoops self w + if isLoopDir e then 1 else 0)%nat.
Proof.
  intros self w w' entries e Hw Hw' Hnd. unfold countLoops. rewrite Hw, Hw'.
  rewrite !countLoops_counts_entries.
  - rewrite List.filter_app, length_app. simpl.
    destruct (isLoopDir e); reflexivity.
  - rewrite fmap_app in Hnd. apply NoDup_app in Hnd as [Hnd _]. exact Hnd.
  - exact Hnd.
Qed.

Lemma countLoops_after_a_new_entry_witness :
  countLoops updating_snapshot
    {| agent := some_agent; dir := Some (three_loops ++ [mkEntry "loop-4" true])%list;
       log := []; hooksCreated := 0 |} = 4%nat.
Proof.
  rewrite (countLoops_after_a_new_entry updating_snapshot recorded_world
             {| agent := some_agent; dir := Some (three_loops ++ [mkEntry "loop-4" true])%list;
                log := []; hooksCreated := 0 |}
             three_loops (mkEntry "loop-4" true) eq_refl eq_refl).
  - reflexivity.
  - vm_compute. repeat constructor; set_solver.
Defined.

(** *** Reading the number of a loop directory *)

Lemma digits_cons c s acc :
  digits (String c s) acc =
  match digit_of c with
  | Some d => digits s (Some (10 * default 0%Z acc + d)%Z)
  | None => acc
  end.
Proof. reflexivity. Qed.

Lemma pretty_N_char_cases (d : N) :
  (d < 10)%N ->
  digit_of (pretty_N_char d) = Some (Z.of_N d)
  /\ Ascii.eqb (pretty_N_char d) "-" = false.
Proof.
  intros Hd.
  assert (H : (d = 0 \/ d = 1 \/ d = 2 \/ d = 3 \/ d = 4 \/ d = 5 \/ d = 6
               \/ d = 7 \/ d = 8 \/ d = 9)%N) by lia.
  repeat (destruct H as [-> | H]; [ split; reflexivity | ]).
  subst. split; reflexivity.
Qed.

Lemma digits_pretty_N_go (x : N) :
  forall s, (0 < x)%N ->
    digits (pretty_N_go x s) None = digits s (Some (Z.of_N x)).
Proof.
  induction (N.lt_wf_0 x) as [x _ IH]. intros s Hx.
  rewrite pretty_N_go_step by exact Hx.
  assert (Hmod : (x `mod` 10 < 10)%N) by (apply N.mod_lt; discriminate).
  destruct (pretty_N_char_cases _ Hmod) as [Hdigit _].
  pose proof (N.div_mod x 10 ltac:(discriminate)) as Hdm.
  destruct (decide (x `div` 10 = 0)%N) as [Hzero | Hpos].
  - rewrite Hzero, pretty_N_go_0, digits_cons, Hdigit. simpl default.
    f_equal. f_equal. lia.
  - rewrite IH by (try apply N.div_lt; lia).
    rewrite digits_cons, Hdigit. simpl default. f_equal. f_equal. lia.
Qed.

Lemma pretty_N_go_shape (x : N) :
  forall s, digits_only s = true ->
    digits_only (pretty_N_go x s) = true
    /\ ((0 < x)%N -> exists d s', (d < 10)%N /\ pretty_N_go x s = String (pretty_N_char d) s').
Proof.
  induction (N.lt_wf_0 x) as [x _ IH]. intros s Hs.
  destruct (decide (0 < x)%N) as [Hx | Hx].
  - rewrite pretty_N_go_step by exact Hx.
    assert (Hmod : (x `mod` 10 < 10)%N) by (apply N.mod_lt; discriminate).
    destruct (pretty_N_char_cases _ Hmod) as [Hdigit _].
    assert (Hs' : digits_only (String (pretty_N_char (x `mod` 10)) s) = true)
      by (simpl; rewrite Hdigit; exact Hs).
    destruct (IH (x `div` 10)%N ltac:(apply N.div_lt; lia) _ Hs') as [Hall Hhead].
    split; [ exact Hall | ]. intros _.
    destruct (decide (0 < x `div` 10)%N) as [Hq | Hq].
    + apply Hhead, Hq.
    + apply N.nlt_ge, N.le_0_r in Hq. rewrite Hq, pretty_N_go_0. eauto.
  - apply N.nlt_ge, N.le_0_r in Hx. subst x. rewrite pretty_N_go_0.
    split; [ exact Hs | intros H; inversion H ].
Qed.

Lemma parseInt_digit_head (c : ascii) (s : string) :
  is_Some (digit_of c) ->
  parseInt (String c s) =
  match digits (String c s) None with
  | None => NaN
  | Some mathInt => toNumber mathInt
  end.
Proof.
  destruct c as [b0 b1 b2 b3 b4 b5 b6 b7].
  destruct b0, b1, b2, b3, b4, b5, b6, b7;
    intros [d Hd]; try discriminate Hd; reflexivity.
Qed.

Lemma pretty_N_digits (n : N) :
  digits_only (pretty n) = true /\ parseInt (pretty n) = toNumber (Z.of_N n).
Proof.
  unfold pretty, pretty_N.
  destruct (decide (n = 0)%N) as [-> | Hpos].
  - split; reflexivity.
  - destruct (pretty_N_go_shape n "" eq_refl) as [Hall Hhead].
    split; [ exact Hall | ].
    destruct (Hhead ltac:(lia)) as (d & s' & Hd & Heq).
    destruct (pretty_N_char_cases d Hd) as [Hdigit _].
    rewrite Heq, parseInt_digit_head by (rewrite Hdigit; eauto).
    rewrite <- Heq, digits_pretty_N_go by lia. reflexivity.
Qed.

Lemma digit_is_not_dash (c : ascii) :
  is_Some (digit_of c) -> Ascii.eqb c "-" = false.
Proof.
  destruct c as [b0 b1 b2 b3 b4 b5 b6 b7].
  destruct b0, b1, b2, b3, b4, b5, b6, b7;
    intros [d Hd]; try discriminate Hd; reflexivity.
Qed.

Lemma string_app_nil (s : string) : s +:+ "" = s.
Proof.
  induction s as [ | a s IH ]; [ reflexivity | ].
  change (String a s +:+ "") with (String a (s +:+ "")). rewrite IH. reflexivity.
Qed.

Lemma string_app_cons (s : string) (c : ascii) (p : string) :
  (s +:+ String c "") +:+ p = s +:+ String c p.
Proof.
  induction s as [ | a s IH ]; [ reflexivity | ].
  change ((String a s +:+ String c "") +:+ p)
    with (String a ((s +:+ String c "") +:+ p)).
  rewrite IH. reflexivity.
Qed.

Lemma split_from_digits (p : string) :
  digits_only p = true ->
  forall cur, split_from "-" p cur = [cur +:+ p].
Proof.
  induction p as [ | c p IH ]; intros Hp cur; simpl.
  - rewrite string_app_nil. reflexivity.
  - simpl in Hp. destruct (digit_of c) as [d | ] eqn:Hd; [ | discriminate ].
    rewrite (digit_is_not_dash c) by (rewrite Hd; eauto).
    rewrite IH by exact Hp. rewrite string_app_cons. reflexivity.
Qed.

(** The number of [loop-<n>] is the number value of [n]. *)
Lemma loopNumber_loopName (n : N) :
  loopNumber (loopName n) = toNumber (Z.of_N n).
Proof.
  destruct (pretty_N_digits n) as [Hdigits Hparse].
  unfold loopNumber, loopName, split.
  change (split_from "-" ("loop-" +:+ pretty n) "")
    with ("loop" :: split_from "-" (pretty n) "").
  rewrite split_from_digits by exact Hdigits. simpl. exact Hparse.
Qed.

Lemma loopNumber_loopName_small (n : N) :
  (n < 2 ^ 53)%N -> loopNumber (loopName n) = Finite (Z.of_N n).
Proof.
  intros Hn. rewrite loopNumber_loopName. apply toNumber_exact.
  change (2 ^ 53)%N with (Z.to_N (2 ^ 53)) in Hn. lia.
Qed.

(** Below 2^53 the number of the directory [loop-<n>] is read back as
    [n], and the comparator of the sort gives the difference of the
    numbers on two such names: [loop-10] comes after [loop-2].  Beyond,
    the number read is rounded: [loop-9007199254740993] reads as
    9007199254740992, and the comparator gives 0 on that name and
    [loop-9007199254740992]. *)
Theorem loopNumber_of_loopName :
  forall m n : N,
    (m < 2 ^ 53)%N -> (n < 2 ^ 53)%N ->
    loopNumber (loopName n) = Finite (Z.of_N n)
    /\ sortCompare (loopName m) (loopName n) = Finite (Z.of_N m - Z.of_N n)
    /\ loopNumber (loopName 9007199254740993) = Finite 9007199254740992
    /\ sortCompare (loopName 9007199254740993) (loopName 9007199254740992)
       = Finite 0.
Proof.
  intros m n Hm Hn.
  split; [ apply loopNumber_loopName_small, Hn | ].
  split; [ | split; vm_compute; reflexivity ].
  unfold sortCompare, compareFn.
  rewrite !loopNumber_loopName_small by assumption. simpl.
  rewrite toNumber_exact; [ reflexivity | ].
  change (2 ^ 53)%N with (Z.to_N (2 ^ 53)) in Hm, Hn. lia.
Qed.

Lemma loopNumber_of_loopName_witness :
  loopNumber "loop-10" = Finite 10
  /\ sortCompare "loop-2" "loop-10" = Finite (-8).
Proof.
  destruct (loopNumber_of_loopName 2 10 ltac:(reflexivity) ltac:(reflexivity))
    as (H1 & H2 & _).
  split; [ exact H1 | exact H2 ].
Defined.

Lemma StronglySorted_fmap {A B : Type} (f : A -> B) (R : B -> B -> Prop)
    (l : list A) :
  StronglySorted R (f <$> l) -> StronglySorted (fun x y => R (f x) (f y)) l.
Proof.
  induction l as [ | x l IH ]; intros H; [ constructor | ].
  rewrite fmap_cons in H. apply StronglySorted_inv in H as [Hl Hx].
  constructor; [ apply IH, Hl | ].
  apply Forall_forall. intros y Hy. rewrite Forall_forall in Hx. apply Hx.
  apply list_elem_of_fmap. eauto.
Qed.

(** A directory that holds the loop directories of the numbers [ns], each
    below 2^53, in any order and next to any files: all of them are
    counted, and the sorted list has them in the order of their
    numbers. *)
Theorem loop_directories_are_counted_and_ordered :
  forall (ns : list N) (files : list string),
    let entries : list DirEntry :=
      (((fun f => mkEntry f false) <$> files)
       ++ ((fun n => mkEntry (loopName n) true) <$> ns))%list in
    Forall (fun n => n < 2 ^ 53)%N ns ->
    NoDup (name <$> entries) ->
    List.length (loopDirs entries) = List.length ns
    /\ StronglySorted loop_le (loopDirs entries)
    /\ Permutation (loopDirs entries) (loopName <$> ns)
    /\ exists sorted : list N,
         loopDirs entries = loopName <$> sorted
         /\ Permutation sorted ns
         /\ StronglySorted N.le sorted.
Proof.
  intros ns files entries Hsmall Hnd.
  assert (Hfilter : List.filter isLoopDir entries
                    = (fun n => mkEntry (loopName n) true) <$> ns).
  { subst entries. rewrite List.filter_app.
    replace (List.filter isLoopDir ((fun f => mkEntry f false) <$> files))
      with (@nil DirEntry).
    - rewrite app_nil_l. clear. induction ns as [ | n ns IH ]; [ reflexivity | ].
      assert (Hloop : isLoopDir (mkEntry (loopName n) true) = true)
        by (unfold isLoopDir, loopName; destruct (pretty n); reflexivity).
      rewrite fmap_cons, filter_cons_eq, Hloop, IH. reflexivity.
    - clear. induction files as [ | f files IH ]; [ reflexivity | ].
      assert (Hfile : isLoopDir (mkEntry f false) = false)
        by (unfold isLoopDir; apply andb_false_r).
      rewrite fmap_cons, filter_cons_eq, Hfile. exact IH. }
  assert (Hperm : Permutation (loopDirs entries) (loopName <$> ns)).
  { unfold loopDirs. rewrite array_sort_perm, filtered_names by exact Hnd.
    rewrite Hfilter, <- list_fmap_compose. reflexivity. }
  assert (Hsorted : StronglySorted loop_le (loopDirs entries)).
  { apply sorted_when_all_numbered. intros d Hd.
    assert (Hd' : d ∈ loopName <$> ns).
    { rewrite <- Hperm. unfold loopDirs. rewrite array_sort_perm. exact Hd. }
    apply list_elem_of_fmap in Hd' as (n & -> & Hn).
    rewrite Forall_forall in Hsmall.
    rewrite loopNumber_loopName_small by (apply Hsmall, Hn). discriminate. }
  split; [ rewrite Hperm, length_fmap; reflexivity | ].
  split; [ exact Hsorted | ].
  split; [ exact Hperm | ].
  assert (Hinv : Permutation (loopDirs entries) (map loopName ns)) by exact Hperm.
  apply Permutation_map_inv in Hinv as (sorted & Heq & Hp).
  exists sorted. split; [ exact Heq | ]. split; [ symmetry; exact Hp | ].
  assert (Hsmall' : Forall (fun n => n < 2 ^ 53)%N sorted)
    by (rewrite <- Hp; exact Hsmall).
  change (map loopName sorted) with (loopName <$> sorted) in Heq.
  rewrite Heq in Hsorted. apply StronglySorted_fmap in Hsorted.
  clear -Hsorted Hsmall'. revert Hsmall'.
  induction Hsorted as [ | x l Hl IH Hx ]; intros Hsmall'; [ constructor | ].
  apply Forall_cons in Hsmall' as [Hxs Hls].
  constructor; [ apply IH, Hls | ].
  rewrite Forall_forall in Hx. rewrite Forall_forall in Hls.
  apply Forall_forall. intros y Hy.
  specialize (Hx y Hy). unfold loop_le in Hx.
  rewrite !loopNumber_loopName_small in Hx by auto. simpl in Hx. lia.
Qed.

Lemma loop_directories_are_counted_and_ordered_witness :
  loopDirs (((fun f => mkEntry f false) <$> ["event-stream.jsonl"])
            ++ ((fun n => mkEntry (loopName n) true) <$> [10; 9; 100; 1]%N))%list
  = ["loop-1"; "loop-9"; "loop-10"; "loop-100"]
  /\ StronglySorted loop_le ["loop-1"; "loop-9"; "loop-10"; "loop-100"].
Proof.
  split; [ reflexivity | ].
  destruct (loop_directories_are_counted_and_ordered [10; 9; 100; 1]%N
              ["event-stream.jsonl"]) as (_ & H & _).
  - repeat constructor.
  - vm_compute. repeat constructor; set_solver.
  - exact H.
Defined.

End CountLoopsMore.

(** ** The batch runner *)

Section RunnerProps.
Import Snapshot Runner.

Context {Input Response Events : Type}.
Variable Date_now : World -> Z.
Variable hook_setup :
  string -> nat -> SetupOptions -> HookBase.Ctx ->
  Completion Thrown unit * HookBase.Ctx.
Variable getMockLLMClient : HookBase.Ctx -> option nat.
Variable agent_run :
  Input -> HookBase.Ctx -> Completion Thrown Response * HookBase.Ctx.
Variable getEvents : HookBase.Ctx -> Events.
Variable getCurrentLoopIteration : HookBase.Ctx -> Z.
Variable cleanupAllActualFiles :
  string -> HookBase.Ctx -> Completion Thrown unit * HookBase.Ctx.
Variable path_resolve : string -> string.
Variable path_basename : string -> string.
Variable import_module :
  string -> World -> Completion Thrown (@ImportedModule Input) * World.
Variable truthy : Input -> bool.

Abbreviation testSnapshot' :=
  (testSnapshot Date_now hook_setup getMockLLMClient agent_run getEvents
     getCurrentLoopIteration cleanupAllActualFiles path_resolve path_basename
     import_module truthy).
Abbreviation testEach' :=
  (testEach Date_now hook_setup getMockLLMClient agent_run getEvents
     getCurrentLoopIteration cleanupAllActualFiles path_resolve path_basename
     import_module truthy).
Abbreviation testAll' :=
  (testAll Date_now hook_setup getMockLLMClient agent_run getEvents
     getCurrentLoopIteration cleanupAllActualFiles path_resolve path_basename
     import_module truthy).
Abbreviation cli' :=
  (cli Date_now hook_setup getMockLLMClient agent_run getEvents
     getCurrentLoopIteration cleanupAllActualFiles path_resolve path_basename
     import_module truthy).

Lemma getCase_Some (cases : list SnapshotCaseConfig) (name : string)
    (c : SnapshotCaseConfig) :
  getCase cases name = Some c <->
  exists pre post,
    cases = (pre ++ c :: post)%list /\ case_name c = name
    /\ Forall (fun c' => case_name c' <> name) pre.
Proof.
  unfold getCase. induction cases as [ | c0 rest IH ]; simpl.
  - split; [ discriminate | ].
    intros (pre & post & Heq & _). destruct pre; discriminate.
  - destruct (String.eqb_spec (case_name c0) name) as [Heq | Hne].
    + split.
      * intros [= <-]. exists [], rest. repeat split; [ exact Heq | constructor ].
      * intros (pre & post & Hc & Hn & Hpre). destruct pre as [ | p pre ].
        -- simpl in Hc. injection Hc as -> _. reflexivity.
        -- simpl in Hc. injection Hc as -> _.
           apply Forall_cons in Hpre as [Hp _]. contradiction.
    + rewrite IH. split.
      * intros (pre & post & -> & Hn & Hpre). exists (c0 :: pre), post.
        repeat split; [ exact Hn | constructor; assumption ].
      * intros (pre & post & Hc & Hn & Hpre). destruct pre as [ | p pre ].
        -- simpl in Hc. injection Hc as -> _. contradiction.
        -- simpl in Hc. injection Hc as -> ->.
           apply Forall_cons in Hpre as [_ Hpre]. exists pre, post. auto.
Qed.

Lemma getCase_None (cases : list SnapshotCaseConfig) (name : string) :
  getCase cases name = None <-> (name ∉ case_name <$> cases).
Proof.
  unfold getCase. induction cases as [ | c0 rest IH ]; simpl.
  - split; [ intros _; apply not_elem_of_nil | reflexivity ].
  - rewrite not_elem_of_cons.
    destruct (String.eqb_spec (case_name c0) name) as [Heq | Hne].
    + split; [ discriminate | intros [Hne _]; congruence ].
    + rewrite IH. split; [ intros H; split; [ congruence | exact H ] | tauto ].
Qed.

(** Looking a case up by name gives the first case of that name, so a
    later case with the same name cannot be reached by name; and the
    lookup fails, with an error that lists every name, exactly when no
    case has the name. *)
Theorem findCase_gives_the_first_case_of_that_name
    (cases : list SnapshotCaseConfig) (name : string) :
  (forall c, findCase cases name = Normal c <->
     exists pre post,
       cases = (pre ++ c :: post)%list /\ case_name c = name
       /\ Forall (fun c' => case_name c' <> name) pre)
  /\ (forall e, findCase cases name = Throw e <->
        e = CaseNotFound name (case_name <$> cases)
        /\ (name ∉ case_name <$> cases)).
Proof.
  unfold findCase. split.
  - intros c. rewrite <- getCase_Some.
    destruct (getCase cases name); split; congruence.
  - intros e. rewrite <- getCase_None.
    destruct (getCase cases name); split;
      try discriminate; try (intros [_ ?]; discriminate).
    + intros [= <-]. auto.
    + intros [-> _]. reflexivity.
Qed.

Lemma testEach_app (pre rest : list SnapshotCaseConfig) (upd : bool) (w : World)
    (acc : gmap string (@SnapshotTestResult Response Events)) :
  testEach' (pre ++ rest)%list upd w acc
  = match testEach' pre upd w acc with
    | (Throw e, w1) => (Throw e, w1)
    | (Normal results, w1) => testEach' rest upd w1 results
    end.
Proof.
  revert w acc. induction pre as [ | c pre IH ]; intros w acc; simpl.
  - reflexivity.
  - destruct (testSnapshot' c upd w) as [[result | e] w1]; [ apply IH | reflexivity ].
Qed.

Lemma testEach_throws (cases : list SnapshotCaseConfig) (upd : bool) (w : World)
    (acc : gmap string (@SnapshotTestResult Response Events))
    (e : RunnerError) (w' : World) :
  testEach' cases upd w acc = (Throw e, w') ->
  exists pre c post results w1 w2,
    cases = (pre ++ c :: post)%list
    /\ testEach' pre upd w acc = (Normal results, w1)
    /\ testSnapshot' c upd w1 = (Throw e, w2)
    /\ w' = logger LError
              ("Test failed for " +:+ case_name c +:+ ": " +:+ runner_error_string e)
              w2.
Proof.
  revert w acc. induction cases as [ | c rest IH ]; intros w acc; simpl.
  - discriminate.
  - destruct (testSnapshot' c upd w) as [[result | e0] w1] eqn:E.
    + intros H. destruct (IH _ _ H) as (pre & c' & post & results & w1' & w2 & -> & Hpre & Hc & ->).
      exists (c :: pre), c', post, results, w1', w2.
      repeat split; try assumption. simpl. rewrite E. exact Hpre.
    + intros [= <- <-]. exists [], c, rest, acc, w, w1. repeat split. exact E.
Qed.

(** [testAll] throws exactly when some case fails after all the cases
    before it have passed: the error is that case's, the last line logged
    names it, the cases after it are not run, and the results of the cases
    before it are not returned. *)
Theorem testAll_stops_at_the_first_failing_case
    (cases : list SnapshotCaseConfig) (upd : bool) (w : World)
    (e : RunnerError) (w' : World) :
  testAll' cases upd w = (Throw e, w') <->
  exists pre c post results w1 w2,
    cases = (pre ++ c :: post)%list
    /\ testEach' pre upd
         (logger LInfo
            ("Testing " +:+ pretty (List.length cases) +:+ " snapshots") w) ∅
       = (Normal results, w1)
    /\ testSnapshot' c upd w1 = (Throw e, w2)
    /\ w' = logger LError
              ("Test failed for " +:+ case_name c +:+ ": " +:+ runner_error_string e)
              w2.
Proof.
  unfold testAll. split.
  - destruct (testEach' cases upd _ ∅) as [[results | e0] w1] eqn:E; [ discriminate | ].
    intros [= <- <-]. exact (testEach_throws _ _ _ _ _ _ E).
  - intros (pre & c & post & results & w1 & w2 & Hcases & Hpre & Hc & ->).
    subst cases. rewrite testEach_app, Hpre. simpl. rewrite Hc. reflexivity.
Qed.

Lemma testEach_dom (cases : list SnapshotCaseConfig) (upd : bool) (w : World)
    (acc results : gmap string (@SnapshotTestResult Response Events)) (w' : World) :
  testEach' cases upd w acc = (Normal results, w') ->
  dom results = dom acc ∪ (list_to_set (case_name <$> cases) ∖ {[ "__proto__" ]}).
Proof.
  revert w acc. induction cases as [ | c rest IH ]; intros w acc; simpl.
  - intros [= <- _]. set_solver.
  - destruct (testSnapshot' c upd w) as [[result | e0] w1]; [ | discriminate ].
    intros H. rewrite (IH _ _ H). unfold set_result.
    destruct (String.eqb_spec (case_name c) "__proto__") as [Heq | Hne].
    + rewrite Heq. set_solver.
    + rewrite dom_insert_L. set_solver.
Qed.

(** When [testAll] returns, the results have one entry for each name among
    the cases, not one for each case: two cases of the same name leave one
    result, and a case named [__proto__] leaves none. *)
Theorem testAll_results_are_keyed_by_name
    (cases : list SnapshotCaseConfig) (upd : bool) (w : World)
    (results : gmap string (@SnapshotTestResult Response Events)) (w' : World) :
  testAll' cases upd w = (Normal results, w') ->
  dom results = list_to_set (case_name <$> cases) ∖ {[ "__proto__" ]}
  /\ size results <= List.length cases.
Proof.
  unfold testAll.
  destruct (testEach' cases upd _ ∅) as [[results0 | e0] w1] eqn:E; [ | discriminate ].
  intros [= <- _]. pose proof (testEach_dom _ _ _ _ _ _ E) as Hdom.
  rewrite dom_empty_L, (left_id_L ∅ (∪)) in Hdom. split; [ exact Hdom | ].
  rewrite <- size_dom, Hdom.
  etransitivity;
    [ apply (subseteq_size (list_to_set (case_name <$> cases) ∖ {[ "__proto__" ]})
               (list_to_set (case_name <$> cases) : gset string));
      set_solver | ].
  clear. induction cases as [ | c rest IH ].
  - change (size (∅ : gset string) <= 0). rewrite size_empty. lia.
  - rewrite fmap_cons, list_to_set_cons, size_union_alt, size_singleton.
    pose proof (subseteq_size (list_to_set (case_name <$> rest) ∖ {[case_name c]})
                  (list_to_set (case_name <$> rest) : gset string)
                  ltac:(set_solver)).
    simpl. lia.
Qed.

(** On the command line, a second argument that is neither empty nor [all]
    nor the name of a case ends the process with code 1 before any case is
    loaded or run: the agent and the directory are untouched and the last
    line logged is the lookup error.  An update flag given in the place of
    the case name is such an argument. *)
Theorem cli_unknown_case_name_exits_with_1
    (cases : list SnapshotCaseConfig) (command caseName : string)
    (flags : list string) (w : World) :
  command ∈ ["generate"; "test"; "replay"] ->
  caseName <> "" -> caseName <> "all" ->
  (caseName ∉ case_name <$> cases) ->
  let '(outcome, w') := cli' cases (command :: caseName :: flags) w in
  outcome = Exited 1
  /\ agent w' = agent w /\ dir w' = dir w
  /\ last (log w')
     = Some (LError,
             "Command failed: "
             +:+ runner_error_string (CaseNotFound caseName (case_name <$> cases))).
Proof.
  intros Hcmd Hne Hall Hnot.
  assert (Hfind : findCase cases caseName
                  = Throw (CaseNotFound caseName (case_name <$> cases))).
  { unfold findCase. apply getCase_None in Hnot. rewrite Hnot. reflexivity. }
  set (upd := bool_decide ("-u" ∈ flags) || bool_decide ("--updateSnapshot" ∈ flags)).
  set (w0 := if upd then logger LInfo "Update snapshots mode enabled" w else w).
  assert (Hw0 : agent w0 = agent w /\ dir w0 = dir w)
    by (unfold w0; destruct upd; split; reflexivity).
  assert (Habs : absent (Some caseName) = false)
    by (simpl; apply String.eqb_neq; exact Hne).
  assert (Hdec : bool_decide (Some caseName = Some "all") = false)
    by (apply bool_decide_eq_false; congruence).
  assert (Hgen : handleGenerateCommand Date_now agent_run getEvents path_resolve
                   path_basename import_module truthy cases (Some caseName) w0
                 = (Throw (CaseNotFound caseName (case_name <$> cases)), w0)).
  { unfold handleGenerateCommand. rewrite Habs, Hdec. simpl. rewrite Hfind. reflexivity. }
  assert (Htest : handleTestCommand Date_now hook_setup getMockLLMClient agent_run
                    getEvents getCurrentLoopIteration cleanupAllActualFiles
                    path_resolve path_basename import_module truthy
                    cases (Some caseName) upd w0
                  = (Throw (CaseNotFound caseName (case_name <$> cases)), w0)).
  { unfold handleTestCommand. rewrite Habs, Hdec. simpl. rewrite Hfind. reflexivity. }
  assert (Hlast : forall m, last (log (logger LError m w0)) = Some (LError, m)).
  { intros m. unfold logger. simpl. apply last_snoc. }
  repeat (apply elem_of_cons in Hcmd as [-> | Hcmd]);
    [ | | | apply elem_of_nil in Hcmd; destruct Hcmd ];
    unfold cli; cbn [lookup list_lookup drop]; cbv beta iota zeta;
    change (drop 0 flags) with flags; fold upd; fold w0;
    [ rewrite Hgen | rewrite Htest | rewrite Htest ];
    (split; [ reflexivity | ]); (split; [ apply Hw0 | ]); (split; [ apply Hw0 | ]);
    apply Hlast.
Qed.

End RunnerProps.

Section RunnerRuns.
Import Snapshot Runner Scenario RunnerExamples.

(** Three cases, the second of which cannot be loaded: the error names
    the kind of failure of the import. *)
Lemma testAll_stops_at_the_first_failing_case_witness :
  fst (testAll_with 3 [case_ok; case_broken; case_late] false recorded_world)
  = Throw (LoadFailed "./cases/broken.ts" "SyntaxError: Unexpected token")
  /\ ((LInfo, "Testing snapshot: late")
      ∉ log (snd (testAll_with 3 [case_ok; case_broken; case_late] false
                    recorded_world))).
Proof.
  pose (before :=
          testEach frozen_clock setup_installs mock_client run_quietly no_events
            (loops_executed 3) cleanup_ok Examples.identity_path
            Examples.last_segment case_modules object_options
            [case_ok] false (logger LInfo "Testing 3 snapshots" recorded_world) ∅).
  pose (failing :=
          testSnapshot frozen_clock setup_installs mock_client run_quietly no_events
            (loops_executed 3) cleanup_ok Examples.identity_path
            Examples.last_segment case_modules object_options
            case_broken false (snd before)).
  assert (H : testAll_with 3 [case_ok; case_broken; case_late] false recorded_world
              = (Throw (LoadFailed "./cases/broken.ts" "SyntaxError: Unexpected token"),
                 snd (testAll_with 3 [case_ok; case_broken; case_late] false
                        recorded_world))).
  { apply (proj2 (testAll_stops_at_the_first_failing_case
                    frozen_clock setup_installs mock_client run_quietly no_events
                    (loops_executed 3) cleanup_ok Examples.identity_path
                    Examples.last_segment case_modules object_options
                    [case_ok; case_broken; case_late] false recorded_world _ _)).
    exists [case_ok], case_broken, [case_late],
      (match fst before with Normal r => r | Throw _ => ∅ end),
      (snd before), (snd failing).
    split; [ reflexivity | ].
    split; [ vm_compute; reflexivity | ].
    split; vm_compute; reflexivity. }
  split.
  - rewrite H. reflexivity.
  - vm_compute. intros Hin.
    repeat (apply elem_of_cons in Hin as [Hin | Hin]; [ discriminate | ]).
    apply elem_of_nil in Hin. exact Hin.
Defined.

(** Two cases of the same name leave one result, a case named
    [__proto__] leaves none. *)
Lemma testAll_results_are_keyed_by_name_witness :
  exists results,
    fst (testAll_with 3 [case_ok; case_again; case_proto] false recorded_world)
    = Normal results
    /\ dom results = {[ "ok" ]}.
Proof.
  unfold testAll_with.
  pose proof (testAll_results_are_keyed_by_name
                frozen_clock setup_installs mock_client run_quietly no_events
                (loops_executed 3) cleanup_ok Examples.identity_path
                Examples.last_segment case_modules object_options
                [case_ok; case_again; case_proto] false recorded_world) as H.
  destruct (testAll frozen_clock setup_installs mock_client run_quietly no_events
              (loops_executed 3) cleanup_ok Examples.identity_path
              Examples.last_segment case_modules object_options
              [case_ok; case_again; case_proto] false recorded_world)
    as [[results | e] w'] eqn:E.
  - exists results. split; [ reflexivity | ].
    destruct (H results w' eq_refl) as [Hdom _].
    rewrite Hdom. vm_compute. reflexivity.
  - vm_compute in E. discriminate.
Defined.

(** [test -u]: the flag stands where the case name is read. *)
Lemma cli_unknown_case_name_exits_with_1_witness :
  fst (cli_with 3 [case_ok] ["test"; "-u"] recorded_world) = Exited 1.
Proof.
  pose proof (cli_unknown_case_name_exits_with_1
                frozen_clock setup_installs mock_client run_quietly no_events
                (loops_executed 3) cleanup_ok Examples.identity_path
                Examples.last_segment case_modules object_options
                [case_ok] "test" "-u" [] recorded_world) as H.
  unfold cli_with.
  destruct (cli frozen_clock setup_installs mock_client run_quietly no_events
              (loops_executed 3) cleanup_ok Examples.identity_path
              Examples.last_segment case_modules object_options
              [case_ok] ["test"; "-u"] recorded_world) as [outcome w'].
  apply H.
  - apply elem_of_cons. right. apply elem_of_cons. left. reflexivity.
  - discriminate.
  - discriminate.
  - simpl. intros Hin. apply elem_of_cons in Hin as [Hin | Hin];
      [ discriminate | apply elem_of_nil in Hin; exact Hin ].
Defined.

End RunnerRuns.

Section CyclicInputs.
Import Normalizer Scenario.

(** [a.self = a] is normalized to [{self: '[Circular]'}]. *)
Lemma normalize_returns_without_empty_key_witness :
  (exists r,
     normalize (S (S (size (dom named_cycle)))) named_cycle (new_normalizer None)
       (VRef 1%nat) ∅ = Some r)
  /\ (fst <$> normalize 3 named_cycle (new_normalizer None) (VRef 1%nat) ∅)
     = Some (OObj [("self", OVal (VStr "[Circular]"))]).
Proof.
  split; [ | reflexivity ].
  apply (normalize_returns_without_empty_key named_cycle (new_normalizer None)
           (VRef 1%nat) ∅).
  unfold no_empty_key.
  change (named_cycle !! 1%nat) with (Some (HObject [("self", VRef 1%nat)])).
  simpl. intros Hin.
  apply elem_of_cons in Hin as [Hin | Hin];
    [ discriminate | apply elem_of_nil in Hin; exact Hin ].
Defined.

End CyclicInputs.
